(** * simplocalypse: the zombie town simulation of [src/main.js]

    A shallow embedding of the three classes of the program ([Results],
    [Simulation], [Application]) and of the part of the browser they run
    on (arrays, [Math.random], [setInterval]/[clearInterval]), followed
    by the properties of the simulation that the specification states.

    Conventions.
    - The counters [zombies] and [day] start at 1 and 0 and are only ever
      incremented, so they are natural numbers here (JavaScript numbers
      are exact on integers below 2^53).
    - [Math.random()] is an oracle [random : nat -> Q]: [random k] is the
      value returned by the k-th call.  The browser promises a value in
      [0, 1); statements that need it carry it as a hypothesis.  Products
      with the array length are exact rationals.
    - The one division of the program, [totalDays / iterations], is the
      division of IEEE 754 double precision numbers: the quotient of the
      two integers is rounded to the nearest double, ties to even.
    - Objects held in [this.simulations] are referred to by their index
      in that array; the callbacks stored in [onDone] are defunctionalised
      into the type [handler].
    - The DOM is reduced to the content last written to the container. *)

From Stdlib Require Import QArith Qround Qpower Qabs Lqa Lia.
From stdpp Require Import base numbers list gmap.

Local Open Scope nat_scope.

(** ** JavaScript arrays of booleans, with holes *)

(** An element of [this.houses]: [Some b] is a stored boolean, [None] an
    empty slot, which reads as [undefined]. *)
Definition cell : Type := option bool.

(** [a[i]]: reading past the end gives [undefined] too. *)
Definition js_get (a : list cell) (i : nat) : cell :=
  match a !! i with
  | Some c => c
  | None => None
  end.

(** Truthiness of [a[i]], as tested by [!this.houses[i]]. *)
Definition truthy (c : cell) : bool :=
  match c with
  | Some true => true
  | _ => false
  end.

(** [a[i] = v]: in range the slot is overwritten; past the end the array
    grows to length [i + 1], the slots in between staying empty. *)
Definition js_set (a : list cell) (i : nat) (v : bool) : list cell :=
  if decide (i < length a) then <[i := Some v]> a
  else a ++ replicate (i - length a) None ++ [Some v].

(** [a.includes(false)]: an empty slot is compared as [undefined]. *)
Definition is_false (c : cell) : bool :=
  match c with
  | Some false => true
  | _ => false
  end.

Definition includes_false (a : list cell) : bool := existsb is_false a.

(** [new Array(n)] throws a [RangeError] unless [n] is an integer in
    [0, 2^32 - 1]. *)
Inductive exn := RangeError | TypeError.

Inductive result (A : Type) :=
  | Ok (a : A)
  | Throw (e : exn).
Arguments Ok {A} a.
Arguments Throw {A} e.

Definition bind {A B} (r : result A) (k : A -> result B) : result B :=
  match r with
  | Ok a => k a
  | Throw e => Throw e
  end.

Notation "'let!' x ':=' r 'in' k" := (bind r (fun x => k))
  (at level 10, x name, r at level 100, k at level 200).

Definition new_Array (n : Z) : result nat :=
  if ((0 <=? n)%Z && (n <? 2 ^ 32)%Z)%bool then Ok (Z.to_nat n) else Throw RangeError.

(** ** Numbers shown to the user *)

(** The value of [totalDays / iterations]: [NaN], [Infinity] or a
    finite double, held as the rational it stands for. *)
Inductive number :=
  | NaN
  | Infinity
  | Num (q : Q).

(** Rounding to the nearest integer, a tie going to the even one. *)
Definition nearest_even (y : Q) : Z :=
  let f := Qfloor y in
  match (y - inject_Z f ?= 1 # 2)%Q with
  | Lt => f
  | Eq => if Z.even f then f else (f + 1)%Z
  | Gt => (f + 1)%Z
  end.

(** The binade of [a / b] for positive integers: the exponent [k] with
    [2 ^ k <= a / b < 2 ^ (k + 1)]; and the exponent of the unit in the
    last place of a double of that binade, whose significand has 53
    bits. *)
Definition binade (a b : Z) : Z :=
  let k := (Z.log2 a - Z.log2 b)%Z in
  if Qle_bool (2 ^ k * inject_Z b) (inject_Z a) then k else (k - 1)%Z.

Definition ulp (a b : Z) : Z := (binade a b - 52)%Z.

(** The double nearest to [a / b]: the quotient is scaled to a
    significand of 53 bits, rounded to an integer, and scaled back.  A
    quotient of two positive integers below 2^53 is neither subnormal
    nor out of range, so the exponent needs no clamping. *)
Definition binary64_quotient (a b : Z) : Q :=
  let e := ulp a b in
  Qred (inject_Z (nearest_even (inject_Z a / inject_Z b / 2 ^ e)) * 2 ^ e).

(** The integers that a JavaScript number holds exactly
    ([Number.isSafeInteger], for the non-negative ones). *)
Definition safe_integer (n : Z) : bool := (n <? 2 ^ 53)%Z.

(** [a / b] for [b > 0].  Both operands are counters of the program (a
    sum of day counters and an array length), which are naturals here as
    long as they are safe integers; on those the quotient is the nearest
    double.  A natural beyond that range stands for no value that the
    program can hold; the quotient is left unrounded there. *)
Definition quotient (a b : nat) : Q :=
  if safe_integer (Z.of_nat a) && safe_integer (Z.of_nat b)
  then binary64_quotient (Z.of_nat a) (Z.of_nat b)
  else Z.of_nat a # Pos.of_nat b.

Definition js_div (a b : nat) : number :=
  match b with
  | 0 => match a with 0 => NaN | S _ => Infinity end
  | S _ => Num (quotient a b)
  end.

(** ** The objects *)

(** The three functions that are ever stored in [onDone]. *)
Inductive handler :=
  | LogNotDefined                  (* Simulation.prototype.onDone *)
  | RecordThenStart (current : nat) (* results.add(state.day); current.start() *)
  | RecordThenRender.              (* results.add(state.day); results.render() *)

Record Simulation := mkSimulation {
  zombies : nat;
  day : nat;
  houses : list cell;
  timer : option nat;   (* [this.timer]: [None] is [undefined] *)
  onDone : handler
}.

(** What the container element shows. *)
Inductive screen :=
  | Blank
  | Town (cells : list bool)
  | Summary (iterations : nat) (averageDays : number).

(** The state of the page: the objects of the application, the interval
    timers that are armed (each calls [tick] on one simulation), and the
    number of calls made to [Math.random]. *)
Record world := mkWorld {
  simulations : list Simulation;
  results : list nat;
  intervals : gmap nat nat;
  next_interval : nat;
  calls : nat;
  container : screen
}.

(** The observable calls, in the order in which they happen. *)
Inductive event :=
  | Started (i : nat)                 (* simulations[i].start() *)
  | Done (i : nat) (d : nat)          (* simulations[i].onDone(state), state.day = d *)
  | Recorded (d : nat)                (* results.add(d) *)
  | Rendered (iterations : nat) (averageDays : number).  (* results.render() *)

Definition set_simulations (f : list Simulation -> list Simulation) (w : world) : world :=
  mkWorld (f (simulations w)) (results w) (intervals w) (next_interval w)
          (calls w) (container w).

Definition set_container (c : screen) (w : world) : world :=
  mkWorld (simulations w) (results w) (intervals w) (next_interval w) (calls w) c.

Definition set_calls (n : nat) (w : world) : world :=
  mkWorld (simulations w) (results w) (intervals w) (next_interval w) n (container w).

Definition set_onDone (h : handler) (s : Simulation) : Simulation :=
  mkSimulation (zombies s) (day s) (houses s) (timer s) h.

Definition set_timer (t : option nat) (s : Simulation) : Simulation :=
  mkSimulation (zombies s) (day s) (houses s) t (onDone s).

(** ** class Results *)

Definition Results_add (days : nat) (w : world) : world :=
  mkWorld (simulations w) (results w ++ [days]) (intervals w) (next_interval w)
          (calls w) (container w).

Definition totalDays (rs : list nat) : nat := foldl (fun prev curr => prev + curr) 0 rs.

(** The two values computed by [render]. *)
Definition summarize (rs : list nat) : nat * number :=
  let iterations := length rs in
  let averageDays := js_div (totalDays rs) iterations in
  (iterations, averageDays).

Definition Results_render (w : world) : list event * world :=
  let '(iterations, averageDays) := summarize (results w) in
  ([Rendered iterations averageDays],
   set_container (Summary iterations averageDays) w).

(** ** class Simulation *)

Definition Simulation_new (numberOfHouses : Z) : result Simulation :=
  let! n := new_Array numberOfHouses in
  Ok (mkSimulation 1 0 (replicate n (Some false)) None LogNotDefined).

(** [Math.floor(r * length)] for the value [r] returned by
    [Math.random()], which is never negative: the result is used as an
    array index. *)
Definition randomHouseNumber (r : Q) (len : nat) : nat :=
  Z.to_nat (Qfloor (r * inject_Z (Z.of_nat len))).

(** [forEach] skips empty slots; a house shows as infected when truthy. *)
Definition Simulation_render (s : Simulation) (w : world) : world :=
  set_container (Town (omap id (houses s))) w.

(** The test that guards [this.stop(); this.onDone(this)]. *)
Definition complete (s : Simulation) : bool := negb (includes_false (houses s)).

(** [stop] and [start] for the simulation at index [i];
    [clearInterval] disarms the timer whose id is in [this.timer],
    [setInterval] arms a new one. *)
Definition Simulation_stop (i : nat) (w : world) : world :=
  match simulations w !! i with
  | Some s =>
      match timer s with
      | Some id =>
          mkWorld (simulations w) (results w) (delete id (intervals w))
                  (next_interval w) (calls w) (container w)
      | None => w   (* clearInterval(undefined) *)
      end
  | None => w
  end.

Definition Simulation_start (i : nat) (w : world) : list event * world :=
  match simulations w !! i with
  | Some s =>
      let id := next_interval w in
      ([Started i],
       mkWorld (<[i := set_timer (Some id) s]> (simulations w)) (results w)
               (<[id := i]> (intervals w)) (S id) (calls w) (container w))
  | None => ([], w)
  end.

(** [this.onDone(this)] for the simulation at index [i]. *)
Definition call_onDone (i : nat) (w : world) : list event * world :=
  match simulations w !! i with
  | Some state =>
      match onDone state with
      | LogNotDefined => ([Done i (day state)], w)
      | RecordThenStart current =>
          let w1 := Results_add (day state) w in
          let '(evs, w2) := Simulation_start current w1 in
          (Done i (day state) :: Recorded (day state) :: evs, w2)
      | RecordThenRender =>
          let w1 := Results_add (day state) w in
          let '(evs, w2) := Results_render w1 in
          (Done i (day state) :: Recorded (day state) :: evs, w2)
      end
  | None => ([], w)
  end.

(** ** class Application *)

(** The options that reach the logic; a field left out by the caller
    is [None] and takes the default of the constructor. *)
Record options := mkOptions {
  opt_numberOfSimulations : option Z;
  opt_numberOfHouses : option Z
}.

Definition numberOfSimulations (o : options) : Z :=
  match opt_numberOfSimulations o with Some k => k | None => 5%Z end.

Definition numberOfHouses (o : options) : Z :=
  match opt_numberOfHouses o with Some n => n | None => 100%Z end.

(** [new Array(k).fill().map(() => new Simulation(...))]. *)
Fixpoint construct (k : nat) (n : Z) : result (list Simulation) :=
  match k with
  | 0 => Ok []
  | S k' =>
      let! s := Simulation_new n in
      let! rest := construct k' n in
      Ok (s :: rest)
  end.

Definition assign_onDone (i : nat) (h : handler) (l : list Simulation) : list Simulation :=
  match l !! i with
  | Some s => <[i := set_onDone h s]> l
  | None => l
  end.

(** The callback of [reduce], applied to the remaining indices:
    [prev.onDone = ...; return current]. *)
Fixpoint chain (prev : nat) (rest : list nat) (l : list Simulation) : list Simulation :=
  match rest with
  | [] => l
  | current :: rest' =>
      chain current rest' (assign_onDone prev (RecordThenStart current) l)
  end.

(** [reduce] without an initial value throws on an empty array and
    otherwise starts from the first element. *)
Definition initSynchronousSimulations (o : options) (l : list Simulation)
  : result (list Simulation) :=
  match seq 0 (length l) with
  | [] => Throw TypeError
  | first :: rest =>
      let l' := chain first rest l in
      let last := Z.to_nat (numberOfSimulations o - 1) in
      match l' !! last with
      | Some s => Ok (<[last := set_onDone RecordThenRender s]> l')
      | None => Throw TypeError   (* assignment to a property of undefined *)
      end
  end.

Definition Application_new (o : options) : result world :=
  let! k := new_Array (numberOfSimulations o) in
  let! l := construct k (numberOfHouses o) in
  let! l' := initSynchronousSimulations o l in
  Ok (mkWorld l' [] ∅ 0 0 Blank).

Definition Application_run (w : world) : list event * world :=
  Simulation_start 0 w.

(** The script at the end of the file: build the application, run it. *)
Definition main (o : options) : result (list event * world) :=
  let! app := Application_new o in
  Ok (Application_run app).

(** ** The part that draws random numbers *)

(** The variables of the loop of [tick]: the houses, the tally
    [newlyInfected] and the position in the random source. *)
Record visit := mkVisit {
  v_houses : list cell;
  v_newly : nat;
  v_calls : nat
}.

Section WithRandom.

Variable random : nat -> Q.

(** One zombie enters a random house. *)
Definition enter (v : visit) : visit :=
  let i := randomHouseNumber (random (v_calls v)) (length (v_houses v)) in
  if truthy (js_get (v_houses v) i)
  then mkVisit (v_houses v) (v_newly v) (S (v_calls v))
  else mkVisit (js_set (v_houses v) i true) (S (v_newly v)) (S (v_calls v)).

(** [for (let zombie = 0; zombie < this.zombies; zombie++)]:
    [this.zombies] is not assigned in the body, so the body runs
    [this.zombies] times; [n] counts the iterations left. *)
Fixpoint each_zombie (n : nat) (v : visit) : visit :=
  match n with
  | 0 => v
  | S n' => each_zombie n' (enter v)
  end.

(** The assignments of [tick] to the fields of the simulation, up to
    and including [this.zombies += newlyInfected]. *)
Definition advance (s : Simulation) (c : nat) : Simulation * nat :=
  let v := each_zombie (zombies s) (mkVisit (houses s) 0 c) in
  (mkSimulation (zombies s + v_newly v) (S (day s)) (v_houses v)
                (timer s) (onDone s),
   v_calls v).

Definition Simulation_tick (i : nat) (w : world) : list event * world :=
  match simulations w !! i with
  | Some s =>
      let '(s', c') := advance s (calls w) in
      let w1 := set_calls c' (set_simulations (fun l => <[i := s']> l) w) in
      let w2 := Simulation_render s' w1 in
      if complete s' then call_onDone i (Simulation_stop i w2)
      else ([], w2)
  | None => ([], w)
  end.

(** ** The event loop *)

(** An armed interval timer fires and calls [tick] on its simulation. *)
Definition fire (id : nat) (w : world) : option (list event * world) :=
  match intervals w !! id with
  | Some i => Some (Simulation_tick i w)
  | None => None
  end.

(** [exec w tr w']: from [w], some sequence of timer callbacks leads
    to [w'], the calls observed on the way being [tr]. *)
Inductive exec (w : world) : list event -> world -> Prop :=
  | exec_refl : exec w [] w
  | exec_fire tr w1 id evs w2 :
      exec w tr w1 -> fire id w1 = Some (evs, w2) -> exec w (tr ++ evs) w2.

End WithRandom.

(** * Notions used in the statements *)

(** The number of houses that show as infected. *)
Fixpoint infected (hs : list cell) : nat :=
  match hs with
  | [] => 0
  | c :: hs' => (if truthy c then 1 else 0) + infected hs'
  end.

(** An array without empty slots. *)
Definition solid (hs : list cell) : Prop := Forall (fun c => is_Some c) hs.

(** The contract of [Math.random]. *)
Definition unit_interval (random : nat -> Q) : Prop :=
  forall k, (0 <= random k)%Q /\ (random k < 1)%Q.

(** ** One day, as the specification words it *)

(** Modelled on the wording of [advanceOneDay()]: the state of a run is
    its houses (infected or not), a zombie count and a day counter. *)
Record run_state := mkRun {
  run_houses : list bool;
  run_zombies : nat;
  run_day : nat
}.

(** One zombie visits the house at a drawn index: an uninfected house is
    marked infected and counted in the tally. *)
Definition visit_house (acc : list bool * nat) (i : nat) : list bool * nat :=
  match acc.1 !! i with
  | Some false => (<[i := true]> acc.1, S acc.2)
  | _ => acc
  end.

(** The day counter goes up by one, every drawn index is visited in
    turn, the tally is added to the zombie count, and the run is complete
    when no house remains uninfected. *)
Definition advanceOneDay (st : run_state) (draws : list nat) : run_state * bool :=
  let acc := foldl visit_house (run_houses st, 0) draws in
  (mkRun acc.1 (run_zombies st + acc.2) (run_day st + 1), forallb id acc.1).

(** The run state held by a [Simulation] object. *)
Definition state_of (s : Simulation) : run_state :=
  mkRun (truthy <$> houses s) (zombies s) (day s).

(** The state after [n] successive calls of [tick]. *)
Fixpoint ticks (random : nat -> Q) (n : nat) (s : Simulation) (c : nat) : Simulation * nat :=
  match n with
  | 0 => (s, c)
  | S n' => let '(s', c') := advance random s c in ticks random n' s' c'
  end.

(** The indices drawn by [n] zombies from position [c] of the random
    source, for a town of [len] houses. *)
Definition draws (random : nat -> Q) (c n len : nat) : list nat :=
  (fun k => randomHouseNumber (random k) len) <$> seq c n.

(** The timer calls [tick] until [tick] stops it: the simulation as it
    is when [onDone] is called, if that happens within [fuel] days. *)
Fixpoint run (random : nat -> Q) (fuel : nat) (s : Simulation) (c : nat) : option Simulation :=
  match fuel with
  | 0 => None
  | S fuel' =>
      let '(s', c') := advance random s c in
      if complete s' then Some s' else run random fuel' s' c'
  end.

(** Two records that hold the same run. *)
Definition same_town (s1 s2 : Simulation) : Prop :=
  zombies s1 = zombies s2 /\ day s1 = day s2 /\ houses s1 = houses s2.

(** ** The batch of runs *)

(** What the page can come to: the script has run and some timer
    callbacks have followed; [tr] lists the calls observed so far. *)
Definition reachable (random : nat -> Q) (o : options) (tr : list event) (w : world) : Prop :=
  exists evs0 w0 tr',
    main o = Ok (evs0, w0) /\ exec random w0 tr' w /\ tr = evs0 ++ tr'.

(** The callback that the constructor of [Application] leaves in the
    simulation at index [j] of [k]. *)
Definition handler_for (k j : nat) : handler :=
  if decide (S j < k) then RecordThenStart (S j) else RecordThenRender.

(** A simulation that has not been started. *)
Definition fresh (n : nat) (h : handler) : Simulation :=
  mkSimulation 1 0 (replicate n (Some false)) None h.

(** A town of [n] houses whose zombies are the first one and one per
    infected house. *)
Definition sound (n : nat) (s : Simulation) : Prop :=
  solid (houses s) /\ length (houses s) = n /\ zombies s = 1 + infected (houses s).

(** The calls seen while the runs [from], [from + 1], ... completed
    after [ds] days, one after the other. *)
Fixpoint history (from : nat) (ds : list nat) : list event :=
  match ds with
  | [] => []
  | d :: ds' => Started from :: Done from d :: Recorded d :: history (S from) ds'
  end.

(** The number of times [onDone] was called on the simulation at [j]. *)
Definition is_done (j : nat) (e : event) : bool :=
  match e with
  | Done i _ => Nat.eqb i j
  | _ => false
  end.

Definition count_done (j : nat) (tr : list event) : nat :=
  length (List.filter (is_done j) tr).

(** The state of a batch of [k] runs over [n] houses: the runs before
    the one at index [length results] are complete and recorded in
    order, that one is the only one with an armed timer, and the later
    ones are untouched. *)
Record batch (k n : nat) (tr : list event) (w : world) : Prop := mkBatch {
  batch_length : length (simulations w) = k;
  batch_bound : length (results w) <= k;
  batch_handlers : forall j s, simulations w !! j = Some s -> onDone s = handler_for k j;
  batch_sound : forall j s, simulations w !! j = Some s -> sound n s;
  batch_past : forall j s, simulations w !! j = Some s -> j < length (results w) ->
      complete s = true /\ results w !! j = Some (day s);
  batch_future : forall j s, simulations w !! j = Some s -> length (results w) < j ->
      s = fresh n (handler_for k j);
  batch_current : length (results w) < k ->
      tr = history 0 (results w) ++ [Started (length (results w))]
      /\ exists s id, simulations w !! length (results w) = Some s
                      /\ complete s = false
                      /\ timer s = Some id
                      /\ intervals w = {[ id := length (results w) ]};
  batch_finished : length (results w) = k ->
      tr = history 0 (results w) ++ [Rendered k (summarize (results w)).2]
      /\ intervals w = ∅
}.

(** A run is active when it has been started and its [onDone] has not
    been called yet. *)
Definition active (tr : list event) (j : nat) : Prop :=
  Started j ∈ tr /\ forall d, Done j d ∉ tr.

(** The simulation at index 0 of the page is on the evening of day [m]
    of a run over [n] houses that draws from the start of the random
    source. *)
Definition first_run_at (random : nat -> Q) (n m : nat) (w : world) : Prop :=
  exists s,
    simulations w !! 0 = Some s
    /\ same_town (ticks random m (fresh n LogNotDefined) 0).1 s
    /\ calls w = (ticks random m (fresh n LogNotDefined) 0).2.

(** [q] is the double nearest to the positive rational [x]: a
    significand [m] of 53 bits times the unit in the last place [2 ^ e]
    of the binade of [x], within half a unit of [x], the significand
    being even when [x] is half way between two doubles.  The exponent
    is in the range of the normal doubles. *)
Definition nearest_double (x q : Q) : Prop :=
  exists m e : Z,
    (q == inject_Z m * 2 ^ e)%Q
    /\ (2 ^ 52 <= m <= 2 ^ 53)%Z
    /\ (-1074 <= e <= 971)%Z
    /\ (2 ^ (e + 52) <= x)%Q /\ (x < 2 ^ (e + 53))%Q
    /\ (Qabs (q - x) <= (1 # 2) * 2 ^ e)%Q
    /\ ((Qabs (q - x) == (1 # 2) * 2 ^ e)%Q -> Z.even m = true).

(** The options of the script at the end of [main.js]. *)
Definition shipped : options := mkOptions (Some 10%Z) (Some 100%Z).

(** ** Sample inputs *)

(** A random source that always returns 0, and one that always
    returns 1/2. *)
Definition always_zero : nat -> Q := fun _ => 0%Q.
Definition always_half : nat -> Q := fun _ => (1 # 2)%Q.

(** A town of one house on the evening of its first day, when its only
    house has been infected. *)
Definition town_done : Simulation :=
  (advance always_zero (fresh 1 LogNotDefined) 0).1.

(** A page that holds one simulation of three houses. *)
Definition sample_town : Simulation := fresh 3 LogNotDefined.
Definition sample_world : world := mkWorld [sample_town] [] ∅ 0 0 Blank.

(** A source that alternates between 0 and 1/2. *)
Definition alternating : nat -> Q :=
  fun k => if Nat.even k then 0%Q else (1 # 2)%Q.

(** A batch of two runs over a town of one house, the page the script
    leaves, and the page after the first timer callback, which ends the
    first run and starts the second. *)
Definition two_runs_one_house : options := mkOptions (Some 2%Z) (Some 1%Z).

Definition blank_page : world := mkWorld [] [] ∅ 0 0 Blank.

Definition page_at_start : world :=
  match main two_runs_one_house with
  | Ok p => p.2
  | Throw _ => blank_page
  end.

Definition page_after_first_run : world :=
  match fire always_zero 0 page_at_start with
  | Some p => p.2
  | None => blank_page
  end.

Definition trace_after_first_run : list event :=
  [Started 0; Done 0 1; Recorded 1; Started 1].

(** A page whose only simulation is already complete. *)
Definition done_world : world := mkWorld [town_done] [] ∅ 0 1 Blank.

(** A configuration that asks for no run at all. *)
Definition no_runs : options := mkOptions (Some 0%Z) None.

(** Recording the days of several runs, in order. *)
Definition record_all (rs : list nat) (w : world) : world :=
  foldl (fun w' d => Results_add d w') w rs.

(** Three day counts whose mean, 4/3, is not a double. *)
Definition thirds : list nat := [1; 1; 2].

(** ** Further notions *)

(** A simulation used on its own: on a page that holds nothing else, it
    is built and then started; its [onDone] is the one of the class. *)
Definition standalone (n : nat) : world :=
  (Simulation_start 0 (mkWorld [fresh n LogNotDefined] [] ∅ 0 0 Blank)).2.

(** The page at the end of the batch of two runs over one house, after
    the second timer callback, and the calls observed until then. *)
Definition page_at_end : world :=
  match fire always_zero 1 page_after_first_run with
  | Some p => p.2
  | None => blank_page
  end.

Definition trace_at_end : list event :=
  [Started 0; Done 0 1; Recorded 1; Started 1; Done 1 1; Recorded 1;
   Rendered 2 (Num 1)].

(** * Properties *)

(** ** Arrays and random indices *)

Lemma randomHouseNumber_lt r len :
  (0 <= r)%Q -> (r < 1)%Q -> 0 < len -> randomHouseNumber r len < len.
Proof.
  intros H0 H1 Hlen. unfold randomHouseNumber.
  set (n := inject_Z (Z.of_nat len)).
  assert (Hn : (0 < n)%Q).
  { unfold n. change 0%Q with (inject_Z 0). rewrite <- Zlt_Qlt. lia. }
  assert (Hlo : (0 <= Qfloor (r * n))%Z).
  { rewrite <- (Qfloor_Z 0). apply Qfloor_resp_le.
    apply Qmult_le_0_compat; [exact H0 | apply Qlt_le_weak, Hn]. }
  assert (Hhi : (Qfloor (r * n) < Z.of_nat len)%Z).
  { rewrite Zlt_Qlt. fold n.
    eapply Qle_lt_trans; [apply Qfloor_le |].
    rewrite <- (Qmult_1_l n) at 2.
    apply Qmult_lt_compat_r; assumption. }
  lia.
Qed.

Lemma infected_le_length hs : infected hs <= length hs.
Proof. induction hs as [|c hs IH]; simpl; [lia | destruct (truthy c); lia]. Qed.

Lemma infected_app hs1 hs2 : infected (hs1 ++ hs2) = infected hs1 + infected hs2.
Proof. induction hs1 as [|c hs1 IH]; simpl; [reflexivity | rewrite IH; lia]. Qed.

Lemma infected_replicate_None n : infected (replicate n None) = 0.
Proof. induction n as [|n IH]; simpl; auto. Qed.

Lemma infected_replicate_false n : infected (replicate n (Some false)) = 0.
Proof. induction n as [|n IH]; simpl; auto. Qed.

Lemma infected_insert hs i :
  i < length hs -> truthy (js_get hs i) = false ->
  infected (<[i := Some true]> hs) = S (infected hs).
Proof.
  revert i. induction hs as [|c hs IH]; intros i Hi Hc; [simpl in Hi; lia |].
  destruct i as [|i].
  - cbn in Hc |- *. rewrite Hc. reflexivity.
  - cbn [infected]. change (<[S i := Some true]> (c :: hs)) with (c :: <[i := Some true]> hs).
    cbn [infected]. rewrite (IH i); [lia | simpl in Hi; lia | exact Hc].
Qed.

(** Writing [true] into a slot that did not read as infected adds one
    infected house, wherever the slot is. *)
Lemma infected_js_set hs i :
  truthy (js_get hs i) = false -> infected (js_set hs i true) = S (infected hs).
Proof.
  intros Hc. unfold js_set. case_decide as Hi.
  - apply infected_insert; assumption.
  - rewrite !infected_app, infected_replicate_None. simpl. lia.
Qed.

Lemma length_js_set hs i v : i < length hs -> length (js_set hs i v) = length hs.
Proof. intros Hi. unfold js_set. rewrite decide_True by exact Hi. apply length_insert. Qed.

Lemma solid_js_set hs i v : i < length hs -> solid hs -> solid (js_set hs i v).
Proof.
  intros Hi Hs. unfold js_set. rewrite decide_True by exact Hi.
  apply Forall_insert; [exact Hs | eexists; reflexivity].
Qed.

Lemma js_get_js_set hs i j v :
  i < length hs ->
  js_get (js_set hs i v) j = if decide (i = j) then Some v else js_get hs j.
Proof.
  intros Hi. unfold js_set, js_get. rewrite decide_True by exact Hi.
  case_decide as Hij.
  - subst j. rewrite list_lookup_insert_eq by exact Hi. reflexivity.
  - rewrite list_lookup_insert_ne by exact Hij. reflexivity.
Qed.

(** On an array without empty slots, [includes(false)] fails exactly
    when every house is infected. *)
Lemma includes_false_infected hs :
  solid hs -> (includes_false hs = false <-> infected hs = length hs).
Proof.
  unfold includes_false. induction 1 as [|c hs [b ->] Hs IH]; simpl; [tauto |].
  pose proof (infected_le_length hs). destruct b; simpl.
  - rewrite IH. lia.
  - split; [discriminate | lia].
Qed.

Lemma includes_false_get hs :
  solid hs ->
  (includes_false hs = false <-> forall i, i < length hs -> js_get hs i = Some true).
Proof.
  unfold includes_false, js_get. induction 1 as [|c hs [b ->] Hs IH]; simpl.
  - split; [intros _ i Hi; lia | reflexivity].
  - destruct b; simpl.
    + rewrite IH. split.
      * intros H [|i] Hi; simpl; [reflexivity | apply H; lia].
      * intros H i Hi. apply (H (S i)). lia.
    + split; [discriminate |]. intros H. specialize (H 0). simpl in H.
      discriminate H. lia.
Qed.

Section Day.

Variable random : nat -> Q.

Lemma enter_calls v : v_calls (enter random v) = S (v_calls v).
Proof. unfold enter. destruct (truthy _); reflexivity. Qed.

Lemma enter_infected v :
  infected (v_houses (enter random v)) + v_newly v
  = infected (v_houses v) + v_newly (enter random v).
Proof.
  unfold enter. destruct (truthy _) eqn:Hc; simpl; [reflexivity |].
  rewrite infected_js_set by exact Hc. lia.
Qed.

Lemma enter_newly v :
  v_newly v <= v_newly (enter random v) <= S (v_newly v).
Proof. unfold enter. destruct (truthy _); simpl; lia. Qed.

Lemma each_zombie_calls n v : v_calls (each_zombie random n v) = v_calls v + n.
Proof.
  revert v. induction n as [|n IH]; intros v; simpl; [lia |].
  rewrite IH, enter_calls. lia.
Qed.

Lemma each_zombie_infected n v :
  infected (v_houses (each_zombie random n v)) + v_newly v
  = infected (v_houses v) + v_newly (each_zombie random n v).
Proof.
  revert v. induction n as [|n IH]; intros v; simpl; [lia |].
  pose proof (IH (enter random v)). pose proof (enter_infected v). lia.
Qed.

Lemma each_zombie_newly n v :
  v_newly v <= v_newly (each_zombie random n v) <= v_newly v + n.
Proof.
  revert v. induction n as [|n IH]; intros v; simpl; [lia |].
  pose proof (IH (enter random v)). pose proof (enter_newly v). lia.
Qed.

Hypothesis random_unit : unit_interval random.

Lemma index_in_range k len : 0 < len -> randomHouseNumber (random k) len < len.
Proof. intros Hlen. destruct (random_unit k). apply randomHouseNumber_lt; assumption. Qed.

Lemma enter_shape v :
  solid (v_houses v) -> 0 < length (v_houses v) ->
  solid (v_houses (enter random v))
  /\ length (v_houses (enter random v)) = length (v_houses v).
Proof.
  intros Hs Hlen. unfold enter.
  pose proof (index_in_range (v_calls v) _ Hlen) as Hi.
  destruct (truthy _); simpl; [auto |].
  split; [apply solid_js_set | apply length_js_set]; assumption.
Qed.

Lemma enter_visit_house v :
  solid (v_houses v) -> 0 < length (v_houses v) ->
  (truthy <$> v_houses (enter random v), v_newly (enter random v))
  = visit_house (truthy <$> v_houses v, v_newly v)
      (randomHouseNumber (random (v_calls v)) (length (v_houses v))).
Proof.
  intros Hs Hlen. unfold enter, visit_house, js_get, js_set.
  pose proof (index_in_range (v_calls v) _ Hlen) as Hi.
  set (i := randomHouseNumber _ _) in *. cbn [fst snd].
  rewrite list_lookup_fmap.
  destruct (lookup_lt_is_Some_2 _ _ Hi) as [c Hc]. rewrite Hc. cbn [fmap option_fmap option_map].
  assert (Hsome : is_Some c) by (eapply Forall_lookup_1; eassumption).
  destruct Hsome as [b ->]. destruct b; cbn; [reflexivity |].
  rewrite decide_True by exact Hi. rewrite list_fmap_insert. reflexivity.
Qed.

Lemma each_zombie_shape n v :
  solid (v_houses v) -> 0 < length (v_houses v) ->
  solid (v_houses (each_zombie random n v))
  /\ length (v_houses (each_zombie random n v)) = length (v_houses v).
Proof.
  revert v. induction n as [|n IH]; intros v Hs Hlen; simpl; [auto |].
  destruct (enter_shape v Hs Hlen) as [Hs' Hlen'].
  destruct (IH (enter random v) Hs') as [? ?]; [lia |]. split; [assumption | congruence].
Qed.

Lemma each_zombie_foldl n v :
  solid (v_houses v) -> 0 < length (v_houses v) ->
  (truthy <$> v_houses (each_zombie random n v), v_newly (each_zombie random n v))
  = foldl visit_house (truthy <$> v_houses v, v_newly v)
      (draws random (v_calls v) n (length (v_houses v))).
Proof.
  revert v. induction n as [|n IH]; intros v Hs Hlen; [reflexivity |].
  destruct (enter_shape v Hs Hlen) as [Hs' Hlen'].
  cbn [each_zombie]. rewrite IH by (auto; lia).
  unfold draws. cbn [seq fmap list_fmap foldl].
  rewrite enter_visit_house by assumption.
  rewrite enter_calls, Hlen'. reflexivity.
Qed.

(** A house that is infected stays infected, and the house a zombie
    enters is infected afterwards. *)
Lemma enter_keeps v j :
  0 < length (v_houses v) ->
  js_get (v_houses v) j = Some true -> js_get (v_houses (enter random v)) j = Some true.
Proof.
  intros Hlen Hj. unfold enter.
  pose proof (index_in_range (v_calls v) _ Hlen) as Hi.
  destruct (truthy _); simpl; [exact Hj |].
  rewrite js_get_js_set by exact Hi. case_decide; [reflexivity | exact Hj].
Qed.

Lemma enter_hits v :
  solid (v_houses v) -> 0 < length (v_houses v) ->
  js_get (v_houses (enter random v))
         (randomHouseNumber (random (v_calls v)) (length (v_houses v))) = Some true.
Proof.
  intros Hs Hlen. unfold enter.
  pose proof (index_in_range (v_calls v) _ Hlen) as Hi.
  set (i := randomHouseNumber _ _) in *.
  destruct (truthy (js_get (v_houses v) i)) eqn:Hc; simpl.
  - destruct (js_get (v_houses v) i) as [[|]|]; simpl in Hc; congruence.
  - rewrite js_get_js_set by exact Hi. rewrite decide_True; reflexivity.
Qed.

Lemma enter_origin v j :
  0 < length (v_houses v) ->
  js_get (v_houses (enter random v)) j = Some true ->
  js_get (v_houses v) j = Some true
  \/ randomHouseNumber (random (v_calls v)) (length (v_houses v)) = j.
Proof.
  intros Hlen. unfold enter.
  pose proof (index_in_range (v_calls v) _ Hlen) as Hi.
  destruct (truthy _); simpl; [auto |].
  rewrite js_get_js_set by exact Hi. case_decide; auto.
Qed.

Lemma each_zombie_keeps n v j :
  solid (v_houses v) -> 0 < length (v_houses v) ->
  js_get (v_houses v) j = Some true ->
  js_get (v_houses (each_zombie random n v)) j = Some true.
Proof.
  revert v. induction n as [|n IH]; intros v Hs Hlen Hj; simpl; [exact Hj |].
  destruct (enter_shape v Hs Hlen) as [Hs' Hlen'].
  apply IH; [assumption | lia | apply enter_keeps; assumption].
Qed.

Lemma each_zombie_hits n v k :
  solid (v_houses v) -> 0 < length (v_houses v) ->
  v_calls v <= k < v_calls v + n ->
  js_get (v_houses (each_zombie random n v))
         (randomHouseNumber (random k) (length (v_houses v))) = Some true.
Proof.
  revert v. induction n as [|n IH]; intros v Hs Hlen Hk; simpl; [lia |].
  destruct (enter_shape v Hs Hlen) as [Hs' Hlen'].
  destruct (decide (k = v_calls v)) as [-> | Hne].
  - apply each_zombie_keeps; [assumption | lia |]. apply enter_hits; assumption.
  - rewrite <- Hlen'. apply IH; [assumption | lia |]. rewrite enter_calls. lia.
Qed.

Lemma each_zombie_origin n v j :
  solid (v_houses v) -> 0 < length (v_houses v) ->
  js_get (v_houses (each_zombie random n v)) j = Some true ->
  js_get (v_houses v) j = Some true
  \/ exists k, v_calls v <= k < v_calls v + n
              /\ randomHouseNumber (random k) (length (v_houses v)) = j.
Proof.
  revert v. induction n as [|n IH]; intros v Hs Hlen Hj; simpl in Hj; [auto |].
  destruct (enter_shape v Hs Hlen) as [Hs' Hlen'].
  destruct (IH (enter random v) Hs') as [H | (k & Hk & Hidx)]; [lia | exact Hj | |].
  - destruct (enter_origin v j Hlen H) as [? | ?]; [auto |].
    right. exists (v_calls v). split; [lia | assumption].
  - right. exists k. rewrite enter_calls in Hk. rewrite Hlen' in Hidx.
    split; [lia | assumption].
Qed.

(** When no house is left to infect, the loop changes nothing. *)
Lemma each_zombie_idle n v :
  solid (v_houses v) -> 0 < length (v_houses v) ->
  includes_false (v_houses v) = false ->
  v_houses (each_zombie random n v) = v_houses v
  /\ v_newly (each_zombie random n v) = v_newly v.
Proof.
  revert v. induction n as [|n IH]; intros v Hs Hlen Hall; simpl; [auto |].
  assert (He : enter random v = mkVisit (v_houses v) (v_newly v) (S (v_calls v))).
  { unfold enter. pose proof (index_in_range (v_calls v) _ Hlen) as Hi.
    rewrite (proj1 (includes_false_get _ Hs) Hall _ Hi). reflexivity. }
  rewrite He. apply (IH (mkVisit _ _ _)); assumption.
Qed.

End Day.

(** ** One call of [tick] on the fields of a simulation *)

Section Advance.

Variable random : nat -> Q.

Lemma advance_day s c : day (advance random s c).1 = S (day s).
Proof. reflexivity. Qed.

Lemma advance_calls s c : (advance random s c).2 = c + zombies s.
Proof. unfold advance. cbn [snd]. apply each_zombie_calls. Qed.

Lemma advance_timer s c :
  timer (advance random s c).1 = timer s /\ onDone (advance random s c).1 = onDone s.
Proof. split; reflexivity. Qed.

(** Every new zombie is a newly infected house. *)
Lemma advance_balance s c :
  zombies (advance random s c).1 + infected (houses s)
  = zombies s + infected (houses (advance random s c).1).
Proof.
  unfold advance. cbn [fst zombies houses].
  pose proof (each_zombie_infected random (zombies s) (mkVisit (houses s) 0 c)) as H.
  cbn [v_houses v_newly] in H. lia.
Qed.

Lemma advance_zombies s c :
  zombies s <= zombies (advance random s c).1 <= 2 * zombies s.
Proof.
  unfold advance. cbn [fst zombies].
  pose proof (each_zombie_newly random (zombies s) (mkVisit (houses s) 0 c)) as H.
  cbn [v_newly] in H. lia.
Qed.

Lemma advance_infected s c :
  infected (houses s) <= infected (houses (advance random s c).1).
Proof. pose proof (advance_balance s c). pose proof (advance_zombies s c). lia. Qed.

Hypothesis random_unit : unit_interval random.

Lemma advance_shape s c :
  solid (houses s) -> 0 < length (houses s) ->
  solid (houses (advance random s c).1)
  /\ length (houses (advance random s c).1) = length (houses s).
Proof.
  intros Hs Hlen. unfold advance. cbn [fst houses].
  apply (each_zombie_shape random random_unit _ (mkVisit (houses s) 0 c)); assumption.
Qed.

Lemma complete_forallb s :
  solid (houses s) -> complete s = forallb id (truthy <$> houses s).
Proof.
  unfold complete, includes_false. induction 1 as [|c hs [b ->] Hs IH]; [reflexivity |].
  destruct b; simpl in *; [exact IH | reflexivity].
Qed.

Lemma complete_infected s :
  solid (houses s) -> (complete s = true <-> infected (houses s) = length (houses s)).
Proof.
  intros Hs. rewrite <- (includes_false_infected _ Hs). unfold complete.
  destruct (includes_false (houses s)); simpl; split; congruence.
Qed.

Lemma complete_get s :
  solid (houses s) ->
  (complete s = true <-> forall j, j < length (houses s) -> js_get (houses s) j = Some true).
Proof.
  intros Hs. rewrite <- (includes_false_get _ Hs). unfold complete.
  destruct (includes_false (houses s)); simpl; split; congruence.
Qed.

Lemma advance_advanceOneDay s c :
  solid (houses s) -> 0 < length (houses s) ->
  (state_of (advance random s c).1, complete (advance random s c).1)
  = advanceOneDay (state_of s) (draws random c (zombies s) (length (houses s))).
Proof.
  intros Hs Hlen.
  destruct (advance_shape s c Hs Hlen) as [Hs' _].
  rewrite (complete_forallb _ Hs').
  pose proof (each_zombie_foldl random random_unit (zombies s)
                (mkVisit (houses s) 0 c) Hs Hlen) as H.
  cbn [v_houses v_newly v_calls] in H.
  unfold advanceOneDay, state_of, advance.
  cbn [fst snd houses zombies day run_houses run_zombies run_day].
  rewrite <- H. cbn [fst snd]. repeat f_equal. lia.
Qed.

Lemma draws_in_range c n len :
  0 < len -> length (draws random c n len) = n
             /\ Forall (fun d => d < len) (draws random c n len).
Proof.
  intros Hlen. unfold draws. split.
  - rewrite length_fmap. apply length_seq.
  - apply Forall_fmap, Forall_forall. intros k _. apply index_in_range; assumption.
Qed.

Lemma advance_idle s c :
  solid (houses s) -> 0 < length (houses s) -> complete s = true ->
  houses (advance random s c).1 = houses s
  /\ zombies (advance random s c).1 = zombies s.
Proof.
  intros Hs Hlen Hc. unfold complete in Hc. apply negb_true_iff in Hc.
  destruct (each_zombie_idle random random_unit (zombies s)
              (mkVisit (houses s) 0 c) Hs Hlen Hc) as [Hh Hn].
  unfold advance. cbn [fst houses zombies v_houses v_newly] in *.
  rewrite Hh, Hn. split; [reflexivity | lia].
Qed.

End Advance.

(** ** The methods acting on the page *)

Lemma new_Array_Ok n m :
  new_Array n = Ok m <-> (0 <= n < 2 ^ 32)%Z /\ m = Z.to_nat n.
Proof.
  unfold new_Array.
  destruct (0 <=? n)%Z eqn:H0; destruct (n <? 2 ^ 32)%Z eqn:H1; simpl;
    (split; [intros H; try discriminate H; injection H as <- | intros [? ->]]);
    try (split; [lia | reflexivity]); try reflexivity; lia.
Qed.

Lemma new_Array_Throw n e :
  new_Array n = Throw e -> ((n < 0)%Z \/ (2 ^ 32 <= n)%Z) /\ e = RangeError.
Proof.
  unfold new_Array.
  destruct (0 <=? n)%Z eqn:H0; destruct (n <? 2 ^ 32)%Z eqn:H1; simpl;
    intros H; try discriminate H; injection H as <-; split; auto; lia.
Qed.

Lemma construct_Ok k n :
  (0 <= n < 2 ^ 32)%Z ->
  construct k n = Ok (replicate k (fresh (Z.to_nat n) LogNotDefined)).
Proof.
  intros Hn. induction k as [|k IH]; [reflexivity |].
  cbn [construct]. unfold Simulation_new.
  rewrite (proj2 (new_Array_Ok n _) (conj Hn eq_refl)). cbn [bind].
  rewrite IH. reflexivity.
Qed.

Lemma construct_Throw k n e :
  construct k n = Throw e -> 0 < k /\ ((n < 0)%Z \/ (2 ^ 32 <= n)%Z).
Proof.
  intros H. destruct (decide (0 <= n < 2 ^ 32)%Z) as [Hn | Hn].
  - rewrite construct_Ok in H by exact Hn. discriminate H.
  - destruct k; [discriminate H |]. split; lia.
Qed.

Lemma length_assign_onDone i h l : length (assign_onDone i h l) = length l.
Proof. unfold assign_onDone. destruct (l !! i); [apply length_insert | reflexivity]. Qed.

Lemma lookup_assign_onDone i h l j :
  assign_onDone i h l !! j
  = if decide (i = j) then set_onDone h <$> l !! j else l !! j.
Proof.
  unfold assign_onDone. destruct (l !! i) as [s|] eqn:Hi.
  - case_decide as Hij.
    + subst j. rewrite list_lookup_insert_eq by (eapply lookup_lt_Some; eassumption).
      rewrite Hi. reflexivity.
    + apply list_lookup_insert_ne. exact Hij.
  - case_decide as Hij; [subst j; rewrite Hi |]; reflexivity.
Qed.

(** The effect of the [reduce] of [initSynchronousSimulations]: every
    simulation but the last is told to start its successor. *)
Lemma lookup_chain m prev l j :
  chain prev (seq (S prev) m) l !! j
  = if decide (prev <= j < prev + m)
    then set_onDone (RecordThenStart (S j)) <$> l !! j
    else l !! j.
Proof.
  revert prev l. induction m as [|m IH]; intros prev l.
  - cbn [seq chain]. rewrite decide_False by lia. reflexivity.
  - cbn [seq chain]. rewrite IH, lookup_assign_onDone.
    destruct (decide (prev = j)) as [-> | Hne].
    + rewrite decide_False by lia. rewrite decide_True by lia. reflexivity.
    + destruct (decide (S prev <= j < S prev + m)).
      * rewrite decide_True by lia. reflexivity.
      * rewrite decide_False by lia. reflexivity.
Qed.

Lemma length_chain rest prev l : length (chain prev rest l) = length l.
Proof.
  revert prev l. induction rest as [|c rest IH]; intros prev l; [reflexivity |].
  cbn [chain]. rewrite IH. apply length_assign_onDone.
Qed.

Lemma initSynchronousSimulations_Ok o n k :
  numberOfSimulations o = Z.of_nat (S k) ->
  exists l, initSynchronousSimulations o (replicate (S k) (fresh n LogNotDefined)) = Ok l
            /\ length l = S k
            /\ forall j, j < S k -> l !! j = Some (fresh n (handler_for (S k) j)).
Proof.
  intros Hk. unfold initSynchronousSimulations.
  rewrite length_replicate. cbn [seq]. rewrite Hk.
  replace (Z.to_nat (Z.of_nat (S k) - 1)) with k by lia.
  set (l0 := replicate (S k) (fresh n LogNotDefined)).
  assert (Hl0 : forall j, j < S k -> l0 !! j = Some (fresh n LogNotDefined)).
  { intros j Hj. apply lookup_replicate_2. exact Hj. }
  assert (Hlast : chain 0 (seq 1 k) l0 !! k = Some (fresh n LogNotDefined)).
  { rewrite lookup_chain, decide_False by lia. apply Hl0. lia. }
  rewrite Hlast. eexists. split; [reflexivity |].
  assert (Hlen : length (chain 0 (seq 1 k) l0) = S k).
  { rewrite length_chain. apply length_replicate. }
  split; [rewrite length_insert; exact Hlen |].
  intros j Hj. unfold handler_for. destruct (decide (j = k)) as [-> | Hne].
  - rewrite list_lookup_insert_eq by lia. rewrite decide_False by lia. reflexivity.
  - rewrite list_lookup_insert_ne by congruence.
    rewrite lookup_chain, decide_True by lia. rewrite Hl0 by exact Hj.
    rewrite decide_True by lia. reflexivity.
Qed.

Lemma complete_fresh n h : 0 < n -> complete (fresh n h) = false.
Proof. intros Hn. destruct n; [lia | reflexivity]. Qed.

Lemma sound_fresh n h : sound n (fresh n h).
Proof.
  unfold sound, fresh. cbn [houses zombies]. repeat split.
  - apply Forall_replicate. eexists; reflexivity.
  - apply length_replicate.
  - rewrite infected_replicate_false. reflexivity.
Qed.

(** What the script leaves behind when it does not throw: the first
    run is started, the others wait. *)
Lemma main_Ok o evs0 w0 :
  main o = Ok (evs0, w0) ->
  exists l,
    (1 <= numberOfSimulations o < 2 ^ 32)%Z
    /\ (0 <= numberOfHouses o < 2 ^ 32)%Z
    /\ length l = Z.to_nat (numberOfSimulations o)
    /\ (forall j, j < length l ->
          l !! j = Some (fresh (Z.to_nat (numberOfHouses o))
                               (handler_for (Z.to_nat (numberOfSimulations o)) j)))
    /\ evs0 = [Started 0]
    /\ w0 = mkWorld (<[0 := set_timer (Some 0)
                              (fresh (Z.to_nat (numberOfHouses o))
                                     (handler_for (Z.to_nat (numberOfSimulations o)) 0))]> l)
                    [] {[ 0 := 0 ]} 1 0 Blank.
Proof.
  unfold main, Application_new. intros H.
  destruct (new_Array (numberOfSimulations o)) as [k|e] eqn:Hk; [| discriminate H].
  apply new_Array_Ok in Hk as [Hk ->]. cbn [bind] in H.
  destruct (construct _ _) as [l0|e] eqn:Hl0; [| discriminate H].
  destruct (Z.to_nat (numberOfSimulations o)) as [|k] eqn:Ek.
  { cbn in Hl0. injection Hl0 as <-. discriminate H. }
  destruct (decide (0 <= numberOfHouses o < 2 ^ 32)%Z) as [Hn | Hn].
  2:{ cbn [construct] in Hl0. unfold Simulation_new in Hl0.
      destruct (new_Array (numberOfHouses o)) eqn:Hn'.
      - apply new_Array_Ok in Hn'. tauto.
      - discriminate Hl0. }
  rewrite construct_Ok in Hl0 by exact Hn. injection Hl0 as <-. cbn [bind] in H.
  destruct (initSynchronousSimulations_Ok o (Z.to_nat (numberOfHouses o)) k)
    as (l & Hl & Hlen & Hlook); [lia |].
  cbn [replicate] in Hl. rewrite Hl in H. cbn [bind] in H.
  unfold Application_run, Simulation_start in H. cbn [simulations] in H.
  rewrite (Hlook 0) in H by lia. injection H as <- <-.
  exists l. rewrite insert_empty.
  repeat split; try lia; try assumption.
  intros j Hj. apply Hlook. lia.
Qed.

Lemma batch_main o evs0 w0 :
  main o = Ok (evs0, w0) -> (1 <= numberOfHouses o)%Z ->
  batch (Z.to_nat (numberOfSimulations o)) (Z.to_nat (numberOfHouses o)) evs0 w0.
Proof.
  intros Hmain Hn.
  destruct (main_Ok o evs0 w0 Hmain) as (l & Hk & _ & Hlen & Hlook & -> & ->).
  set (k := Z.to_nat (numberOfSimulations o)) in *.
  set (n := Z.to_nat (numberOfHouses o)) in *.
  assert (Hall : forall j s,
    <[0 := set_timer (Some 0) (fresh n (handler_for k 0))]> l !! j = Some s ->
    s = (if decide (j = 0) then set_timer (Some 0) else id) (fresh n (handler_for k j))).
  { intros j s Hj.
    assert (j < length l) by (apply lookup_lt_Some in Hj; rewrite length_insert in Hj; lia).
    case_decide as Hj0.
    - subst j. rewrite list_lookup_insert_eq in Hj by lia.
      injection Hj as <-. reflexivity.
    - rewrite list_lookup_insert_ne in Hj by congruence.
      rewrite Hlook in Hj by assumption. injection Hj as <-. reflexivity. }
  split; cbn [simulations results intervals length].
  - rewrite length_insert. exact Hlen.
  - lia.
  - intros j s Hj. apply Hall in Hj as ->. case_decide; reflexivity.
  - intros j s Hj. apply Hall in Hj as ->.
    case_decide; apply (sound_fresh n (handler_for k j)).
  - intros j s _ Hj. lia.
  - intros j s Hj Hlt. apply Hall in Hj as ->. rewrite decide_False by lia. reflexivity.
  - intros _. split; [reflexivity |].
    exists (set_timer (Some 0) (fresh n (handler_for k 0))), 0.
    repeat split.
    + apply list_lookup_insert_eq. lia.
    + apply (complete_fresh n (handler_for k 0)). lia.
  - intros Hk0. lia.
Qed.

(** ** Traces of completed runs *)

Lemma history_app from ds1 ds2 :
  history from (ds1 ++ ds2) = history from ds1 ++ history (from + length ds1) ds2.
Proof.
  revert from. induction ds1 as [|d ds1 IH]; intros from; cbn [history app length].
  - rewrite Nat.add_0_r. reflexivity.
  - rewrite IH. replace (S from + length ds1) with (from + S (length ds1)) by lia.
    reflexivity.
Qed.

Lemma length_history from ds : length (history from ds) = 3 * length ds.
Proof.
  revert from. induction ds as [|d ds IH]; intros from; cbn [history length]; [lia |].
  rewrite IH. lia.
Qed.

Lemma elem_of_history from ds e :
  e ∈ history from ds <->
  exists j d, ds !! j = Some d
              /\ (e = Started (from + j) \/ e = Done (from + j) d \/ e = Recorded d).
Proof.
  revert from. induction ds as [|d0 ds IH]; intros from; cbn [history].
  - split; [intros H; inversion H | intros (j & d & H & _); discriminate H].
  - rewrite !elem_of_cons, IH. split.
    + intros [-> | [-> | [-> | (j & d & Hj & He)]]].
      * exists 0, d0. rewrite Nat.add_0_r. auto.
      * exists 0, d0. rewrite Nat.add_0_r. auto.
      * exists 0, d0. auto.
      * exists (S j), d. replace (from + S j) with (S from + j) by lia. auto.
    + intros ([|j] & d & Hj & He).
      * injection Hj as ->. rewrite Nat.add_0_r in He. tauto.
      * right. right. right. exists j, d.
        replace (from + S j) with (S from + j) in He by lia. auto.
Qed.

Lemma count_done_app j tr1 tr2 :
  count_done j (tr1 ++ tr2) = count_done j tr1 + count_done j tr2.
Proof. unfold count_done. rewrite List.filter_app, length_app. reflexivity. Qed.

Lemma count_done_history j from ds :
  count_done j (history from ds)
  = if decide (from <= j < from + length ds) then 1 else 0.
Proof.
  revert from. induction ds as [|d ds IH]; intros from.
  - cbn. rewrite decide_False by lia. reflexivity.
  - cbn [history]. unfold count_done in *. cbn [List.filter is_done length].
    destruct (Nat.eqb_spec from j) as [-> | Hne]; cbn [length]; rewrite IH.
    + rewrite decide_False by lia. rewrite decide_True by lia. reflexivity.
    + destruct (decide (S from <= j < S from + length ds)).
      * rewrite decide_True by lia. reflexivity.
      * rewrite decide_False by lia. reflexivity.
Qed.

(** In the trace of a batch, the start of a run other than the first
    comes right after the [onDone] of the run before it and the
    recording of its days. *)
Lemma history_started from ds tail p i :
  (forall q j, tail !! q = Some (Started j) -> q = 0 /\ j = from + length ds) ->
  (history from ds ++ tail) !! p = Some (Started (S i)) ->
  (p = 0 /\ S i = from)
  \/ (from <= i /\ 2 <= p
      /\ exists d, ds !! (i - from) = Some d
                   /\ (history from ds ++ tail) !! (p - 2) = Some (Done i d)
                   /\ (history from ds ++ tail) !! (p - 1) = Some (Recorded d)).
Proof.
  revert from p. induction ds as [|d ds IH]; intros from p Htail Hp.
  - cbn [history app] in *. destruct (Htail _ _ Hp) as [-> Hi].
    cbn in Hi. left. split; [reflexivity | lia].
  - cbn [history app] in *.
    destruct p as [|[|[|p]]]; cbn in Hp; try discriminate Hp.
    + injection Hp as Hp. left. split; [reflexivity | lia].
    + change ((history (S from) ds ++ tail) !! p = Some (Started (S i))) in Hp.
      destruct (IH (S from) p) as [[-> Hi] | (Hfrom & Hp2 & d' & Hd & H1 & H2)].
      * intros q j Hq. destruct (Htail q j Hq) as [-> ->]. cbn [length]. split; lia.
      * exact Hp.
      * injection Hi as ->. right. split; [lia |]. split; [lia |].
        exists d. rewrite Nat.sub_diag. repeat split; reflexivity.
      * right. split; [lia |]. split; [lia |]. exists d'.
        replace (i - from) with (S (i - S from)) by lia.
        split; [exact Hd |].
        replace (S (S (S p)) - 2) with (S (S (S (p - 2)))) by lia.
        replace (S (S (S p)) - 1) with (S (S (S (p - 1)))) by lia.
        split; assumption.
Qed.

(** ** One timer callback in a batch *)

Section Batch.

Variable random : nat -> Q.
Hypothesis random_unit : unit_interval random.

Lemma sound_advance n s c :
  0 < n -> sound n s -> sound n (advance random s c).1.
Proof.
  intros Hn (Hs & Hlen & Hz).
  destruct (advance_shape random random_unit s c Hs) as [Hs' Hlen']; [lia |].
  pose proof (advance_balance random s c).
  repeat split; [assumption | lia | lia].
Qed.

(** The three things a callback can do: the run goes on, the run ends
    and starts the next one, or the last run ends and the summary is
    shown. *)
Lemma fire_batch k n tr w t evs w' :
  batch k n tr w -> fire random t w = Some (evs, w') ->
  exists s,
    length (results w) < k
    /\ simulations w !! length (results w) = Some s
    /\ complete s = false
    /\ timer s = Some t
    /\ intervals w = {[ t := length (results w) ]}
    /\ tr = history 0 (results w) ++ [Started (length (results w))]
    /\ ((complete (advance random s (calls w)).1 = false
         /\ evs = []
         /\ w' = mkWorld (<[length (results w) := (advance random s (calls w)).1]>
                            (simulations w))
                         (results w) (intervals w) (next_interval w)
                         (advance random s (calls w)).2
                         (Town (omap id (houses (advance random s (calls w)).1))))
        \/ (complete (advance random s (calls w)).1 = true
            /\ S (length (results w)) < k
            /\ evs = [Done (length (results w)) (S (day s));
                      Recorded (S (day s));
                      Started (S (length (results w)))]
            /\ w' = mkWorld
                      (<[S (length (results w)) :=
                           set_timer (Some (next_interval w))
                             (fresh n (handler_for k (S (length (results w)))))]>
                         (<[length (results w) := (advance random s (calls w)).1]>
                            (simulations w)))
                      (results w ++ [S (day s)])
                      {[ next_interval w := S (length (results w)) ]}
                      (S (next_interval w))
                      (advance random s (calls w)).2
                      (Town (omap id (houses (advance random s (calls w)).1))))
        \/ (complete (advance random s (calls w)).1 = true
            /\ S (length (results w)) = k
            /\ evs = [Done (length (results w)) (S (day s));
                      Recorded (S (day s));
                      Rendered k (summarize (results w ++ [S (day s)])).2]
            /\ w' = mkWorld
                      (<[length (results w) := (advance random s (calls w)).1]>
                         (simulations w))
                      (results w ++ [S (day s)])
                      ∅
                      (next_interval w)
                      (advance random s (calls w)).2
                      (Summary k (summarize (results w ++ [S (day s)])).2))).
Proof.
  intros B Hfire. unfold fire in Hfire.
  destruct (intervals w !! t) as [i|] eqn:Hid; [| discriminate Hfire].
  injection Hfire as Hfire.
  destruct (decide (length (results w) = k)) as [Hfin | Hrun].
  { destruct (batch_finished _ _ _ _ B Hfin) as [_ He]. rewrite He in Hid.
    rewrite lookup_empty in Hid. discriminate Hid. }
  pose proof (batch_bound _ _ _ _ B) as Hle.
  destruct (batch_current _ _ _ _ B) as (Htr & s & id0 & Hs & Hc & Ht & Hint); [lia |].
  rewrite Hint in Hid. apply lookup_singleton_Some in Hid as [-> <-].
  exists s. do 6 (split; [first [assumption | lia] |]).
  set (i := length (results w)) in *.
  assert (Hi : i < length (simulations w)) by (eapply lookup_lt_Some; eassumption).
  unfold Simulation_tick in Hfire. rewrite Hs in Hfire.
  destruct (advance random s (calls w)) as [s' c'] eqn:Hadv.
  assert (Hs' : s' = (advance random s (calls w)).1) by (rewrite Hadv; reflexivity).
  assert (Hday : day s' = S (day s)) by (rewrite Hs'; reflexivity).
  assert (Htimer : timer s' = Some t) by (rewrite Hs'; exact Ht).
  assert (Hh : onDone s' = handler_for k i).
  { rewrite Hs'. cbn [advance fst onDone]. eapply batch_handlers; eassumption. }
  cbn [fst snd].
  destruct (complete s') eqn:Hcs'.
  2:{ left. injection Hfire as <- <-. repeat split. }
  right.
  unfold Simulation_stop, call_onDone, Simulation_render, set_container, set_calls,
    set_simulations in Hfire.
  cbn [simulations results intervals next_interval calls container] in Hfire.
  rewrite list_lookup_insert_eq in Hfire by exact Hi.
  rewrite Htimer in Hfire.
  cbn [simulations results intervals next_interval calls container] in Hfire.
  rewrite list_lookup_insert_eq in Hfire by exact Hi.
  rewrite Hh, Hint, delete_singleton_eq, Hday in Hfire.
  unfold handler_for in Hfire. case_decide as Hnext.
  - left. unfold Simulation_start, Results_add in Hfire.
    cbn [simulations results intervals next_interval calls container] in Hfire.
    rewrite list_lookup_insert_ne in Hfire by lia.
    destruct (lookup_lt_is_Some_2 (simulations w) (S i)) as [sf Hsf].
    { rewrite (batch_length _ _ _ _ B). exact Hnext. }
    rewrite Hsf in Hfire.
    rewrite (batch_future _ _ _ _ B _ _ Hsf) in Hfire by (fold i; lia).
    rewrite insert_empty in Hfire.
    injection Hfire as <- <-. repeat split; assumption.
  - right. unfold Results_render, Results_add, set_container in Hfire.
    cbn [simulations results intervals next_interval calls container] in Hfire.
    assert (Hk : S i = k) by lia.
    assert (Hsum : (summarize (results w ++ [S (day s)])).1 = k).
    { unfold summarize. cbn [fst]. rewrite length_app. cbn [length]. lia. }
    destruct (summarize (results w ++ [S (day s)])) as [it avg].
    cbn [fst snd] in *. subst it.
    injection Hfire as <- <-. repeat split; assumption.
Qed.

Lemma history_snoc rs d :
  history 0 (rs ++ [d])
  = history 0 rs ++ [Started (length rs); Done (length rs) d; Recorded d].
Proof. rewrite history_app. reflexivity. Qed.

Lemma lookup_insert_cases (l : list Simulation) i j x y :
  <[i := x]> l !! j = Some y -> (j = i /\ y = x) \/ (j <> i /\ l !! j = Some y).
Proof.
  intros H. destruct (decide (j = i)) as [-> | Hne].
  - left. rewrite list_lookup_insert_eq in H.
    + injection H as <-. auto.
    + apply lookup_lt_Some in H. rewrite length_insert in H. exact H.
  - right. rewrite list_lookup_insert_ne in H by congruence. auto.
Qed.

(** The batch invariant is kept by every timer callback. *)
Lemma batch_fire k n tr w t evs w' :
  0 < n -> batch k n tr w -> fire random t w = Some (evs, w') ->
  batch k n (tr ++ evs) w'.
Proof.
  intros Hn B Hfire.
  destruct (fire_batch k n tr w t evs w' B Hfire)
    as (s & Hi & Hs & Hc & Ht & Hint & Htr & Hcases).
  set (i := length (results w)) in *.
  set (s' := (advance random s (calls w)).1) in *.
  assert (Hlt : i < length (simulations w)) by (eapply lookup_lt_Some; eassumption).
  assert (Hsound' : sound n s').
  { apply sound_advance; [exact Hn |]. eapply batch_sound; eassumption. }
  assert (Hh' : onDone s' = handler_for k i).
  { unfold s'. cbn [advance fst onDone]. eapply batch_handlers; eassumption. }
  assert (Hday' : day s' = S (day s)) by reflexivity.
  assert (Hpast : forall j s0, j < S i -> complete s' = true ->
            <[i := s']> (simulations w) !! j = Some s0 ->
            complete s0 = true /\ (results w ++ [S (day s)]) !! j = Some (day s0)).
  { intros j s0 Hj Hcs H0. apply lookup_insert_cases in H0 as [[-> ->] | [Hne H0]].
    - split; [assumption |]. rewrite Hday'. apply list_lookup_middle. reflexivity.
    - destruct (batch_past _ _ _ _ B j s0 H0) as [? ?]; [fold i; lia |].
      split; [assumption |]. apply lookup_app_l_Some. assumption. }
  destruct Hcases as [(Hcs & -> & ->) | [(Hcs & Hnext & -> & ->) | (Hcs & Hlast & -> & ->)]].
  - split; cbn [simulations results intervals]; fold i.
    + rewrite length_insert. eapply batch_length; eassumption.
    + lia.
    + intros j s0 H0. apply lookup_insert_cases in H0 as [[-> ->] | [Hne H0]];
        [assumption | eapply batch_handlers; eassumption].
    + intros j s0 H0. apply lookup_insert_cases in H0 as [[-> ->] | [Hne H0]];
        [assumption | eapply batch_sound; eassumption].
    + intros j s0 H0 Hj. apply lookup_insert_cases in H0 as [[-> ->] | [Hne H0]];
        [lia | eapply batch_past; eassumption].
    + intros j s0 H0 Hj. apply lookup_insert_cases in H0 as [[-> ->] | [Hne H0]];
        [lia | eapply batch_future; eassumption].
    + intros _. rewrite app_nil_r. split; [assumption |].
      exists s', t. repeat split; try assumption.
      apply list_lookup_insert_eq. exact Hlt.
    + intros Hk. lia.
  - assert (Hlen : length (results w ++ [S (day s)]) = S i)
      by (rewrite length_app; cbn [length]; fold i; lia).
    split; cbn [simulations results intervals]; rewrite ?Hlen.
    + rewrite !length_insert. eapply batch_length; eassumption.
    + lia.
    + intros j s0 H0. apply lookup_insert_cases in H0 as [[-> ->] | [Hne H0]];
        [reflexivity |].
      apply lookup_insert_cases in H0 as [[-> ->] | [Hne' H0]];
        [assumption | eapply batch_handlers; eassumption].
    + intros j s0 H0. apply lookup_insert_cases in H0 as [[-> ->] | [Hne H0]];
        [apply (sound_fresh n (handler_for k (S i))) |].
      apply lookup_insert_cases in H0 as [[-> ->] | [Hne' H0]];
        [assumption | eapply batch_sound; eassumption].
    + intros j s0 H0 Hj. apply lookup_insert_cases in H0 as [[-> ->] | [Hne H0]];
        [lia |]. apply Hpast; assumption.
    + intros j s0 H0 Hj. apply lookup_insert_cases in H0 as [[-> ->] | [Hne H0]];
        [lia |].
      apply lookup_insert_cases in H0 as [[-> ->] | [Hne' H0]];
        [lia | eapply batch_future; [eassumption .. | fold i; lia]].
    + intros _. split.
      * rewrite Htr, history_snoc. fold i. rewrite <- !app_assoc. reflexivity.
      * eexists _, (next_interval w). repeat split.
        -- apply list_lookup_insert_eq. rewrite length_insert.
           rewrite (batch_length _ _ _ _ B). exact Hnext.
        -- apply (complete_fresh n (handler_for k (S i))). exact Hn.
        -- reflexivity.
    + intros Hk. lia.
  - assert (Hlen : length (results w ++ [S (day s)]) = S i)
      by (rewrite length_app; cbn [length]; fold i; lia).
    split; cbn [simulations results intervals]; rewrite ?Hlen.
    + rewrite length_insert. eapply batch_length; eassumption.
    + lia.
    + intros j s0 H0. apply lookup_insert_cases in H0 as [[-> ->] | [Hne H0]];
        [assumption | eapply batch_handlers; eassumption].
    + intros j s0 H0. apply lookup_insert_cases in H0 as [[-> ->] | [Hne H0]];
        [assumption | eapply batch_sound; eassumption].
    + intros j s0 H0 Hj. apply Hpast; assumption.
    + intros j s0 H0 Hj. apply lookup_insert_cases in H0 as [[-> ->] | [Hne H0]];
        [lia | eapply batch_future; [eassumption .. | fold i; lia]].
    + intros Hk. lia.
    + intros _. split; [| reflexivity].
      rewrite Htr, history_snoc. fold i. rewrite <- !app_assoc. reflexivity.
Qed.

(** Hence it holds of every state the page can come to. *)
Lemma batch_exec k n w0 tr0 tr w :
  0 < n -> batch k n tr0 w0 -> exec random w0 tr w -> batch k n (tr0 ++ tr) w.
Proof.
  intros Hn B0. induction 1 as [| tr w1 t evs w2 _ IH Hfire].
  - rewrite app_nil_r. exact B0.
  - rewrite app_assoc. eapply batch_fire; eassumption.
Qed.

Lemma batch_reachable o tr w :
  (1 <= numberOfHouses o)%Z -> reachable random o tr w ->
  batch (Z.to_nat (numberOfSimulations o)) (Z.to_nat (numberOfHouses o)) tr w.
Proof.
  intros Hn (evs0 & w0 & tr' & Hmain & Hexec & ->).
  eapply batch_exec; [lia | | exact Hexec]. apply batch_main; assumption.
Qed.

End Batch.

(** ** What one call of [tick] does to the page *)

Section Tick.

Variable random : nat -> Q.

Lemma Simulation_start_events j w e :
  e ∈ (Simulation_start j w).1 -> e = Started j.
Proof.
  unfold Simulation_start. destruct (simulations w !! j); cbn [fst].
  - intros H. apply list_elem_of_singleton in H. exact H.
  - intros H. inversion H.
Qed.

Lemma Simulation_start_town j w i s :
  simulations w !! i = Some s ->
  exists s2, simulations (Simulation_start j w).2 !! i = Some s2 /\ same_town s s2.
Proof.
  intros Hi. unfold Simulation_start. destruct (simulations w !! j) as [sj|] eqn:Hj.
  - cbn [snd simulations]. destruct (decide (i = j)) as [-> | Hne].
    + rewrite list_lookup_insert_eq by (eapply lookup_lt_Some; eassumption).
      eexists. split; [reflexivity |]. rewrite Hi in Hj. injection Hj as <-.
      repeat split.
    + rewrite list_lookup_insert_ne by congruence. exists s. repeat split. exact Hi.
  - exists s. repeat split. exact Hi.
Qed.

(** [tick] calls [onDone] exactly when the town it leaves is complete,
    and leaves in the simulation what [advance] computes. *)
Lemma Simulation_tick_outcome i w s :
  simulations w !! i = Some s ->
  (exists s2, simulations (Simulation_tick random i w).2 !! i = Some s2
              /\ same_town (advance random s (calls w)).1 s2)
  /\ (complete (advance random s (calls w)).1 = false ->
      (Simulation_tick random i w).1 = [])
  /\ (complete (advance random s (calls w)).1 = true ->
      exists rest,
        (Simulation_tick random i w).1 = Done i (S (day s)) :: rest
        /\ forall j d, Done j d ∉ rest).
Proof.
  intros Hi. unfold Simulation_tick. rewrite Hi.
  assert (Hlt : i < length (simulations w)) by (eapply lookup_lt_Some; eassumption).
  destruct (advance random s (calls w)) as [s' c'] eqn:Hadv.
  assert (Hday : day s' = S (day s)).
  { change s' with (s', c').1. rewrite <- Hadv. reflexivity. }
  cbn [fst snd].
  destruct (complete s') eqn:Hc.
  2:{ cbn [fst snd simulations Simulation_render set_container set_calls set_simulations].
      split; [| split; [reflexivity | discriminate]].
      exists s'. split; [apply list_lookup_insert_eq; exact Hlt | repeat split]. }
  set (w2 := Simulation_stop i _).
  assert (Hw2 : simulations w2 !! i = Some s').
  { unfold w2, Simulation_stop, Simulation_render, set_container, set_calls,
      set_simulations. cbn [simulations].
    rewrite list_lookup_insert_eq by exact Hlt. destruct (timer s'); cbn [simulations];
      apply list_lookup_insert_eq; exact Hlt. }
  unfold call_onDone. rewrite Hw2, Hday.
  destruct (onDone s') as [|current|].
  - split; [exists s'; split; [exact Hw2 | repeat split] |].
    split; [discriminate |]. intros _. exists []. split; [reflexivity |].
    intros j d H. inversion H.
  - pose proof (Simulation_start_town current (Results_add (S (day s)) w2) i s' Hw2)
      as (s2 & Hs2 & Hsame).
    pose proof (Simulation_start_events current (Results_add (S (day s)) w2)) as Hev.
    destruct (Simulation_start current _) as [evs w3]. cbn [fst snd] in *.
    split; [exists s2; split; assumption |].
    split; [discriminate |]. intros _. eexists. split; [reflexivity |].
    intros j d H. apply elem_of_cons in H as [H | H]; [discriminate H |].
    apply Hev in H. discriminate H.
  - unfold Results_render.
    destruct (summarize _) as [it avg]. cbn [fst snd set_container simulations Results_add].
    split; [exists s'; split; [exact Hw2 | repeat split] |].
    split; [discriminate |]. intros _. eexists. split; [reflexivity |].
    intros j d H. apply elem_of_cons in H as [H | H]; [discriminate H |].
    apply list_elem_of_singleton in H. discriminate H.
Qed.

(** Whenever [tick] ends in [results.render()], at least one result has
    been recorded and the average is a number. *)
Lemma Simulation_tick_rendered i w n a :
  Rendered n a ∈ (Simulation_tick random i w).1 -> 1 <= n /\ exists q, a = Num q.
Proof.
  unfold Simulation_tick. destruct (simulations w !! i) as [s|]; [| intros H; inversion H].
  destruct (advance random s (calls w)) as [s' c'].
  destruct (complete s'); [| intros H; inversion H].
  set (w2 := Simulation_stop i _). unfold call_onDone.
  destruct (simulations w2 !! i) as [state|]; [| intros H; inversion H].
  destruct (onDone state) as [|current|].
  - intros H. apply list_elem_of_singleton in H. discriminate H.
  - pose proof (Simulation_start_events current (Results_add (day state) w2)) as Hev.
    destruct (Simulation_start current _) as [evs w3]. cbn [fst snd] in *.
    intros H. apply elem_of_cons in H as [H | H]; [discriminate H |].
    apply elem_of_cons in H as [H | H]; [discriminate H |].
    apply Hev in H. discriminate H.
  - unfold Results_render, summarize, Results_add. cbn [results fst].
    rewrite length_app. cbn [length]. replace (length (results w2) + 1)
      with (S (length (results w2))) by lia.
    intros H. apply elem_of_cons in H as [H | H]; [discriminate H |].
    apply elem_of_cons in H as [H | H]; [discriminate H |].
    apply list_elem_of_singleton in H. injection H as -> ->.
    split; [lia |]. eexists. reflexivity.
Qed.

End Tick.

(** * The claims of the specification *)

(** C1. One call of [tick] is one [advanceOneDay()]: on a town of
    [N >= 1] houses, [tick] draws one index below [N] per current zombie,
    and the run it leaves is the one the specification describes (day
    counter plus one, each drawn house marked infected if it was not and
    counted in the tally, tally added to the zombie count); [onDone] is
    called exactly when the specification says the run is complete,
    which is exactly when no house remains uninfected. *)
Theorem tick_is_advanceOneDay (random : nat -> Q) (i : nat) (w : world) (s : Simulation) :
  unit_interval random ->
  simulations w !! i = Some s ->
  solid (houses s) ->
  0 < length (houses s) ->
  let N := length (houses s) in
  let ds := draws random (calls w) (zombies s) N in
  let out := Simulation_tick random i w in
  length ds = zombies s
  /\ Forall (fun d => d < N) ds
  /\ exists s',
       simulations out.2 !! i = Some s'
       /\ state_of s' = (advanceOneDay (state_of s) ds).1
       /\ day s' = day s + 1
       /\ ((exists d, Done i d ∈ out.1) <-> (advanceOneDay (state_of s) ds).2 = true)
       /\ ((advanceOneDay (state_of s) ds).2 = true <->
           forall j, j < N -> js_get (houses s') j = Some true).
Proof.
  intros Hunit Hi Hs Hlen N ds out.
  destruct (draws_in_range random Hunit (calls w) (zombies s) N Hlen) as [Hds1 Hds2].
  split; [exact Hds1 |]. split; [exact Hds2 |].
  destruct (Simulation_tick_outcome random i w s Hi)
    as ((s2 & Hs2 & Hz & Hd & Hh) & Hno & Hyes).
  pose proof (advance_advanceOneDay random Hunit s (calls w) Hs Hlen) as Hspec.
  fold N in Hspec. fold ds in Hspec.
  destruct (advance_shape random Hunit s (calls w) Hs Hlen) as [Hs' Hlen'].
  set (a := (advance random s (calls w)).1) in *.
  assert (Hst : state_of s2 = state_of a).
  { unfold state_of. rewrite <- Hz, <- Hd, <- Hh. reflexivity. }
  exists s2. split; [exact Hs2 |].
  rewrite <- Hspec. cbn [fst snd].
  split; [exact Hst |].
  split; [rewrite <- Hd; unfold a; cbn [advance fst day]; lia |].
  split.
  - fold out in Hno, Hyes. destruct (complete a) eqn:Hc.
    + split; [reflexivity |]. intros _. destruct (Hyes eq_refl) as (rest & -> & _).
      eexists. apply elem_of_cons. left. reflexivity.
    + split; [| discriminate]. intros [d Hin]. rewrite (Hno eq_refl) in Hin.
      inversion Hin.
  - rewrite <- Hh. unfold N. rewrite <- Hlen'. apply complete_get. exact Hs'.
Qed.

(** In a batch, [onDone] has been called on exactly the runs that are
    recorded, with the day that is recorded. *)
Lemma batch_done k n tr w j d :
  batch k n tr w ->
  (Done j d ∈ tr <-> results w !! j = Some d).
Proof.
  intros B.
  assert (Hh : Done j d ∈ history 0 (results w) <-> results w !! j = Some d).
  { rewrite elem_of_history. split.
    - intros (j' & d' & Hj' & [H | [H | H]]); try discriminate H.
      cbn in H. injection H as -> ->. exact Hj'.
    - intros H. exists j, d. split; [exact H |]. right. left. reflexivity. }
  pose proof (batch_bound _ _ _ _ B) as Hle.
  destruct (decide (length (results w) = k)) as [Hfin | Hrun].
  - destruct (batch_finished _ _ _ _ B Hfin) as [-> _].
    rewrite elem_of_app, Hh. split; [| auto].
    intros [H | H]; [exact H |]. apply list_elem_of_singleton in H. discriminate H.
  - destruct (batch_current _ _ _ _ B) as [-> _]; [lia |].
    rewrite elem_of_app, Hh. split; [| auto].
    intros [H | H]; [exact H |]. apply list_elem_of_singleton in H. discriminate H.
Qed.

Lemma batch_started k n tr w j :
  batch k n tr w ->
  (Started j ∈ tr <-> j < k /\ j <= length (results w)).
Proof.
  intros B.
  assert (Hh : Started j ∈ history 0 (results w) <-> j < length (results w)).
  { rewrite elem_of_history. split.
    - intros (j' & d' & Hj' & [H | [H | H]]); try discriminate H.
      cbn in H. injection H as ->. eapply lookup_lt_Some. exact Hj'.
    - intros H. destruct (lookup_lt_is_Some_2 _ _ H) as [d Hd].
      exists j, d. split; [exact Hd |]. left. reflexivity. }
  pose proof (batch_bound _ _ _ _ B) as Hle.
  destruct (decide (length (results w) = k)) as [Hfin | Hrun].
  - destruct (batch_finished _ _ _ _ B Hfin) as [-> _].
    rewrite elem_of_app, Hh. split.
    + intros [H | H]; [lia |]. apply list_elem_of_singleton in H. discriminate H.
    + intros [? ?]. left. lia.
  - destruct (batch_current _ _ _ _ B) as [-> _]; [lia |].
    rewrite elem_of_app, Hh, list_elem_of_singleton. split.
    + intros [H | H]; [lia |]. injection H as ->. lia.
    + intros [? ?]. destruct (decide (j = length (results w))) as [-> | ?]; [auto |].
      left. lia.
Qed.

(** The three kinds of run in a batch, by what their town looks like. *)
Lemma batch_complete k n tr w j s :
  0 < n -> batch k n tr w -> simulations w !! j = Some s ->
  (complete s = true <-> j < length (results w)).
Proof.
  intros Hn B Hj. split.
  - intros Hc. destruct (Nat.lt_trichotomy j (length (results w))) as [? | [-> | Hgt]].
    + assumption.
    + assert (Hk : length (results w) < k).
      { rewrite <- (batch_length _ _ _ _ B). eapply lookup_lt_Some. exact Hj. }
      destruct (batch_current _ _ _ _ B Hk) as (_ & s0 & t & Hs0 & Hc0 & _).
      congruence.
    + rewrite (batch_future _ _ _ _ B _ _ Hj Hgt) in Hc.
      rewrite complete_fresh in Hc by exact Hn. discriminate Hc.
  - intros Hlt. eapply batch_past; eassumption.
Qed.

(** C2. After any call of [tick] on a town of [N >= 1] houses the zombie
    count has not decreased, the day counter is the previous one plus
    one and the number of infected houses has not decreased; and in a
    batch, at every point between two timer callbacks, a run has [N]
    infected houses exactly when its [onDone] has been called: from the
    step that signals completion on, never before. *)
Theorem tick_invariants (random : nat -> Q) :
  unit_interval random ->
  (forall s c,
     solid (houses s) -> 0 < length (houses s) ->
     zombies s <= zombies (advance random s c).1
     /\ day (advance random s c).1 = day s + 1
     /\ infected (houses s) <= infected (houses (advance random s c).1)
     /\ length (houses (advance random s c).1) = length (houses s)
     /\ (complete (advance random s c).1 = true <->
         infected (houses (advance random s c).1) = length (houses s)))
  /\ (forall o tr w j s,
        (1 <= numberOfHouses o)%Z ->
        reachable random o tr w ->
        simulations w !! j = Some s ->
        (infected (houses s) = Z.to_nat (numberOfHouses o) <-> exists d, Done j d ∈ tr)).
Proof.
  intros Hunit. split.
  - intros s c Hs Hlen.
    destruct (advance_shape random Hunit s c Hs Hlen) as [Hs' Hlen'].
    split; [apply advance_zombies |].
    split; [cbn [advance fst day]; lia |].
    split; [apply advance_infected |].
    split; [exact Hlen' |].
    rewrite <- Hlen'. apply complete_infected. exact Hs'.
  - intros o tr w j s Hn Hreach Hj.
    pose proof (batch_reachable random Hunit o tr w Hn Hreach) as B.
    destruct (batch_sound _ _ _ _ B j s Hj) as (Hs & Hlen & _).
    rewrite <- Hlen at 1. rewrite <- (complete_infected s Hs).
    assert (Hpos : 0 < Z.to_nat (numberOfHouses o)) by lia.
    rewrite (batch_complete _ _ _ _ j s Hpos B Hj).
    split.
    + intros Hlt. destruct (lookup_lt_is_Some_2 _ _ Hlt) as [d Hd].
      exists d. apply (batch_done _ _ _ _ j d B). exact Hd.
    + intros [d Hd]. apply (batch_done _ _ _ _ j d B) in Hd.
      eapply lookup_lt_Some. exact Hd.
Qed.

(** C9, as the code has it.  A call of [tick] on a run that is already
    complete leaves the houses and the zombie count as they were, but it
    still adds one to the day counter, and it calls [onDone] again with
    that new day. *)
Theorem tick_after_completion (random : nat -> Q) (i : nat) (w : world) (s : Simulation) :
  unit_interval random ->
  simulations w !! i = Some s ->
  solid (houses s) ->
  0 < length (houses s) ->
  complete s = true ->
  houses (advance random s (calls w)).1 = houses s
  /\ zombies (advance random s (calls w)).1 = zombies s
  /\ day (advance random s (calls w)).1 = day s + 1
  /\ exists rest, (Simulation_tick random i w).1 = Done i (day s + 1) :: rest.
Proof.
  intros Hunit Hi Hs Hlen Hc.
  destruct (advance_idle random Hunit s (calls w) Hs Hlen Hc) as [Hh Hz].
  split; [exact Hh |]. split; [exact Hz |].
  split; [cbn [advance fst day]; lia |].
  destruct (Simulation_tick_outcome random i w s Hi) as (_ & _ & Hyes).
  destruct Hyes as (rest & Hrest & _).
  { unfold complete in *. rewrite Hh. exact Hc. }
  exists rest. rewrite Hrest. f_equal. f_equal. lia.
Qed.

(** C9 fails as stated: the town of one house is complete after its
    first day, and one more [tick] moves its day counter from 1 to 2. *)
Lemma tick_after_completion_changes_day :
  complete town_done = true
  /\ ~ (houses (advance always_zero town_done 1).1 = houses town_done
        /\ zombies (advance always_zero town_done 1).1 = zombies town_done
        /\ day (advance always_zero town_done 1).1 = day town_done).
Proof.
  split; [reflexivity |]. intros (_ & _ & Hday). vm_compute in Hday. discriminate Hday.
Qed.

(** ** Several days in a row *)

Lemma ticks_S random m s c :
  ticks random (S m) s c
  = advance random (ticks random m s c).1 (ticks random m s c).2.
Proof.
  revert s c. induction m as [|m IH]; intros s c.
  - cbn [ticks fst snd]. destruct (advance random s c). reflexivity.
  - cbn [ticks] in *. destruct (advance random s c) as [s1 c1]. apply IH.
Qed.

Lemma sound_ticks random n m s c :
  unit_interval random -> 0 < n -> sound n s -> sound n (ticks random m s c).1.
Proof.
  intros Hunit Hn. induction m as [|m IH]; intros Hs; [exact Hs |].
  rewrite ticks_S. apply sound_advance; auto.
Qed.

Lemma Simulation_new_fresh n s :
  Simulation_new n = Ok s ->
  (0 <= n < 2 ^ 32)%Z /\ s = fresh (Z.to_nat n) LogNotDefined.
Proof.
  unfold Simulation_new. destruct (new_Array n) as [m|e] eqn:Hm; [| discriminate].
  apply new_Array_Ok in Hm as [Hn ->]. intros H. injection H as <-. auto.
Qed.

(** C10. A new simulation has one zombie and no infected house; [tick]
    keeps the zombie count equal to one plus the number of infected
    houses, and at most doubles it; so through all the days of a run over
    [N >= 1] houses the count is one plus the number of infected houses
    and at most [N + 1]. *)
Theorem zombies_are_one_plus_infected :
  (forall n s, Simulation_new n = Ok s -> zombies s = 1 + infected (houses s))
  /\ (forall random s c,
        zombies s = 1 + infected (houses s) ->
        zombies (advance random s c).1 = 1 + infected (houses (advance random s c).1)
        /\ zombies (advance random s c).1 <= 2 * zombies s)
  /\ (forall random n s0 c m,
        unit_interval random -> (1 <= n)%Z -> Simulation_new n = Ok s0 ->
        zombies (ticks random m s0 c).1 = 1 + infected (houses (ticks random m s0 c).1)
        /\ zombies (ticks random m s0 c).1 <= Z.to_nat n + 1
        /\ zombies (ticks random (S m) s0 c).1 <= 2 * zombies (ticks random m s0 c).1).
Proof.
  split; [| split].
  - intros n s H. apply Simulation_new_fresh in H as [_ ->].
    apply (sound_fresh (Z.to_nat n) LogNotDefined).
  - intros random s c Hz. pose proof (advance_balance random s c).
    pose proof (advance_zombies random s c). lia.
  - intros random n s0 c m Hunit Hn H. apply Simulation_new_fresh in H as [_ ->].
    assert (Hpos : 0 < Z.to_nat n) by lia.
    pose proof (sound_ticks random (Z.to_nat n) m (fresh (Z.to_nat n) LogNotDefined) c
                  Hunit Hpos (sound_fresh _ _)) as (Hs & Hlen & Hz).
    rewrite ticks_S.
    set (t := ticks random m (fresh (Z.to_nat n) LogNotDefined) c) in *.
    split; [exact Hz |]. split.
    + pose proof (infected_le_length (houses t.1)). lia.
    + apply advance_zombies.
Qed.

(** ** The summary *)

Lemma totalDays_sum rs : totalDays rs = sum_list rs.
Proof.
  unfold totalDays.
  assert (H : forall acc, foldl (fun prev curr => prev + curr) acc rs = acc + sum_list rs).
  { induction rs as [|r rs IH]; intros acc; simpl; [lia |].
    rewrite IH. lia. }
  apply (H 0).
Qed.

Lemma results_record_all rs w : results (record_all rs w) = results w ++ rs.
Proof.
  unfold record_all. revert w. induction rs as [|r rs IH]; intros w; cbn [foldl].
  - rewrite app_nil_r. reflexivity.
  - rewrite IH. cbn [Results_add results]. rewrite <- app_assoc. reflexivity.
Qed.

(** *** The division *)

Lemma two_neq_0 : ~ (2 == 0)%Q.
Proof. intros H. discriminate H. Qed.

Lemma two_pow_pos (e : Z) : (0 < 2 ^ e)%Q.
Proof. apply Qpower_0_lt. reflexivity. Qed.

Lemma two_pow_log2 (a : Z) :
  (0 < a)%Z ->
  (2 ^ Z.log2 a <= inject_Z a)%Q /\ (inject_Z a < 2 ^ (Z.log2 a + 1))%Q.
Proof.
  intros Ha. destruct (Z.log2_spec a Ha) as [H1 H2].
  pose proof (Z.log2_nonneg a) as Hnn.
  change 2%Q with (inject_Z 2).
  rewrite <- !Zpower_Qpower by lia.
  rewrite <- Zle_Qle, <- Zlt_Qlt. replace (Z.succ (Z.log2 a)) with (Z.log2 a + 1)%Z in H2 by lia.
  split; assumption.
Qed.

Lemma binade_spec (a b : Z) :
  (0 < a)%Z -> (0 < b)%Z ->
  (2 ^ binade a b * inject_Z b <= inject_Z a)%Q
  /\ (inject_Z a < 2 ^ (binade a b + 1) * inject_Z b)%Q.
Proof.
  intros Ha Hb.
  destruct (two_pow_log2 a Ha) as [Ha1 Ha2].
  destruct (two_pow_log2 b Hb) as [Hb1 Hb2].
  assert (Hb0 : (0 < inject_Z b)%Q) by (change 0%Q with (inject_Z 0); rewrite <- Zlt_Qlt; lia).
  set (k := (Z.log2 a - Z.log2 b)%Z).
  assert (Hlo : (2 ^ (k - 1) * inject_Z b < inject_Z a)%Q).
  { apply Qlt_le_trans with (2 ^ (k - 1) * 2 ^ (Z.log2 b + 1))%Q.
    - apply Qmult_lt_l; [apply two_pow_pos | assumption].
    - rewrite <- Qpower_plus by apply two_neq_0.
      replace (k - 1 + (Z.log2 b + 1))%Z with (Z.log2 a) by (unfold k; lia). assumption. }
  assert (Hhi : (inject_Z a < 2 ^ (k + 1) * inject_Z b)%Q).
  { apply Qlt_le_trans with (2 ^ (k + 1) * 2 ^ Z.log2 b)%Q.
    - rewrite <- Qpower_plus by apply two_neq_0.
      replace (k + 1 + Z.log2 b)%Z with (Z.log2 a + 1)%Z by (unfold k; lia). assumption.
    - apply Qmult_le_l; [apply two_pow_pos | assumption]. }
  unfold binade. fold k.
  destruct (Qle_bool (2 ^ k * inject_Z b) (inject_Z a)) eqn:E.
  - apply Qle_bool_iff in E. split; assumption.
  - assert (E' : ~ (2 ^ k * inject_Z b <= inject_Z a)%Q).
    { intros H. apply Qle_bool_iff in H. congruence. }
    apply Qnot_le_lt in E'.
    replace (k - 1 + 1)%Z with k by lia. split; [apply Qlt_le_weak |]; assumption.
Qed.

Lemma nearest_even_cases (y : Q) :
  let f := Qfloor y in
  (inject_Z f <= y)%Q /\ (y < inject_Z f + 1)%Q
  /\ ((nearest_even y = f /\ (y - inject_Z f <= 1 # 2)%Q
       /\ ((y - inject_Z f == 1 # 2)%Q -> Z.even f = true))
      \/ (nearest_even y = (f + 1)%Z /\ (1 # 2 <= y - inject_Z f)%Q
          /\ ((y - inject_Z f == 1 # 2)%Q -> Z.even (f + 1) = true))).
Proof.
  intros f. pose proof (Qfloor_le y) as H1. pose proof (Qlt_floor y) as H2.
  fold f in H1, H2. rewrite inject_Z_plus in H2. change (inject_Z 1) with 1%Q in H2.
  split; [assumption |]. split; [assumption |].
  unfold nearest_even. fold f.
  destruct (y - inject_Z f ?= 1 # 2)%Q eqn:E.
  - apply Qeq_alt in E. destruct (Z.even f) eqn:Ev.
    + left. split; [reflexivity |]. split; [lra | intros _; reflexivity].
    + right. split; [reflexivity |]. split; [lra |]. intros _.
      rewrite Z.even_add, Ev. reflexivity.
  - apply Qlt_alt in E. left. split; [reflexivity |]. split; [lra |]. intros H. lra.
  - apply Qgt_alt in E. right. split; [reflexivity |]. split; [lra |]. intros H. lra.
Qed.

Lemma nearest_even_lower (y : Q) (z : Z) :
  (inject_Z z <= y)%Q -> (z <= nearest_even y)%Z.
Proof.
  intros H. assert (Hz : (z <= Qfloor y)%Z).
  { rewrite <- (Qfloor_Z z). apply Qfloor_resp_le. assumption. }
  destruct (nearest_even_cases y) as (_ & _ & [(-> & _) | (-> & _)]); lia.
Qed.

Lemma nearest_even_upper (y : Q) (z : Z) :
  (y <= inject_Z z)%Q -> (nearest_even y <= z)%Z.
Proof.
  intros H. destruct (nearest_even_cases y) as (H1 & _ & [(-> & _) | (-> & H3 & _)]).
  - rewrite Zle_Qle. lra.
  - assert (Hlt : (inject_Z (Qfloor y) < inject_Z z)%Q) by lra.
    rewrite <- Zlt_Qlt in Hlt. lia.
Qed.

Lemma nearest_even_half (y : Q) :
  (Qabs (inject_Z (nearest_even y) - y) <= 1 # 2)%Q
  /\ ((Qabs (inject_Z (nearest_even y) - y) == 1 # 2)%Q -> Z.even (nearest_even y) = true).
Proof.
  destruct (nearest_even_cases y) as (H1 & H2 & [(-> & H3 & H4) | (-> & H3 & H4)]).
  - split.
    + apply Qabs_Qle_condition. lra.
    + intros H. apply H4. rewrite Qabs_neg in H by lra. lra.
  - rewrite inject_Z_plus. change (inject_Z 1) with 1%Q. split.
    + apply Qabs_Qle_condition. lra.
    + intros H. rewrite Qabs_pos in H by lra.
      assert (Hy : (y - inject_Z (Qfloor y) == 1 # 2)%Q) by lra.
      apply H4. exact Hy.
Qed.

Lemma binary64_quotient_eq (a b : Z) :
  (binary64_quotient a b
   == inject_Z (nearest_even (inject_Z a / inject_Z b / 2 ^ ulp a b)) * 2 ^ ulp a b)%Q.
Proof. unfold binary64_quotient. apply Qred_correct. Qed.

Lemma two_pow_inv (e : Z) : (2 ^ e * 2 ^ (- e) == 1)%Q.
Proof.
  rewrite <- Qpower_plus by apply two_neq_0.
  replace (e + - e)%Z with 0%Z by lia. reflexivity.
Qed.

Lemma scaled_eq (x : Q) (e : Z) : (x / 2 ^ e == x * 2 ^ (- e))%Q.
Proof. unfold Qdiv. rewrite Qpower_opp. reflexivity. Qed.

Lemma ratio_bounds (a b lo hi : Z) :
  (0 < b)%Z -> (lo * b <= a)%Z -> (a <= hi * b)%Z ->
  (inject_Z lo <= inject_Z a / inject_Z b)%Q /\ (inject_Z a / inject_Z b <= inject_Z hi)%Q.
Proof.
  intros Hb Hlo Hhi.
  assert (Hb0 : (0 < inject_Z b)%Q) by (change 0%Q with (inject_Z 0); rewrite <- Zlt_Qlt; lia).
  split.
  - apply Qle_shift_div_l; [assumption |]. rewrite <- inject_Z_mult, <- Zle_Qle. assumption.
  - apply Qle_shift_div_r; [assumption |]. rewrite <- inject_Z_mult, <- Zle_Qle. assumption.
Qed.

Lemma ulp_nonpos (a b : Z) :
  (0 < a < 2 ^ 53)%Z -> (0 < b)%Z -> (ulp a b <= 0)%Z.
Proof.
  intros [Ha Ha53] Hb. destruct (binade_spec a b Ha Hb) as [H1 _].
  assert (Hb1 : (1 <= inject_Z b)%Q) by (change 1%Q with (inject_Z 1); rewrite <- Zle_Qle; lia).
  assert (H53 : (inject_Z a < 2 ^ 53)%Q).
  { change 2%Q with (inject_Z 2). rewrite <- Zpower_Qpower by lia.
    rewrite <- Zlt_Qlt. assumption. }
  pose proof (two_pow_pos (binade a b)) as Hp.
  assert (Hlt : (2 ^ binade a b < 2 ^ 53)%Q).
  { apply Qle_lt_trans with (inject_Z a); [| assumption].
    apply Qle_trans with (2 ^ binade a b * inject_Z b)%Q; [| assumption].
    rewrite <- (Qmult_1_r (2 ^ binade a b)) at 1.
    apply Qmult_le_l; assumption. }
  apply Qpower_lt_compat_l_inv in Hlt; [| reflexivity]. unfold ulp. lia.
Qed.

Lemma binary64_quotient_0 (b : Z) : (0 < b)%Z -> (binary64_quotient 0 b == 0)%Q.
Proof.
  intros Hb. rewrite binary64_quotient_eq.
  set (y := (inject_Z 0 / inject_Z b / 2 ^ ulp 0 b)%Q).
  assert (Hy : (y == 0)%Q).
  { unfold y, Qdiv. change (inject_Z 0) with 0%Q. ring. }
  assert (Hm : nearest_even y = 0%Z).
  { apply Z.le_antisymm.
    - apply nearest_even_upper. rewrite Hy. apply Qle_refl.
    - apply nearest_even_lower. rewrite Hy. apply Qle_refl. }
  rewrite Hm. change (inject_Z 0) with 0%Q. ring.
Qed.

(** Integers that bound the quotient bound the double nearest to it. *)
Lemma binary64_quotient_between (a b lo hi : Z) :
  (0 <= a < 2 ^ 53)%Z -> (0 < b)%Z -> (lo * b <= a)%Z -> (a <= hi * b)%Z ->
  (inject_Z lo <= binary64_quotient a b)%Q /\ (binary64_quotient a b <= inject_Z hi)%Q.
Proof.
  intros [Ha Ha53] Hb Hlo Hhi.
  destruct (Z.eq_dec a 0%Z) as [-> | Hne].
  - rewrite binary64_quotient_0 by assumption.
    change 0%Q with (inject_Z 0). rewrite <- !Zle_Qle. nia.
  - assert (He : (ulp a b <= 0)%Z) by (apply ulp_nonpos; lia).
    destruct (ratio_bounds a b lo hi Hb Hlo Hhi) as [Hx1 Hx2].
    rewrite binary64_quotient_eq.
    set (x := (inject_Z a / inject_Z b)%Q) in *.
    set (e := ulp a b) in *.
    pose proof (two_pow_pos e) as HP. pose proof (two_pow_pos (- e)) as HPi.
    pose proof (two_pow_inv e) as Hinv.
    assert (Hs : forall z : Z, (inject_Z (z * 2 ^ (- e)) == inject_Z z * 2 ^ (- e))%Q).
    { intros z. rewrite inject_Z_mult. rewrite Zpower_Qpower by lia. reflexivity. }
    assert (Hback : forall z m : Z, (z * 2 ^ (- e) <= m)%Z -> (inject_Z z <= inject_Z m * 2 ^ e)%Q).
    { intros z m H. rewrite Zle_Qle, Hs in H.
      apply Qle_trans with (inject_Z z * 2 ^ (- e) * 2 ^ e)%Q.
      - rewrite <- Qmult_assoc, (Qmult_comm (2 ^ (- e))), Hinv, Qmult_1_r. apply Qle_refl.
      - apply Qmult_le_compat_r; [assumption | apply Qlt_le_weak; assumption]. }
    assert (Hforth : forall z m : Z, (m <= z * 2 ^ (- e))%Z -> (inject_Z m * 2 ^ e <= inject_Z z)%Q).
    { intros z m H. rewrite Zle_Qle, Hs in H.
      apply Qle_trans with (inject_Z z * 2 ^ (- e) * 2 ^ e)%Q.
      - apply Qmult_le_compat_r; [assumption | apply Qlt_le_weak; assumption].
      - rewrite <- Qmult_assoc, (Qmult_comm (2 ^ (- e))), Hinv, Qmult_1_r. apply Qle_refl. }
    split.
    + apply Hback. apply nearest_even_lower. rewrite Hs, scaled_eq.
      apply Qmult_le_compat_r; [assumption | apply Qlt_le_weak; assumption].
    + apply Hforth. apply nearest_even_upper. rewrite Hs, scaled_eq.
      apply Qmult_le_compat_r; [assumption | apply Qlt_le_weak; assumption].
Qed.

(** The quotient is a double of the binade of [a / b]: an integer
    significand of 53 bits times the unit in the last place; it is within
    half a unit of [a / b], and when [a / b] is half way between two
    doubles the significand is even. *)
Lemma binary64_quotient_nearest (a b : Z) :
  (0 < a)%Z -> (0 < b)%Z ->
  exists m : Z,
    (binary64_quotient a b == inject_Z m * 2 ^ ulp a b)%Q
    /\ (2 ^ 52 <= m <= 2 ^ 53)%Z
    /\ ((2 ^ (ulp a b + 52) <= inject_Z a / inject_Z b)%Q
        /\ (inject_Z a / inject_Z b < 2 ^ (ulp a b + 53))%Q)
    /\ (Qabs (binary64_quotient a b - inject_Z a / inject_Z b) <= (1 # 2) * 2 ^ ulp a b)%Q
    /\ ((Qabs (binary64_quotient a b - inject_Z a / inject_Z b) == (1 # 2) * 2 ^ ulp a b)%Q
        -> Z.even m = true).
Proof.
  intros Ha Hb.
  set (e := ulp a b). set (x := (inject_Z a / inject_Z b)%Q).
  set (y := (x / 2 ^ e)%Q). exists (nearest_even y).
  pose proof (binary64_quotient_eq a b) as Hq. fold x e y in Hq.
  pose proof (two_pow_pos e) as HP. pose proof (two_pow_pos (- e)) as HPi.
  pose proof (two_pow_inv e) as Hinv.
  assert (Hb0 : (0 < inject_Z b)%Q) by (change 0%Q with (inject_Z 0); rewrite <- Zlt_Qlt; lia).
  destruct (binade_spec a b Ha Hb) as [Hb1 Hb2].
  assert (Hx1 : (2 ^ binade a b <= x)%Q) by (apply Qle_shift_div_l; assumption).
  assert (Hx2 : (x < 2 ^ (binade a b + 1))%Q) by (apply Qlt_shift_div_r; assumption).
  assert (Hy1 : (inject_Z (2 ^ 52) <= y)%Q).
  { unfold y. rewrite scaled_eq.
    apply Qle_trans with (2 ^ binade a b * 2 ^ (- e))%Q.
    - rewrite <- Qpower_plus by apply two_neq_0.
      replace (binade a b + - e)%Z with 52%Z by (unfold e, ulp; lia).
      apply Qle_refl.
    - apply Qmult_le_compat_r; [assumption | apply Qlt_le_weak; assumption]. }
  assert (Hy2 : (y <= inject_Z (2 ^ 53))%Q).
  { unfold y. rewrite scaled_eq. apply Qlt_le_weak.
    apply Qlt_le_trans with (2 ^ (binade a b + 1) * 2 ^ (- e))%Q.
    - apply Qmult_lt_r; assumption.
    - rewrite <- Qpower_plus by apply two_neq_0.
      replace (binade a b + 1 + - e)%Z with 53%Z by (unfold e, ulp; lia).
      apply Qle_refl. }
  assert (Hd : (binary64_quotient a b - x == (inject_Z (nearest_even y) - y) * 2 ^ e)%Q).
  { assert (Hxy : (x == y * 2 ^ e)%Q).
    { unfold y. rewrite scaled_eq, <- Qmult_assoc, (Qmult_comm (2 ^ (- e))), Hinv. ring. }
    rewrite Hq. clearbody y x. rewrite Hxy. ring. }
  destruct (nearest_even_half y) as [Hh Ht].
  split; [exact Hq |]. split.
  { split; [apply nearest_even_lower | apply nearest_even_upper]; assumption. }
  split.
  { replace (e + 52)%Z with (binade a b) by (unfold e, ulp; lia).
    replace (e + 53)%Z with (binade a b + 1)%Z by (unfold e, ulp; lia).
    split; assumption. }
  rewrite Hd, Qabs_Qmult, (Qabs_pos (2 ^ e)) by (apply Qlt_le_weak; assumption).
  split.
  - apply Qmult_le_compat_r; [assumption | apply Qlt_le_weak; assumption].
  - intros H. apply Ht. apply Qmult_inj_r in H; [assumption |].
    intros Hz. rewrite Hz in HP. discriminate HP.
Qed.

Lemma ulp_range (a b : Z) :
  (0 < a < 2 ^ 53)%Z -> (0 < b < 2 ^ 53)%Z -> (-1074 <= ulp a b <= 971)%Z.
Proof.
  intros Ha Hb. pose proof (ulp_nonpos a b Ha ltac:(lia)) as Hhi.
  split; [| lia].
  destruct (binade_spec a b) as [_ H2]; [lia | lia |].
  assert (Ha1 : (1 <= inject_Z a)%Q) by (change 1%Q with (inject_Z 1); rewrite <- Zle_Qle; lia).
  assert (Hb53 : (inject_Z b < 2 ^ 53)%Q).
  { change 2%Q with (inject_Z 2). rewrite <- Zpower_Qpower by lia.
    rewrite <- Zlt_Qlt. lia. }
  pose proof (two_pow_pos (binade a b + 1)) as Hp.
  assert (Hlt : (2 ^ 0 < 2 ^ (binade a b + 1 + 53))%Q).
  { rewrite (Qpower_plus 2 (binade a b + 1) 53) by apply two_neq_0.
    apply Qle_lt_trans with (inject_Z a); [exact Ha1 |].
    apply Qlt_trans with (2 ^ (binade a b + 1) * inject_Z b)%Q; [exact H2 |].
    apply Qmult_lt_l; assumption. }
  apply (Qpower_lt_compat_l_inv 2 0 (binade a b + 1 + 53)) in Hlt; [| reflexivity].
  unfold ulp. lia.
Qed.

Lemma Qmake_of_nat (a b : nat) :
  0 < b -> (Z.of_nat a # Pos.of_nat b == inject_Z (Z.of_nat a) / inject_Z (Z.of_nat b))%Q.
Proof.
  intros Hb. rewrite Qmake_Qdiv.
  replace (Z.pos (Pos.of_nat b)) with (Z.of_nat b) by lia. reflexivity.
Qed.

(** Integers that bound [a / b] bound what the division returns. *)
Lemma js_div_between (a b lo hi : nat) :
  0 < b -> lo * b <= a -> a <= hi * b ->
  exists q, js_div a b = Num q
            /\ (inject_Z (Z.of_nat lo) <= q)%Q /\ (q <= inject_Z (Z.of_nat hi))%Q.
Proof.
  intros Hb Hlo Hhi. destruct b as [|b']; [lia |]. cbn [js_div].
  eexists. split; [reflexivity |]. unfold quotient.
  destruct (safe_integer (Z.of_nat a) && safe_integer (Z.of_nat (S b'))) eqn:E.
  - apply andb_prop in E as [Ea _]. unfold safe_integer in Ea. apply Z.ltb_lt in Ea.
    apply binary64_quotient_between; lia.
  - rewrite Qmake_of_nat by lia.
    apply ratio_bounds; lia.
Qed.

(** A quotient that is an integer comes out as that integer. *)
Lemma js_div_exact (a b z : nat) :
  0 < b -> a = z * b ->
  exists q, js_div a b = Num q /\ (q == inject_Z (Z.of_nat z))%Q.
Proof.
  intros Hb ->. destruct (js_div_between (z * b) b z z Hb) as (q & Hq & H1 & H2); [lia | lia |].
  exists q. split; [exact Hq |]. apply Qle_antisym; assumption.
Qed.

Lemma js_div_safe (a b : nat) :
  0 < b -> (Z.of_nat a < 2 ^ 53)%Z -> (Z.of_nat b < 2 ^ 53)%Z ->
  js_div a b = Num (binary64_quotient (Z.of_nat a) (Z.of_nat b)).
Proof.
  intros Hb Ha Hb53. destruct b as [|b']; [lia |]. cbn [js_div]. unfold quotient.
  apply Z.ltb_lt in Ha, Hb53. unfold safe_integer. rewrite Ha, Hb53. reflexivity.
Qed.

Lemma js_div_nearest (a b : nat) :
  0 < a -> 0 < b -> (Z.of_nat a < 2 ^ 53)%Z -> (Z.of_nat b < 2 ^ 53)%Z ->
  exists q, js_div a b = Num q
            /\ nearest_double (inject_Z (Z.of_nat a) / inject_Z (Z.of_nat b)) q.
Proof.
  intros Ha Hb Ha53 Hb53. rewrite js_div_safe by assumption.
  eexists. split; [reflexivity |].
  destruct (binary64_quotient_nearest (Z.of_nat a) (Z.of_nat b))
    as (m & Hq & Hm & [Hx1 Hx2] & Hh & Ht); [lia | lia |].
  exists m, (ulp (Z.of_nat a) (Z.of_nat b)).
  split; [exact Hq |]. split; [exact Hm |].
  split; [apply ulp_range; lia |]. split; [exact Hx1 |]. split; [exact Hx2 |].
  split; [exact Hh | exact Ht].
Qed.

(** ** The count and the average *)

(** C5 fails as stated: after 1, 1 and 2 have been recorded the average
    is the double nearest to 4/3, which is 6004799503160661 / 2^52 and
    not the sum divided by the count. *)
Lemma mean_of_1_1_2_is_rounded :
  exists q,
    summarize (results (record_all thirds blank_page)) = (length thirds, Num q)
    /\ (q == 6004799503160661 # 4503599627370496)%Q
    /\ ~ (q == inject_Z (Z.of_nat (sum_list thirds))
               / inject_Z (Z.of_nat (length thirds)))%Q.
Proof.
  eexists. split; [vm_compute; reflexivity |]. split; [reflexivity |].
  intros H. vm_compute in H. discriminate H.
Qed.

(** C5, amended. After the days of one or more runs have been recorded,
    the summary counts the recorded values and gives the double nearest
    to their sum divided by that count (ties to even), which is the sum
    divided by the count whenever that is an integer; after 10, 20 and
    30 it gives 3 and 20. *)
Theorem summary_is_count_and_nearest_mean :
  (forall w rs,
     results w = [] -> rs <> [] ->
     (Z.of_nat (sum_list rs) < 2 ^ 53)%Z -> (Z.of_nat (length rs) < 2 ^ 53)%Z ->
     exists q,
       summarize (results (record_all rs w)) = (length rs, Num q)
       /\ (Results_render (record_all rs w)).1 = [Rendered (length rs) (Num q)]
       /\ container (Results_render (record_all rs w)).2 = Summary (length rs) (Num q)
       /\ (0 < sum_list rs ->
           nearest_double (inject_Z (Z.of_nat (sum_list rs))
                           / inject_Z (Z.of_nat (length rs))) q)
       /\ (forall z, sum_list rs = z * length rs -> (q == inject_Z (Z.of_nat z))%Q))
  /\ (exists q, summarize [10; 20; 30] = (3, Num q) /\ (q == 20)%Q).
Proof.
  split.
  - intros w rs Hw Hrs Hsum Hlen.
    assert (Hpos : 0 < length rs) by (destruct rs; [congruence | cbn; lia]).
    assert (Hdiv : js_div (sum_list rs) (length rs)
                   = Num (binary64_quotient (Z.of_nat (sum_list rs)) (Z.of_nat (length rs))))
      by (apply js_div_safe; assumption).
    exists (binary64_quotient (Z.of_nat (sum_list rs)) (Z.of_nat (length rs))).
    unfold Results_render. rewrite results_record_all, Hw. cbn [app].
    unfold summarize. rewrite totalDays_sum, Hdiv.
    cbn [fst snd set_container container].
    split; [reflexivity |]. split; [reflexivity |]. split; [reflexivity |]. split.
    + intros Hs. destruct (js_div_nearest (sum_list rs) (length rs)) as (q & Hq & Hn);
        try assumption.
      rewrite Hdiv in Hq. injection Hq as <-. exact Hn.
    + intros z Hz. destruct (js_div_exact (sum_list rs) (length rs) z Hpos Hz) as (q & Hq & He).
      rewrite Hdiv in Hq. injection Hq as <-. exact He.
  - eexists. split; [vm_compute; reflexivity | reflexivity].
Qed.

(** ** Runs under a given random source *)

Section Runs.

Variable random : nat -> Q.

Lemma ticks_unfold m s c :
  ticks random (S m) s c
  = ticks random m (advance random s c).1 (advance random s c).2.
Proof. cbn [ticks]. destruct (advance random s c). reflexivity. Qed.

(** [run] returns as soon as some day ends with a complete town. *)
Lemma run_of_complete m s c :
  complete (ticks random (S m) s c).1 = true ->
  exists s', run random (S m) s c = Some s' /\ complete s' = true.
Proof.
  revert s c. induction m as [|m IH]; intros s c Hc; rewrite ticks_unfold in Hc;
    cbn [run]; destruct (advance random s c) as [s1 c1]; cbn [fst snd] in Hc.
  - cbn [ticks fst] in Hc. rewrite Hc. eauto.
  - destruct (complete s1) eqn:H1; [eauto |]. apply IH. exact Hc.
Qed.

Lemma run_None_of_incomplete s c :
  (forall m, complete (ticks random (S m) s c).1 = false) ->
  forall fuel, run random fuel s c = None.
Proof.
  intros H fuel. revert s c H. induction fuel as [|fuel IH]; intros s c H; [reflexivity |].
  cbn [run]. pose proof (H 0) as H0. rewrite ticks_unfold in H0.
  assert (Hrest : forall m,
    complete (ticks random (S m) (advance random s c).1 (advance random s c).2).1 = false).
  { intros m. rewrite <- ticks_unfold. apply H. }
  destruct (advance random s c) as [s1 c1]. cbn [ticks fst snd] in *.
  rewrite H0. apply IH. exact Hrest.
Qed.

Lemma run_Some fuel s c s' :
  run random fuel s c = Some s' ->
  exists m, s' = (ticks random (S m) s c).1 /\ complete s' = true
            /\ forall m', m' < m -> complete (ticks random (S m') s c).1 = false.
Proof.
  revert s c. induction fuel as [|fuel IH]; intros s c H; [discriminate H |].
  cbn [run] in H. destruct (advance random s c) as [s1 c1] eqn:Ha.
  destruct (complete s1) eqn:H1.
  - injection H as <-. exists 0. rewrite ticks_unfold, Ha.
    split; [reflexivity |]. split; [exact H1 |]. intros m' Hm'. lia.
  - destruct (IH _ _ H) as (m & -> & Hc & Hmin). exists (S m).
    rewrite (ticks_unfold (S m)), Ha. split; [reflexivity |]. split; [exact Hc |].
    intros [|m'] Hm'; rewrite ticks_unfold, Ha; cbn [fst snd].
    + exact H1.
    + apply Hmin. lia.
Qed.

Lemma day_ticks m s c : day (ticks random m s c).1 = day s + m.
Proof.
  induction m as [|m IH]; [cbn; lia |].
  rewrite ticks_S. cbn [advance fst day]. rewrite IH. lia.
Qed.

(** *** A source that always draws the first house *)

Lemma each_zombie_stuck n v :
  (forall k, randomHouseNumber (random k) (length (v_houses v)) = 0) ->
  js_get (v_houses v) 0 = Some true ->
  v_houses (each_zombie random n v) = v_houses v
  /\ v_newly (each_zombie random n v) = v_newly v.
Proof.
  revert v. induction n as [|n IH]; intros v Hzero H0; [auto |].
  cbn [each_zombie].
  assert (He : enter random v = mkVisit (v_houses v) (v_newly v) (S (v_calls v))).
  { unfold enter. rewrite Hzero, H0. reflexivity. }
  rewrite He. apply (IH (mkVisit _ _ _)); assumption.
Qed.

Lemma advance_stuck s c :
  (forall k, randomHouseNumber (random k) (length (houses s)) = 0) ->
  js_get (houses s) 0 = Some true ->
  houses (advance random s c).1 = houses s
  /\ zombies (advance random s c).1 = zombies s.
Proof.
  intros Hzero H0.
  destruct (each_zombie_stuck (zombies s) (mkVisit (houses s) 0 c) Hzero H0) as [Hh Hn].
  unfold advance. cbn [fst houses zombies v_houses v_newly] in *.
  rewrite Hh, Hn. split; [reflexivity | lia].
Qed.

Lemma first_day_stuck n h c :
  (forall k, randomHouseNumber (random k) (S n) = 0) ->
  (advance random (fresh (S n) h) c).1
  = mkSimulation 2 1 (Some true :: replicate n (Some false)) None h.
Proof.
  intros Hzero. unfold advance, fresh. cbn [zombies houses day timer onDone fst].
  cbn [each_zombie]. unfold enter. cbn [v_houses v_newly v_calls].
  rewrite length_replicate, Hzero. reflexivity.
Qed.

(** From the evening of the first day on, the town is the same every
    evening: the first house infected, the others not, two zombies. *)
Lemma ticks_stuck n h c m :
  (forall k, randomHouseNumber (random k) (S n) = 0) ->
  zombies (ticks random (S m) (fresh (S n) h) c).1 = 2
  /\ houses (ticks random (S m) (fresh (S n) h) c).1
     = Some true :: replicate n (Some false)
  /\ day (ticks random (S m) (fresh (S n) h) c).1 = S m.
Proof.
  intros Hzero. induction m as [|m (Hz & Hh & Hd)].
  - rewrite ticks_unfold. cbn [ticks fst]. rewrite first_day_stuck by exact Hzero.
    repeat split.
  - rewrite (ticks_S random (S m)).
    set (t := ticks random (S m) (fresh (S n) h) c) in *.
    destruct (advance_stuck t.1 t.2) as [Hh' Hz'].
    + rewrite Hh. cbn [length]. rewrite length_replicate. exact Hzero.
    + rewrite Hh. reflexivity.
    + rewrite Hh', Hz'. cbn [advance fst day]. rewrite Hd. auto.
Qed.

Hypothesis random_unit : unit_interval random.

(** *** Which houses are infected after some days *)

Lemma advance_keeps s c j :
  solid (houses s) -> 0 < length (houses s) ->
  js_get (houses s) j = Some true ->
  js_get (houses (advance random s c).1) j = Some true.
Proof.
  intros Hs Hlen Hj. unfold advance. cbn [fst houses].
  apply (each_zombie_keeps random random_unit _ (mkVisit (houses s) 0 c)); assumption.
Qed.

Lemma advance_hits s c k :
  solid (houses s) -> 0 < length (houses s) ->
  c <= k < (advance random s c).2 ->
  js_get (houses (advance random s c).1)
         (randomHouseNumber (random k) (length (houses s))) = Some true.
Proof.
  intros Hs Hlen Hk. rewrite advance_calls in Hk. unfold advance. cbn [fst houses].
  apply (each_zombie_hits random random_unit _ (mkVisit (houses s) 0 c)); assumption.
Qed.

Lemma advance_origin s c j :
  solid (houses s) -> 0 < length (houses s) ->
  js_get (houses (advance random s c).1) j = Some true ->
  js_get (houses s) j = Some true
  \/ exists k, c <= k < (advance random s c).2
               /\ randomHouseNumber (random k) (length (houses s)) = j.
Proof.
  intros Hs Hlen Hj. rewrite advance_calls.
  apply (each_zombie_origin random random_unit (zombies s) (mkVisit (houses s) 0 c));
    assumption.
Qed.

Lemma ticks_calls n m s c :
  0 < n -> sound n s -> c + m <= (ticks random m s c).2.
Proof.
  intros Hn. revert s c. induction m as [|m IH]; intros s c Hs; [cbn; lia |].
  rewrite ticks_unfold.
  pose proof (IH _ (advance random s c).2 (sound_advance random random_unit n s c Hn Hs)).
  rewrite advance_calls in *. destruct Hs as (_ & _ & Hz). lia.
Qed.

Lemma ticks_hits n m s c k :
  0 < n -> sound n s ->
  c <= k < (ticks random m s c).2 ->
  js_get (houses (ticks random m s c).1) (randomHouseNumber (random k) n) = Some true.
Proof.
  intros Hn. induction m as [|m IH]; intros Hs Hk; [cbn in Hk; lia |].
  rewrite ticks_S in *.
  pose proof (sound_ticks random n m s c random_unit Hn Hs) as (Hs' & Hlen' & Hz').
  set (t := ticks random m s c) in *.
  destruct (decide (k < t.2)) as [Hlt | Hge].
  - apply advance_keeps; [assumption | lia |]. apply IH; [assumption | lia].
  - rewrite <- Hlen'. apply advance_hits; [assumption | lia | lia].
Qed.

Lemma ticks_origin n m s c j :
  0 < n -> sound n s ->
  js_get (houses (ticks random m s c).1) j = Some true ->
  js_get (houses s) j = Some true
  \/ exists k, c <= k /\ randomHouseNumber (random k) n = j.
Proof.
  intros Hn. induction m as [|m IH]; intros Hs Hj; [auto |].
  rewrite ticks_S in Hj.
  pose proof (sound_ticks random n m s c random_unit Hn Hs) as (Hs' & Hlen' & Hz').
  pose proof (ticks_calls n m s c Hn Hs) as Hc.
  set (t := ticks random m s c) in *.
  destruct (advance_origin t.1 t.2 j Hs') as [H | (k & Hk & Hidx)]; [lia | exact Hj | |].
  - apply IH; assumption.
  - right. exists k. rewrite Hlen' in Hidx. split; [lia | exact Hidx].
Qed.

(** Finitely many houses are drawn within finitely many draws. *)
Lemma draws_bounded n c :
  (forall j, j < n -> exists k, c <= k /\ randomHouseNumber (random k) n = j) ->
  exists K, forall j, j < n ->
    exists k, c <= k < K /\ randomHouseNumber (random k) n = j.
Proof.
  intros H.
  assert (Hb : forall b, b <= n -> exists K, forall j, j < b ->
            exists k, c <= k < K /\ randomHouseNumber (random k) n = j).
  { induction b as [|b IH]; intros Hb.
    - exists 0. intros j Hj. lia.
    - destruct IH as [K HK]; [lia |]. destruct (H b) as (kb & Hkb & Hidx); [lia |].
      exists (Nat.max K (S kb)). intros j Hj.
      destruct (decide (j = b)) as [-> | Hne].
      + exists kb. split; [lia | exact Hidx].
      + destruct (HK j) as (k & Hk & Hi); [lia |]. exists k. split; [lia | exact Hi]. }
  apply (Hb n). lia.
Qed.

End Runs.

(** ** The first run of a batch *)

Section FirstRun.

Variable random : nat -> Q.
Hypothesis random_unit : unit_interval random.

Lemma advance_same_town a b c :
  same_town a b ->
  same_town (advance random a c).1 (advance random b c).1
  /\ (advance random a c).2 = (advance random b c).2.
Proof.
  destruct a, b. unfold same_town. cbn [zombies day houses].
  intros (-> & -> & ->). repeat split.
Qed.

Lemma complete_same_town a b : same_town a b -> complete a = complete b.
Proof. intros (_ & _ & H). unfold complete. rewrite H. reflexivity. Qed.

Lemma first_run_at_start o evs0 w0 :
  main o = Ok (evs0, w0) ->
  first_run_at random (Z.to_nat (numberOfHouses o)) 0 w0.
Proof.
  intros Hmain. destruct (main_Ok o evs0 w0 Hmain) as (l & Hk & _ & Hlen & _ & _ & ->).
  eexists. cbn [simulations calls ticks fst snd]. split.
  - apply list_lookup_insert_eq. lia.
  - repeat split.
Qed.

(** As long as nothing is recorded, the page is the first run on some
    evening, and no earlier evening saw the town complete; once
    something is recorded, the first run has seen its town complete. *)
Lemma first_run_exec o evs0 w0 tr w :
  (1 <= numberOfHouses o)%Z ->
  main o = Ok (evs0, w0) ->
  exec random w0 tr w ->
  (results w = [] /\ tr = []
   /\ exists m, first_run_at random (Z.to_nat (numberOfHouses o)) m w)
  \/ (results w <> []
      /\ exists m,
           complete (ticks random (S m) (fresh (Z.to_nat (numberOfHouses o))
                                               LogNotDefined) 0).1 = true).
Proof.
  intros Hn Hmain. set (n := Z.to_nat (numberOfHouses o)).
  assert (Hpos : 0 < n) by (unfold n; lia).
  induction 1 as [| tr w1 t evs w2 Hexec IH Hfire].
  - left. split; [| split; [reflexivity |]].
    + destruct (main_Ok o evs0 w0 Hmain) as (l & _ & _ & _ & _ & _ & ->). reflexivity.
    + exists 0. eapply first_run_at_start. exact Hmain.
  - pose proof (batch_exec random random_unit _ n w0 evs0 tr w1 Hpos
                  (batch_main o evs0 w0 Hmain Hn) Hexec) as B.
    destruct (fire_batch random _ _ _ _ _ _ _ B Hfire)
      as (s & _ & Hs & _ & _ & _ & _ & Hcases).
    destruct IH as [(Hres & -> & m & s1 & Hs1 & Hsame & Hcalls) | (Hres & m & Hm)].
    + rewrite Hres in Hs. cbn [length] in Hs. rewrite Hs1 in Hs. injection Hs as ->.
      destruct (advance_same_town _ _ (calls w1) Hsame) as [Hsame' Hcalls'].
      assert (Ht : ticks random (S m) (fresh n LogNotDefined) 0
                   = advance random (ticks random m (fresh n LogNotDefined) 0).1 (calls w1))
        by (rewrite ticks_S, Hcalls; reflexivity).
      rewrite <- Ht in Hsame', Hcalls'.
      rewrite Hres in Hcases. cbn [length app] in Hcases.
      destruct Hcases as [(Hc & -> & ->) | [(Hc & _ & _ & ->) | (Hc & _ & _ & ->)]].
      * left. split; [reflexivity |]. split; [reflexivity |]. exists (S m).
        eexists. cbn [simulations calls]. split; [| split; [exact Hsame' |]].
        -- apply list_lookup_insert_eq. eapply lookup_lt_Some. exact Hs1.
        -- symmetry. exact Hcalls'.
      * right. split; [discriminate |]. exists m.
        rewrite (complete_same_town _ _ Hsame'). exact Hc.
      * right. split; [discriminate |]. exists m.
        rewrite (complete_same_town _ _ Hsame'). exact Hc.
    + right. split; [| exists m; exact Hm].
      destruct Hcases as [(_ & _ & ->) | [(_ & _ & _ & ->) | (_ & _ & _ & ->)]];
        cbn [results]; [exact Hres | |]; intros H; apply app_eq_nil in H as [_ H];
        discriminate H.
Qed.

(** Conversely the timer does bring the first run to every evening
    before which its town was never complete. *)
Lemma first_run_reaches o evs0 w0 m :
  (1 <= numberOfHouses o)%Z ->
  main o = Ok (evs0, w0) ->
  (forall m', m' <= m ->
     complete (ticks random m' (fresh (Z.to_nat (numberOfHouses o)) LogNotDefined) 0).1
     = false) ->
  exists w, exec random w0 [] w /\ results w = []
            /\ first_run_at random (Z.to_nat (numberOfHouses o)) m w.
Proof.
  intros Hn Hmain. set (n := Z.to_nat (numberOfHouses o)).
  assert (Hpos : 0 < n) by (unfold n; lia).
  induction m as [|m IH]; intros Hinc.
  - exists w0. split; [apply exec_refl |]. split.
    + destruct (main_Ok o evs0 w0 Hmain) as (l & _ & _ & _ & _ & _ & ->). reflexivity.
    + eapply first_run_at_start. exact Hmain.
  - destruct IH as (w & Hexec & Hres & s1 & Hs1 & Hsame & Hcalls).
    { intros m' Hm'. apply Hinc. lia. }
    pose proof (batch_exec random random_unit _ n w0 evs0 [] w Hpos
                  (batch_main o evs0 w0 Hmain Hn) Hexec) as B.
    destruct (batch_current _ _ _ _ B) as (_ & s & t & Hs & _ & _ & Hint).
    { rewrite Hres. cbn [length]. destruct (main_Ok o evs0 w0 Hmain) as (_ & Hk & _). lia. }
    rewrite Hres in Hs, Hint. cbn [length] in Hs, Hint.
    rewrite Hs1 in Hs. injection Hs as <-.
    assert (Hfire : fire random t w = Some (Simulation_tick random 0 w)).
    { unfold fire. rewrite Hint, lookup_singleton_eq. reflexivity. }
    destruct (Simulation_tick random 0 w) as [evs w'] eqn:Htick.
    destruct (fire_batch random _ _ _ _ _ _ _ B Hfire)
      as (s & _ & Hs & _ & _ & _ & _ & Hcases).
    rewrite Hres in Hs, Hcases. cbn [length app] in Hs, Hcases.
    rewrite Hs1 in Hs. injection Hs as <-.
    destruct (advance_same_town _ _ (calls w) Hsame) as [Hsame' Hcalls'].
    assert (Ht : ticks random (S m) (fresh n LogNotDefined) 0
                 = advance random (ticks random m (fresh n LogNotDefined) 0).1 (calls w))
      by (rewrite ticks_S, Hcalls; reflexivity).
    rewrite <- Ht in Hsame', Hcalls'.
    assert (Hc : complete (advance random s1 (calls w)).1 = false).
    { rewrite <- (complete_same_town _ _ Hsame'). apply Hinc. lia. }
    destruct Hcases as [(_ & -> & ->) | [(Hc' & _) | (Hc' & _)]]; try congruence.
    eexists. split; [| split].
    + rewrite <- (app_nil_r []). eapply exec_fire; [exact Hexec | exact Hfire].
    + reflexivity.
    + eexists. cbn [simulations calls]. split; [| split; [exact Hsame' |]].
      * apply list_lookup_insert_eq. eapply lookup_lt_Some. exact Hs1.
      * symmetry. exact Hcalls'.
Qed.

(** And when the next evening finds the town complete, the callback of
    that evening calls [onDone] with its day. *)
Lemma first_run_done o evs0 w0 m :
  (1 <= numberOfHouses o)%Z ->
  main o = Ok (evs0, w0) ->
  (forall m', m' <= m ->
     complete (ticks random m' (fresh (Z.to_nat (numberOfHouses o)) LogNotDefined) 0).1
     = false) ->
  complete (ticks random (S m) (fresh (Z.to_nat (numberOfHouses o)) LogNotDefined) 0).1
  = true ->
  exists tr w, reachable random o tr w /\ Done 0 (S m) ∈ tr.
Proof.
  intros Hn Hmain Hinc Hdone. set (n := Z.to_nat (numberOfHouses o)) in *.
  assert (Hpos : 0 < n) by (unfold n; lia).
  destruct (first_run_reaches o evs0 w0 m Hn Hmain Hinc)
    as (w & Hexec & Hres & s1 & Hs1 & Hsame & Hcalls).
  pose proof (batch_exec random random_unit _ _ w0 evs0 [] w Hpos
                (batch_main o evs0 w0 Hmain Hn) Hexec) as B.
  destruct (batch_current _ _ _ _ B) as (_ & s & t & Hs & _ & _ & Hint).
  { rewrite Hres. cbn [length]. destruct (main_Ok o evs0 w0 Hmain) as (_ & Hk & _). lia. }
  rewrite Hres in Hs, Hint. cbn [length] in Hs, Hint.
  rewrite Hs1 in Hs. injection Hs as <-.
  assert (Hfire : fire random t w = Some (Simulation_tick random 0 w)).
  { unfold fire. rewrite Hint, lookup_singleton_eq. reflexivity. }
  destruct (Simulation_tick random 0 w) as [evs w'] eqn:Htick.
  destruct (fire_batch random _ _ _ _ _ _ _ B Hfire)
    as (s & _ & Hs & _ & _ & _ & _ & Hcases).
  rewrite Hres in Hs, Hcases. cbn [length app] in Hs, Hcases.
  rewrite Hs1 in Hs. injection Hs as <-.
  destruct (advance_same_town _ _ (calls w) Hsame) as [Hsame' _].
  subst n.
  assert (Ht : ticks random (S m) (fresh (Z.to_nat (numberOfHouses o)) LogNotDefined) 0
               = advance random
                   (ticks random m (fresh (Z.to_nat (numberOfHouses o)) LogNotDefined) 0).1
                   (calls w))
    by (rewrite ticks_S, Hcalls; reflexivity).
  rewrite <- Ht in Hsame'.
  assert (Hc : complete (advance random s1 (calls w)).1 = true).
  { rewrite <- (complete_same_town _ _ Hsame'). exact Hdone. }
  assert (Hday : day s1 = m).
  { destruct Hsame as (_ & <- & _). rewrite day_ticks. reflexivity. }
  exists (evs0 ++ [] ++ evs), w'. split.
  - exists evs0, w0, ([] ++ evs). split; [exact Hmain |]. split; [| reflexivity].
    eapply exec_fire; [exact Hexec | exact Hfire].
  - rewrite Hday in Hcases. apply elem_of_app. right. cbn [app].
    destruct Hcases as [(Hc' & _) | [(_ & _ & -> & _) | (_ & _ & -> & _)]];
      [congruence | |]; apply elem_of_cons; left; reflexivity.
Qed.

End FirstRun.

(** C6. A town of 100 houses under a random source that always draws
    house 0 never becomes complete: from the evening of the first day on
    there are two zombies, house 0 is infected and houses 1 to 99 are
    not, so the test of [tick] never succeeds and, however long the
    timer keeps calling [tick], [onDone] is not reached; in a batch over
    such towns nothing is ever observed but the start of the first
    run. *)
Theorem degenerate_source_never_completes (random : nat -> Q) (s0 : Simulation) (c : nat) :
  (forall k, randomHouseNumber (random k) 100 = 0) ->
  Simulation_new 100 = Ok s0 ->
  complete s0 = false
  /\ (forall m,
        zombies (ticks random (S m) s0 c).1 = 2
        /\ js_get (houses (ticks random (S m) s0 c).1) 0 = Some true
        /\ (forall j, 1 <= j < 100 ->
              js_get (houses (ticks random (S m) s0 c).1) j = Some false)
        /\ complete (ticks random (S m) s0 c).1 = false)
  /\ (forall fuel, run random fuel s0 c = None)
  /\ (forall o tr w,
        unit_interval random -> numberOfHouses o = 100%Z ->
        reachable random o tr w ->
        tr = [Started 0] /\ results w = []).
Proof.
  intros Hzero Hnew. apply Simulation_new_fresh in Hnew as [_ ->].
  change (Z.to_nat 100) with 100.
  assert (Hm : forall c' m,
    zombies (ticks random (S m) (fresh 100 LogNotDefined) c').1 = 2
    /\ js_get (houses (ticks random (S m) (fresh 100 LogNotDefined) c').1) 0 = Some true
    /\ (forall j, 1 <= j < 100 ->
          js_get (houses (ticks random (S m) (fresh 100 LogNotDefined) c').1) j
          = Some false)
    /\ complete (ticks random (S m) (fresh 100 LogNotDefined) c').1 = false).
  { intros c' m.
    destruct (ticks_stuck random 99 LogNotDefined c' m Hzero) as (Hz & Hh & _).
    unfold complete. rewrite Hh. split; [exact Hz |]. split; [reflexivity |].
    split; [| reflexivity].
    intros [|j] Hj; [lia |]. unfold js_get. cbn [lookup list_lookup].
    change (replicate 99 (Some false) !! j) with
      ((replicate 99 (Some false) : list cell) !! j).
    rewrite lookup_replicate_2 by lia. reflexivity. }
  split; [reflexivity |]. split; [apply Hm |].
  split; [apply run_None_of_incomplete; intros m; apply Hm |].
  intros o tr w Hunit Ho (evs0 & w0 & tr' & Hmain & Hexec & ->).
  assert (Hn : (1 <= numberOfHouses o)%Z) by lia.
  destruct (first_run_exec random Hunit o evs0 w0 tr' w Hn Hmain Hexec)
    as [(Hres & -> & _) | (_ & m & Hc)].
  - destruct (main_Ok o evs0 w0 Hmain) as (_ & _ & _ & _ & _ & -> & _). auto.
  - rewrite Ho in Hc. change (Z.to_nat 100) with 100 in Hc.
    destruct (Hm 0 m) as (_ & _ & _ & Hc'). congruence.
Qed.

(** C3 fails as stated: there is a town (two houses) and a sequence of
    draws in range (always 0) for which no number of days brings the
    run to its end. *)
Lemma run_need_not_terminate :
  ~ (forall (n : Z) (random : nat -> Q) (s0 : Simulation),
       (1 <= n)%Z -> unit_interval random -> Simulation_new n = Ok s0 ->
       exists fuel s, run random fuel s0 0 = Some s).
Proof.
  intros H.
  destruct (H 2%Z always_zero (fresh 2 LogNotDefined)) as (fuel & s & Hrun).
  - lia.
  - intros k. split; [apply Qle_refl | reflexivity].
  - reflexivity.
  - rewrite (run_None_of_incomplete always_zero) in Hrun; [discriminate Hrun |].
    intros m. destruct (ticks_stuck always_zero 1 LogNotDefined 0 m) as (_ & Hh & _).
    + intros k. reflexivity.
    + unfold complete. rewrite Hh. reflexivity.
Qed.

(** C3, as the code has it.  A run over [N >= 1] houses comes to its end
    after finitely many days exactly when the draws, from the first one
    of the run on, hit every house at least once; and this is when the
    timer of the first run of a batch brings it to call [onDone]. *)
Theorem run_terminates_iff_draws_cover (random : nat -> Q) (n : Z) :
  unit_interval random ->
  (1 <= n)%Z ->
  (forall s0 c,
     Simulation_new n = Ok s0 ->
     (forall j, j < Z.to_nat n ->
        exists k, c <= k /\ randomHouseNumber (random k) (Z.to_nat n) = j)
     <-> (exists fuel s, run random fuel s0 c = Some s /\ complete s = true))
  /\ (forall o evs0 w0,
        numberOfHouses o = n ->
        main o = Ok (evs0, w0) ->
        (forall j, j < Z.to_nat n ->
           exists k, randomHouseNumber (random k) (Z.to_nat n) = j)
        <-> (exists tr w d, reachable random o tr w /\ Done 0 d ∈ tr)).
Proof.
  intros Hunit Hn.
  set (N := Z.to_nat n). assert (HN : 0 < N) by (unfold N; lia).
  pose proof (sound_fresh N LogNotDefined) as Hsound.
  assert (Hrun : forall c,
    (forall j, j < N -> exists k, c <= k /\ randomHouseNumber (random k) N = j)
    <-> (exists fuel s, run random fuel (fresh N LogNotDefined) c = Some s
                        /\ complete s = true)).
  { intros c. split.
    - intros Hcover. destruct (draws_bounded random N c Hcover) as [K HK].
      set (t := ticks random (S K) (fresh N LogNotDefined) c).
      assert (Hc : complete t.1 = true).
      { pose proof (sound_ticks random N (S K) _ c Hunit HN Hsound) as (Hs & Hlen & _).
        fold t in Hs, Hlen. apply (complete_get _ Hs). rewrite Hlen. intros j Hj.
        destruct (HK j Hj) as (k & Hk & <-).
        apply ticks_hits; [assumption .. |].
        pose proof (ticks_calls random Hunit N (S K) _ c HN Hsound). lia. }
      destruct (run_of_complete random K _ c Hc) as (s' & Hrun & Hs').
      exists (S K), s'. auto.
    - intros (fuel & s & Hrun & Hc) j Hj.
      destruct (run_Some random fuel _ c s Hrun) as (m & -> & _ & _).
      pose proof (sound_ticks random N (S m) _ c Hunit HN Hsound) as (Hs & Hlen & _).
      pose proof (proj1 (complete_get _ Hs) Hc j) as Hall. rewrite Hlen in Hall.
      destruct (ticks_origin random Hunit N (S m) _ c j HN Hsound (Hall Hj))
        as [Hfresh | Hk]; [| exact Hk].
      unfold fresh, js_get in Hfresh. cbn [houses] in Hfresh.
      rewrite lookup_replicate_2 in Hfresh by exact Hj. discriminate Hfresh. }
  split.
  - intros s0 c Hnew. apply Simulation_new_fresh in Hnew as [_ ->]. apply Hrun.
  - intros o evs0 w0 Ho Hmain.
    assert (Hn' : (1 <= numberOfHouses o)%Z) by lia.
    assert (Hcover : (forall j, j < N -> exists k, randomHouseNumber (random k) N = j)
                     <-> (forall j, j < N ->
                            exists k, 0 <= k /\ randomHouseNumber (random k) N = j)).
    { split; intros H j Hj; destruct (H j Hj) as [k Hk]; exists k; [split; [lia |] |];
        tauto. }
    rewrite Hcover, (Hrun 0). split.
    + intros (fuel & s & Hs & _).
      destruct (run_Some random fuel _ 0 s Hs) as (m & -> & Hc & Hmin).
      destruct (first_run_done random Hunit o evs0 w0 m Hn' Hmain) as (tr & w & Hr & Hd).
      * rewrite Ho. fold N. intros [|m'] Hm'; [apply complete_fresh; exact HN |].
        apply Hmin. lia.
      * rewrite Ho. exact Hc.
      * eauto.
    + intros (tr & w & d & (evs1 & w1 & tr' & Hmain1 & Hexec & ->) & Hd).
      destruct (first_run_exec random Hunit o evs1 w1 tr' w Hn' Hmain1 Hexec)
        as [(_ & -> & _) | (_ & m & Hc)].
      * destruct (main_Ok o evs1 w1 Hmain1) as (_ & _ & _ & _ & _ & -> & _).
        apply list_elem_of_singleton in Hd. discriminate Hd.
      * rewrite Ho in Hc. fold N in Hc.
        destruct (run_of_complete random m _ 0 Hc) as (s' & Hs' & Hc').
        eauto.
Qed.

(** ** The batch as a whole *)

Lemma batch_tail k n tr w :
  batch k n tr w ->
  exists x, tr = history 0 (results w) ++ [x]
            /\ (forall j, x = Started j -> j = length (results w))
            /\ (forall j d, x <> Done j d).
Proof.
  intros B. pose proof (batch_bound _ _ _ _ B) as Hle.
  destruct (decide (length (results w) = k)) as [Hfin | Hrun].
  - destruct (batch_finished _ _ _ _ B Hfin) as [-> _].
    eexists. split; [reflexivity |]. split; intros; discriminate.
  - destruct (batch_current _ _ _ _ B) as [-> _]; [lia |].
    eexists. split; [reflexivity |]. split; [| intros; discriminate].
    intros j H. injection H as ->. reflexivity.
Qed.

Lemma batch_armed k n tr w t j :
  batch k n tr w ->
  (intervals w !! t = Some j <->
   j = length (results w) /\ j < k
   /\ exists s, simulations w !! j = Some s /\ timer s = Some t).
Proof.
  intros B. pose proof (batch_bound _ _ _ _ B) as Hle.
  destruct (decide (length (results w) = k)) as [Hfin | Hrun].
  - destruct (batch_finished _ _ _ _ B Hfin) as [_ ->]. rewrite lookup_empty.
    split; [discriminate | lia].
  - destruct (batch_current _ _ _ _ B) as (_ & s & t0 & Hs & _ & Ht & ->); [lia |].
    rewrite lookup_singleton_Some. split.
    + intros [-> <-]. split; [reflexivity |]. split; [lia |]. eauto.
    + intros (-> & _ & s' & Hs' & Ht'). split; [congruence | reflexivity].
Qed.

(** C4. In a batch of [k] runs, the runs go one after the other: at any
    moment at most one timer is armed and at most one run is active
    (started, not yet done), the run whose timer it is; and a run other
    than the first is started only right after the run before it has
    called [onDone] and the final day count of that run, the one the run
    still shows, has been added to the results. *)
Theorem runs_are_sequential (random : nat -> Q) (o : options) (tr : list event) (w : world) :
  unit_interval random ->
  (1 <= numberOfHouses o)%Z ->
  reachable random o tr w ->
  length (simulations w) = Z.to_nat (numberOfSimulations o)
  /\ (forall t1 t2 j1 j2,
        intervals w !! t1 = Some j1 -> intervals w !! t2 = Some j2 ->
        t1 = t2 /\ j1 = j2)
  /\ (forall j1 j2, active tr j1 -> active tr j2 -> j1 = j2)
  /\ (forall j, active tr j <-> exists t, intervals w !! t = Some j)
  /\ (forall p i,
        tr !! p = Some (Started (S i)) ->
        2 <= p
        /\ exists d s,
             tr !! (p - 2) = Some (Done i d)
             /\ tr !! (p - 1) = Some (Recorded d)
             /\ results w !! i = Some d
             /\ simulations w !! i = Some s
             /\ complete s = true
             /\ day s = d).
Proof.
  intros Hunit Hn Hreach.
  pose proof (batch_reachable random Hunit o tr w Hn Hreach) as B.
  set (k := Z.to_nat (numberOfSimulations o)) in *.
  set (n := Z.to_nat (numberOfHouses o)) in *.
  pose proof (batch_bound _ _ _ _ B) as Hle.
  assert (Hactive : forall j, active tr j <-> j = length (results w) /\ j < k).
  { intros j. unfold active. rewrite (batch_started _ _ _ _ j B). split.
    - intros [[Hk Hj] Hnone]. split; [| exact Hk].
      destruct (decide (j < length (results w))) as [Hlt | ?]; [| lia].
      destruct (lookup_lt_is_Some_2 _ _ Hlt) as [d Hd].
      apply (batch_done _ _ _ _ j d B) in Hd. destruct (Hnone d Hd).
    - intros [-> Hk]. split; [lia |]. intros d Hd.
      apply (batch_done _ _ _ _ _ d B) in Hd. apply lookup_lt_Some in Hd. lia. }
  split; [apply (batch_length _ _ _ _ B) |].
  split.
  { intros t1 t2 j1 j2 H1 H2.
    apply (batch_armed _ _ _ _ t1 j1 B) in H1 as (-> & _ & s1 & Hs1 & Ht1).
    apply (batch_armed _ _ _ _ t2 j2 B) in H2 as (-> & _ & s2 & Hs2 & Ht2).
    split; congruence. }
  split.
  { intros j1 j2 H1 H2. apply Hactive in H1 as [-> _]. apply Hactive in H2 as [-> _].
    reflexivity. }
  split.
  { intros j. rewrite Hactive. split.
    - intros [-> Hk].
      destruct (batch_current _ _ _ _ B Hk) as (_ & s & t & Hs & _ & Ht & Hint).
      exists t. rewrite Hint. apply lookup_singleton_eq.
    - intros [t Ht]. apply (batch_armed _ _ _ _ t j B) in Ht as (-> & Hk & _). auto. }
  intros p i Hp.
  destruct (batch_tail _ _ _ _ B) as (x & Htr & Hx & _).
  rewrite Htr in Hp |- *.
  destruct (history_started 0 (results w) [x] p i) as [[_ H0] | (_ & Hp2 & d & Hd & H1 & H2)].
  - intros [|q] j Hq; [| discriminate Hq]. injection Hq as ->. auto.
  - exact Hp.
  - discriminate H0.
  - rewrite Nat.sub_0_r in Hd. split; [exact Hp2 |].
    assert (Hi : i < length (simulations w)).
    { rewrite (batch_length _ _ _ _ B). apply lookup_lt_Some in Hd. lia. }
    destruct (lookup_lt_is_Some_2 _ _ Hi) as [s Hs].
    destruct (batch_past _ _ _ _ B i s Hs) as [Hc Hday].
    { eapply lookup_lt_Some. exact Hd. }
    exists d, s. repeat split; try assumption. congruence.
Qed.

(** C8. In a batch, [onDone] has been called once on every run whose
    town is complete and never on the others, with the day counter the
    run still shows; and the call is made by the callback that finds the
    town complete for the first time: the town was not complete before
    it, and only the run ticked by a callback can be reported done. *)
Theorem done_exactly_once (random : nat -> Q) (o : options) (tr : list event) (w : world) :
  unit_interval random ->
  (1 <= numberOfHouses o)%Z ->
  reachable random o tr w ->
  (forall j s, simulations w !! j = Some s ->
     count_done j tr = if complete s then 1 else 0)
  /\ (forall j d, Done j d ∈ tr ->
        exists s, simulations w !! j = Some s /\ complete s = true /\ day s = d)
  /\ (forall t evs w',
        fire random t w = Some (evs, w') ->
        exists j s s',
          intervals w !! t = Some j
          /\ simulations w !! j = Some s
          /\ complete s = false
          /\ simulations w' !! j = Some s'
          /\ same_town (advance random s (calls w)).1 s'
          /\ count_done j evs = (if complete s' then 1 else 0)
          /\ (forall j' d, Done j' d ∈ evs <->
                j' = j /\ d = day s' /\ complete s' = true)).
Proof.
  intros Hunit Hn Hreach.
  pose proof (batch_reachable random Hunit o tr w Hn Hreach) as B.
  set (k := Z.to_nat (numberOfSimulations o)) in *.
  set (n := Z.to_nat (numberOfHouses o)) in *.
  assert (Hpos : 0 < n) by (unfold n; lia).
  split; [| split].
  - intros j s Hj.
    destruct (batch_tail _ _ _ _ B) as (x & -> & _ & Hx).
    rewrite count_done_app, count_done_history.
    assert (Hx0 : count_done j [x] = 0).
    { unfold count_done. cbn. destruct x as [|j' d| |]; try reflexivity.
      destruct (Hx j' d eq_refl). }
    rewrite Hx0. pose proof (batch_complete _ _ _ _ j s Hpos B Hj) as Hc.
    destruct (complete s).
    + rewrite decide_True; [reflexivity |]. split; [lia | apply Hc; reflexivity].
    + rewrite decide_False; [reflexivity |]. intros [_ Hlt]. apply Hc in Hlt.
      discriminate Hlt.
  - intros j d Hd. apply (batch_done _ _ _ _ j d B) in Hd.
    assert (Hlt : j < length (results w)) by (eapply lookup_lt_Some; exact Hd).
    assert (Hi : j < length (simulations w)).
    { rewrite (batch_length _ _ _ _ B). pose proof (batch_bound _ _ _ _ B). lia. }
    destruct (lookup_lt_is_Some_2 _ _ Hi) as [s Hs].
    destruct (batch_past _ _ _ _ B j s Hs Hlt) as [Hc Hday].
    exists s. repeat split; [assumption .. | congruence].
  - intros t evs w' Hfire.
    destruct (fire_batch random k n tr w t evs w' B Hfire)
      as (s & Hi & Hs & Hc & Ht & Hint & _ & Hcases).
    set (i := length (results w)) in *.
    set (s' := (advance random s (calls w)).1) in *.
    assert (Hlt : i < length (simulations w)) by (eapply lookup_lt_Some; eassumption).
    assert (Hday : day s' = S (day s)) by reflexivity.
    exists i, s, s'. split; [rewrite Hint; apply lookup_singleton_eq |].
    split; [exact Hs |]. split; [exact Hc |].
    destruct Hcases as [(Hcs & -> & ->) | [(Hcs & Hnext & -> & ->) | (Hcs & Hlast & -> & ->)]];
      cbn [simulations]; rewrite Hcs.
    + split; [apply list_lookup_insert_eq; exact Hlt |].
      split; [repeat split |]. split; [reflexivity |].
      intros j' d. split; [intros H; inversion H | intros (_ & _ & H); discriminate H].
    + split.
      { rewrite list_lookup_insert_ne by lia. apply list_lookup_insert_eq; exact Hlt. }
      split; [repeat split |]. split.
      { unfold count_done. cbn. rewrite Nat.eqb_refl. reflexivity. }
      intros j' d. rewrite !elem_of_cons, Hday. split.
      * intros [H | [H | [H | H]]]; try discriminate H; [| inversion H].
        injection H as -> ->. auto.
      * intros (-> & -> & _). auto.
    + split; [apply list_lookup_insert_eq; exact Hlt |].
      split; [repeat split |]. split.
      { unfold count_done. cbn. rewrite Nat.eqb_refl. reflexivity. }
      intros j' d. rewrite !elem_of_cons, Hday. split.
      * intros [H | [H | [H | H]]]; try discriminate H; [| inversion H].
        injection H as -> ->. auto.
      * intros (-> & -> & _). auto.
Qed.

(** C7. A configuration with fewer than one simulation never gets past
    the constructor of [Application], which throws; and whatever the
    configuration, every summary that is rendered counts at least one
    result and shows a number. *)
Theorem no_runs_is_rejected (o : options) :
  ((numberOfSimulations o < 1)%Z ->
   exists e, Application_new o = Throw e /\ main o = Throw e)
  /\ (forall random tr w n a,
        reachable random o tr w -> Rendered n a ∈ tr ->
        1 <= n /\ exists q, a = Num q).
Proof.
  split.
  - intros Hk. unfold main, Application_new.
    destruct (new_Array (numberOfSimulations o)) as [k|e] eqn:Hnew.
    + apply new_Array_Ok in Hnew as [Hk0 ->].
      replace (numberOfSimulations o) with 0%Z by lia.
      exists TypeError. split; reflexivity.
    + exists e. split; reflexivity.
  - intros random tr w n a (evs0 & w0 & tr' & Hmain & Hexec & ->) Hin.
    destruct (main_Ok o evs0 w0 Hmain) as (_ & _ & _ & _ & _ & -> & _).
    apply elem_of_app in Hin as [Hin | Hin].
    { apply list_elem_of_singleton in Hin. discriminate Hin. }
    clear Hmain. induction Hexec as [| tr1 w1 t evs w2 _ IH Hfire]; [inversion Hin |].
    apply elem_of_app in Hin as [Hin | Hin]; [apply IH; exact Hin |].
    unfold fire in Hfire. destruct (intervals w1 !! t) as [i|]; [| discriminate Hfire].
    injection Hfire as Hfire.
    apply (Simulation_tick_rendered random i w1 n a). rewrite Hfire. exact Hin.
Qed.

(** * The statements at sample inputs *)

(** The script as shipped (10 runs over 100 houses) builds its
    application and starts the first run. *)
Lemma shipped_starts : exists w0, main shipped = Ok ([Started 0], w0).
Proof. eexists. vm_compute. reflexivity. Qed.

Lemma always_zero_unit : unit_interval always_zero.
Proof. intros k. split; [apply Qle_refl | reflexivity]. Qed.

Lemma always_half_unit : unit_interval always_half.
Proof. intros k. split; [discriminate | reflexivity]. Qed.

Lemma alternating_unit : unit_interval alternating.
Proof.
  intros k. unfold alternating. destruct (Nat.even k); split;
    first [apply Qle_refl | discriminate | reflexivity].
Qed.

Lemma solid_sample_town : solid (houses sample_town).
Proof. apply (sound_fresh 3 LogNotDefined). Qed.

Lemma reachable_after_first_run :
  reachable always_zero two_runs_one_house trace_after_first_run page_after_first_run.
Proof.
  exists [Started 0], page_at_start, [Done 0 1; Recorded 1; Started 1].
  split; [reflexivity |]. split; [| reflexivity].
  apply (exec_fire always_zero page_at_start [] page_at_start 0
           [Done 0 1; Recorded 1; Started 1] page_after_first_run).
  - apply exec_refl.
  - reflexivity.
Qed.

Lemma tick_is_advanceOneDay_witness :
  simulations sample_world !! 0 = Some sample_town
  /\ exists s',
       simulations (Simulation_tick always_half 0 sample_world).2 !! 0 = Some s'
       /\ state_of s' = (advanceOneDay (state_of sample_town) [1]).1
       /\ day s' = 1.
Proof.
  split; [reflexivity |].
  destruct (tick_is_advanceOneDay always_half 0 sample_world sample_town
              always_half_unit eq_refl solid_sample_town (Nat.lt_0_succ 2))
    as (_ & _ & s' & H1 & H2 & H3 & _).
  exists s'. split; [exact H1 |]. split; [exact H2 | exact H3].
Defined.

Lemma tick_invariants_witness :
  zombies sample_town <= zombies (advance always_half sample_town 0).1
  /\ day (advance always_half sample_town 0).1 = day sample_town + 1
  /\ infected (houses sample_town) <= infected (houses (advance always_half sample_town 0).1).
Proof.
  destruct (proj1 (tick_invariants always_half always_half_unit) sample_town 0
              solid_sample_town (Nat.lt_0_succ 2)) as (H1 & H2 & H3 & _).
  split; [exact H1 |]. split; [exact H2 | exact H3].
Defined.

Lemma tick_after_completion_witness :
  complete town_done = true
  /\ houses (advance always_zero town_done 1).1 = houses town_done
  /\ zombies (advance always_zero town_done 1).1 = zombies town_done
  /\ day (advance always_zero town_done 1).1 = day town_done + 1.
Proof.
  split; [reflexivity |].
  destruct (tick_after_completion always_zero 0 done_world town_done
              always_zero_unit eq_refl
              (Forall_cons_2 _ _ _ (ex_intro _ true eq_refl) (Forall_nil_2 _))
              (Nat.lt_0_succ 0) eq_refl) as (H1 & H2 & H3 & _).
  split; [exact H1 |]. split; [exact H2 | exact H3].
Defined.

Lemma zombies_are_one_plus_infected_witness :
  zombies (ticks always_half 2 sample_town 0).1
  = 1 + infected (houses (ticks always_half 2 sample_town 0).1)
  /\ zombies (ticks always_half 2 sample_town 0).1 <= 3 + 1.
Proof.
  assert (H13 : (1 <= 3)%Z) by lia.
  destruct (proj2 (proj2 zombies_are_one_plus_infected) always_half 3%Z sample_town 0 2
              always_half_unit H13 eq_refl) as (H1 & H2 & _).
  split; [exact H1 | exact H2].
Defined.

Lemma summary_is_count_and_nearest_mean_witness :
  exists q,
    summarize (results (record_all thirds blank_page)) = (length thirds, Num q)
    /\ nearest_double (inject_Z (Z.of_nat (sum_list thirds))
                       / inject_Z (Z.of_nat (length thirds))) q.
Proof.
  assert (Hne : thirds <> []) by discriminate.
  assert (Hsum : (Z.of_nat (sum_list thirds) < 2 ^ 53)%Z) by reflexivity.
  assert (Hlen : (Z.of_nat (length thirds) < 2 ^ 53)%Z) by reflexivity.
  destruct (proj1 summary_is_count_and_nearest_mean blank_page thirds eq_refl Hne Hsum Hlen)
    as (q & H1 & _ & _ & H2 & _).
  exists q. split; [exact H1 |]. apply H2. exact (Nat.lt_0_succ 3).
Defined.

Lemma degenerate_source_never_completes_witness :
  (forall k, randomHouseNumber (always_zero k) 100 = 0)
  /\ Simulation_new 100 = Ok (fresh 100 LogNotDefined)
  /\ forall fuel, run always_zero fuel (fresh 100 LogNotDefined) 0 = None.
Proof.
  assert (Hzero : forall k, randomHouseNumber (always_zero k) 100 = 0)
    by (intros k; reflexivity).
  split; [exact Hzero |]. split; [reflexivity |].
  exact (proj1 (proj2 (proj2 (degenerate_source_never_completes always_zero
                                (fresh 100 LogNotDefined) 0 Hzero eq_refl)))).
Defined.

Lemma run_terminates_iff_draws_cover_witness :
  exists fuel s,
    run alternating fuel (fresh 2 LogNotDefined) 0 = Some s /\ complete s = true.
Proof.
  assert (H12 : (1 <= 2)%Z) by lia.
  apply (proj1 (proj1 (run_terminates_iff_draws_cover alternating 2%Z
                         alternating_unit H12)
                  (fresh 2 LogNotDefined) 0 eq_refl)).
  intros [|[|j]] Hj.
  - exists 0. split; [lia | reflexivity].
  - exists 1. split; [lia | reflexivity].
  - change (Z.to_nat 2) with 2 in Hj. lia.
Defined.

Lemma runs_are_sequential_witness :
  trace_after_first_run !! 3 = Some (Started 1)
  /\ exists d s,
       trace_after_first_run !! 1 = Some (Done 0 d)
       /\ trace_after_first_run !! 2 = Some (Recorded d)
       /\ results page_after_first_run !! 0 = Some d
       /\ simulations page_after_first_run !! 0 = Some s
       /\ complete s = true
       /\ day s = d.
Proof.
  split; [reflexivity |].
  assert (H11 : (1 <= numberOfHouses two_runs_one_house)%Z) by (cbn; lia).
  destruct (runs_are_sequential always_zero two_runs_one_house trace_after_first_run
              page_after_first_run always_zero_unit H11 reachable_after_first_run)
    as (_ & _ & _ & _ & Horder).
  destruct (Horder 3 0 eq_refl) as (_ & d & s & H).
  exists d, s. exact H.
Defined.

Lemma done_exactly_once_witness :
  count_done 0 trace_after_first_run = 1
  /\ count_done 1 trace_after_first_run = 0
  /\ forall j s, simulations page_after_first_run !! j = Some s ->
       count_done j trace_after_first_run = if complete s then 1 else 0.
Proof.
  split; [reflexivity |]. split; [reflexivity |].
  assert (H11 : (1 <= numberOfHouses two_runs_one_house)%Z) by (cbn; lia).
  exact (proj1 (done_exactly_once always_zero two_runs_one_house trace_after_first_run
                  page_after_first_run always_zero_unit H11 reachable_after_first_run)).
Defined.

Lemma no_runs_is_rejected_witness :
  (numberOfSimulations no_runs < 1)%Z
  /\ exists e, Application_new no_runs = Throw e /\ main no_runs = Throw e.
Proof.
  assert (H0 : (numberOfSimulations no_runs < 1)%Z) by reflexivity.
  split; [exact H0 |].
  exact (proj1 (no_runs_is_rejected no_runs) H0).
Defined.

(** * Further properties of the code *)

(** ** The constructors *)

Lemma Application_new_cases o :
  let k := numberOfSimulations o in
  let n := numberOfHouses o in
  ((k < 0)%Z \/ (2 ^ 32 <= k)%Z -> Application_new o = Throw RangeError)
  /\ (k = 0%Z -> Application_new o = Throw TypeError)
  /\ ((1 <= k < 2 ^ 32)%Z -> (n < 0)%Z \/ (2 ^ 32 <= n)%Z ->
      Application_new o = Throw RangeError)
  /\ ((1 <= k < 2 ^ 32)%Z -> (0 <= n < 2 ^ 32)%Z ->
      exists w, Application_new o = Ok w).
Proof.
  intros k n. unfold Application_new. fold k n. repeat split.
  - intros Hk. destruct (new_Array k) as [m|e] eqn:Hm.
    + apply new_Array_Ok in Hm. lia.
    + apply new_Array_Throw in Hm as [_ ->]. reflexivity.
  - intros ->. reflexivity.
  - intros Hk Hn. assert (Hk' : (0 <= k < 2 ^ 32)%Z) by lia.
    rewrite (proj2 (new_Array_Ok k _) (conj Hk' eq_refl)).
    cbn [bind]. destruct (Z.to_nat k) as [|k'] eqn:Ek; [lia |].
    cbn [construct]. unfold Simulation_new.
    destruct (new_Array n) as [m|e] eqn:Hm.
    + apply new_Array_Ok in Hm. lia.
    + apply new_Array_Throw in Hm as [_ ->]. reflexivity.
  - intros Hk Hn. assert (Hk' : (0 <= k < 2 ^ 32)%Z) by lia.
    rewrite (proj2 (new_Array_Ok k _) (conj Hk' eq_refl)).
    cbn [bind]. rewrite construct_Ok by exact Hn. cbn [bind].
    destruct (Z.to_nat k) as [|k'] eqn:Ek; [lia |].
    destruct (initSynchronousSimulations_Ok o (Z.to_nat n) k') as (l & Hl & _).
    { fold k. lia. }
    rewrite Hl. cbn [bind]. eauto.
Qed.

(** X1. What [new Application(options)] does with the two numbers: it
    throws a [TypeError] exactly when no simulation is asked for (even
    if the number of houses is unusable, since no town is then built), a
    [RangeError] exactly when the number of simulations is not an array
    length or at least one town has to be built with a number of houses
    that is not one, and it returns in all other cases. *)
Theorem Application_new_outcome (o : options) :
  (Application_new o = Throw TypeError <-> numberOfSimulations o = 0%Z)
  /\ (Application_new o = Throw RangeError <->
      (numberOfSimulations o < 0)%Z \/ (2 ^ 32 <= numberOfSimulations o)%Z
      \/ ((1 <= numberOfSimulations o)%Z
          /\ ((numberOfHouses o < 0)%Z \/ (2 ^ 32 <= numberOfHouses o)%Z)))
  /\ ((exists w, Application_new o = Ok w) <->
      (1 <= numberOfSimulations o < 2 ^ 32)%Z /\ (0 <= numberOfHouses o < 2 ^ 32)%Z).
Proof.
  destruct (Application_new_cases o) as (Hr & Ht & Hrn & Hok).
  cbn zeta in *.
  set (k := numberOfSimulations o) in *. set (n := numberOfHouses o) in *.
  destruct (decide ((k < 0)%Z \/ (2 ^ 32 <= k)%Z)) as [Hk | Hk].
  { rewrite (Hr Hk). split; [| split]; split; intros H;
      try discriminate H; try lia; try tauto.
    destruct H as [w H]. discriminate H. }
  destruct (decide (k = 0%Z)) as [Hk0 | Hk0].
  { rewrite (Ht Hk0). split; [| split]; split; intros H;
      try discriminate H; try lia; try tauto.
    destruct H as [w H]. discriminate H. }
  assert (Hk1 : (1 <= k < 2 ^ 32)%Z) by lia.
  destruct (decide ((n < 0)%Z \/ (2 ^ 32 <= n)%Z)) as [Hn | Hn].
  { rewrite (Hrn Hk1 Hn). split; [| split]; split; intros H;
      try discriminate H; try lia; try tauto.
    destruct H as [w H]. discriminate H. }
  assert (Hn1 : (0 <= n < 2 ^ 32)%Z) by lia.
  destruct (Hok Hk1 Hn1) as [w Hw]. rewrite Hw.
  split; [| split]; split; intros H; try discriminate H; try lia; eauto.
Qed.

(** What the script leaves is new: towns as built, nothing recorded. *)
Lemma main_towns o evs0 w0 :
  main o = Ok (evs0, w0) ->
  (forall j s, simulations w0 !! j = Some s ->
     same_town (fresh (Z.to_nat (numberOfHouses o)) LogNotDefined) s)
  /\ results w0 = [].
Proof.
  intros Hmain.
  destruct (main_Ok o evs0 w0 Hmain) as (l & Hk & _ & Hlen & Hlook & -> & ->).
  cbn [simulations results]. split; [| reflexivity].
  intros j s Hj. apply lookup_insert_cases in Hj as [[-> ->] | [Hne Hj]].
  - repeat split.
  - rewrite Hlook in Hj by (eapply lookup_lt_Some; exact Hj).
    injection Hj as <-. repeat split.
Qed.

(** X2. When the script does not throw, it leaves [k] simulations of
    [n] untouched houses, one zombie and day 0 each, every one told to
    start its successor when done and the last one to render the
    summary; nothing is recorded, nothing is shown, and the only armed
    timer is the one of the first simulation, whose start is the only
    call observed. *)
Theorem main_leaves_first_run_started (o : options) (evs0 : list event) (w0 : world) :
  main o = Ok (evs0, w0) ->
  evs0 = [Started 0]
  /\ length (simulations w0) = Z.to_nat (numberOfSimulations o)
  /\ (forall j s, simulations w0 !! j = Some s ->
        same_town (fresh (Z.to_nat (numberOfHouses o)) LogNotDefined) s
        /\ onDone s = handler_for (Z.to_nat (numberOfSimulations o)) j
        /\ timer s = if decide (j = 0) then Some 0 else None)
  /\ results w0 = []
  /\ container w0 = Blank
  /\ calls w0 = 0
  /\ (forall t j, intervals w0 !! t = Some j <-> t = 0 /\ j = 0).
Proof.
  intros Hmain.
  destruct (main_Ok o evs0 w0 Hmain) as (l & Hk & _ & Hlen & Hlook & -> & ->).
  cbn [simulations results container calls intervals].
  split; [reflexivity |]. split; [rewrite length_insert; exact Hlen |].
  split; [| split; [reflexivity | split; [reflexivity | split; [reflexivity |]]]].
  - intros j s Hj. apply lookup_insert_cases in Hj as [[-> ->] | [Hne Hj]].
    + rewrite decide_True by reflexivity. repeat split.
    + rewrite Hlook in Hj by (eapply lookup_lt_Some; exact Hj).
      injection Hj as <-. rewrite decide_False by exact Hne. repeat split.
  - intros t j. rewrite lookup_singleton_Some. split; intros [? ?]; subst; auto.
Qed.

(** ** Starting and stopping *)

(** X3. [start] then [stop] is a round trip on the armed timers when
    the id handed out by [setInterval] is not in use: the new timer is
    armed for this simulation in between and disarmed after, the other
    timers are as before, and what stays behind is the stale id in
    [this.timer]; the run itself and the results are not touched. *)
Theorem start_stop_round_trip (i : nat) (w : world) (s : Simulation) :
  simulations w !! i = Some s ->
  intervals w !! next_interval w = None ->
  intervals (Simulation_start i w).2 !! next_interval w = Some i
  /\ intervals (Simulation_stop i (Simulation_start i w).2) = intervals w
  /\ results (Simulation_stop i (Simulation_start i w).2) = results w
  /\ exists s',
       simulations (Simulation_stop i (Simulation_start i w).2) !! i = Some s'
       /\ same_town s s'
       /\ onDone s' = onDone s
       /\ timer s' = Some (next_interval w).
Proof.
  intros Hs Hfresh.
  assert (Hlt : i < length (simulations w)) by (eapply lookup_lt_Some; exact Hs).
  unfold Simulation_start. rewrite Hs. cbn [snd intervals].
  split; [apply lookup_insert_eq |].
  unfold Simulation_stop. cbn [simulations].
  rewrite list_lookup_insert_eq by exact Hlt.
  cbn [set_timer timer intervals results simulations].
  split; [apply delete_insert_id; exact Hfresh |].
  split; [reflexivity |].
  eexists. split; [apply list_lookup_insert_eq; exact Hlt |]. repeat split.
Qed.

(** X4. [start] is not idempotent: a second [start] overwrites
    [this.timer], so [stop] disarms only the second timer; the first one
    stays armed and goes on calling [tick] on the simulation. *)
Theorem second_start_leaks_a_timer (random : nat -> Q) (i : nat) (w : world) (s : Simulation) :
  simulations w !! i = Some s ->
  let w2 := (Simulation_start i (Simulation_start i w).2).2 in
  intervals (Simulation_stop i w2) !! next_interval w = Some i
  /\ intervals (Simulation_stop i w2) !! S (next_interval w) = None
  /\ fire random (next_interval w) (Simulation_stop i w2)
     = Some (Simulation_tick random i (Simulation_stop i w2)).
Proof.
  intros Hs w2.
  assert (Hlt : i < length (simulations w)) by (eapply lookup_lt_Some; exact Hs).
  assert (Hint : intervals (Simulation_stop i w2)
                 = delete (S (next_interval w))
                     (<[S (next_interval w) := i]> (<[next_interval w := i]> (intervals w)))).
  { unfold w2, Simulation_start. rewrite Hs. cbn [snd simulations next_interval].
    rewrite list_lookup_insert_eq by exact Hlt. cbn [snd].
    unfold Simulation_stop. cbn [simulations].
    rewrite list_lookup_insert_eq by (rewrite length_insert; exact Hlt).
    reflexivity. }
  assert (H1 : intervals (Simulation_stop i w2) !! next_interval w = Some i).
  { rewrite Hint, lookup_delete_ne by lia. rewrite lookup_insert_ne by lia.
    apply lookup_insert_eq. }
  split; [exact H1 |]. split.
  - rewrite Hint. apply lookup_delete_eq.
  - unfold fire. rewrite H1. reflexivity.
Qed.

(** ** What the days do to a town *)

Lemma js_get_lt hs j b : js_get hs j = Some b -> j < length hs.
Proof.
  unfold js_get. destruct (hs !! j) eqn:H; [| discriminate].
  intros _. eapply lookup_lt_Some. exact H.
Qed.

Lemma js_set_keeps hs i j :
  js_get hs j = Some true -> js_get (js_set hs i true) j = Some true.
Proof.
  intros Hj. pose proof (js_get_lt _ _ _ Hj) as Hlt. unfold js_set. case_decide as Hi.
  - unfold js_get in *. destruct (decide (i = j)) as [-> | Hne].
    + rewrite list_lookup_insert_eq by exact Hi. reflexivity.
    + rewrite list_lookup_insert_ne by exact Hne. exact Hj.
  - unfold js_get in *. rewrite lookup_app_l by exact Hlt. exact Hj.
Qed.

Lemma length_js_set_le hs i v : length hs <= length (js_set hs i v).
Proof.
  unfold js_set. case_decide.
  - rewrite length_insert. lia.
  - rewrite length_app. lia.
Qed.

Section AnyDraws.

Variable random : nat -> Q.

Lemma enter_never_cures v j :
  js_get (v_houses v) j = Some true ->
  js_get (v_houses (enter random v)) j = Some true.
Proof.
  intros Hj. unfold enter. destruct (truthy _); cbn [v_houses]; [exact Hj |].
  apply js_set_keeps. exact Hj.
Qed.

Lemma enter_never_shrinks v :
  length (v_houses v) <= length (v_houses (enter random v)).
Proof.
  unfold enter. destruct (truthy _); cbn [v_houses]; [lia |]. apply length_js_set_le.
Qed.

Lemma each_zombie_never_cures n v j :
  js_get (v_houses v) j = Some true ->
  js_get (v_houses (each_zombie random n v)) j = Some true.
Proof.
  revert v. induction n as [|n IH]; intros v Hj; [exact Hj |].
  cbn [each_zombie]. apply IH, enter_never_cures, Hj.
Qed.

Lemma each_zombie_never_shrinks n v :
  length (v_houses v) <= length (v_houses (each_zombie random n v)).
Proof.
  revert v. induction n as [|n IH]; intros v; [cbn; lia |].
  cbn [each_zombie]. pose proof (IH (enter random v)).
  pose proof (enter_never_shrinks v). lia.
Qed.

(** With draws in [0, 1) the index is below the length of the array,
    or 0 when the array is empty: the array grows to one house at most. *)
Lemma enter_never_outgrows v :
  unit_interval random ->
  length (v_houses (enter random v)) <= Nat.max 1 (length (v_houses v)).
Proof.
  intros Hunit. unfold enter.
  destruct (truthy _); cbn [v_houses]; [lia |].
  destruct (Hunit (v_calls v)) as [H0 H1].
  destruct (decide (0 < length (v_houses v))) as [Hlen | Hlen].
  - rewrite length_js_set; [lia |]. apply randomHouseNumber_lt; assumption.
  - assert (Hnil : v_houses v = []) by (destruct (v_houses v); [reflexivity | cbn in Hlen; lia]).
    rewrite Hnil. cbn [length].
    assert (Hi : randomHouseNumber (random (v_calls v)) 0 = 0).
    { unfold randomHouseNumber. rewrite (Qfloor_comp _ 0); [reflexivity | apply Qmult_0_r]. }
    rewrite Hi. unfold js_set. rewrite decide_False by (cbn [length]; lia).
    rewrite !length_app, length_replicate. cbn [length]. lia.
Qed.

Lemma each_zombie_never_outgrows n v :
  unit_interval random ->
  length (v_houses (each_zombie random n v)) <= Nat.max 1 (length (v_houses v)).
Proof.
  intros Hunit. revert v. induction n as [|n IH]; intros v; [cbn; lia |].
  cbn [each_zombie]. pose proof (IH (enter random v)).
  pose proof (enter_never_outgrows v Hunit). lia.
Qed.

(** X5. With draws in [0, 1), as [Math.random] returns them, and
    whatever the array holds (empty slots, no house at all), the days
    never cure a house, never shorten the array and let it grow to one
    house at most, never take a zombie away and never bring in a zombie
    without a newly infected house; the day counter counts the calls of
    [tick]. *)
Theorem days_only_add (m : nat) (s : Simulation) (c : nat) :
  unit_interval random ->
  (forall j, js_get (houses s) j = Some true ->
             js_get (houses (ticks random m s c).1) j = Some true)
  /\ length (houses s) <= length (houses (ticks random m s c).1)
  /\ length (houses (ticks random m s c).1) <= Nat.max 1 (length (houses s))
  /\ zombies s <= zombies (ticks random m s c).1
  /\ zombies (ticks random m s c).1 + infected (houses s)
     = zombies s + infected (houses (ticks random m s c).1)
  /\ day (ticks random m s c).1 = day s + m.
Proof.
  intros Hunit.
  induction m as [|m (IH1 & IH2 & IH2' & IH3 & IH4 & IH5)].
  - cbn [ticks fst]. repeat split; auto with arith; lia.
  - rewrite ticks_S. set (t := ticks random m s c) in *.
    pose proof (advance_balance random t.1 t.2) as Hb.
    pose proof (advance_zombies random t.1 t.2) as Hz.
    split; [| split; [| split; [| split; [| split]]]].
    + intros j Hj. unfold advance. cbn [fst houses].
      apply (each_zombie_never_cures _ (mkVisit _ _ _)). cbn [v_houses]. auto.
    + unfold advance. cbn [fst houses].
      pose proof (each_zombie_never_shrinks (zombies t.1) (mkVisit (houses t.1) 0 t.2)) as H.
      cbn [v_houses] in H. lia.
    + unfold advance. cbn [fst houses].
      pose proof (each_zombie_never_outgrows (zombies t.1) (mkVisit (houses t.1) 0 t.2) Hunit)
        as H.
      cbn [v_houses] in H. lia.
    + lia.
    + lia.
    + cbn [advance fst day]. lia.
Qed.

(** The zombie count at most doubles every day. *)
Lemma zombies_pace m s c : zombies (ticks random m s c).1 <= zombies s * 2 ^ m.
Proof.
  induction m as [|m IH]; [cbn; lia |].
  rewrite ticks_S. pose proof (advance_zombies random (ticks random m s c).1
                                 (ticks random m s c).2) as H.
  rewrite Nat.pow_succ_r'. lia.
Qed.

Hypothesis random_unit : unit_interval random.

Lemma ticks_calls_mono n m s c :
  0 < n -> sound n s -> c <= (ticks random m s c).2
                        /\ (ticks random m s c).2 <= (ticks random (S m) s c).2.
Proof.
  intros Hn Hs. split.
  - pose proof (ticks_calls random random_unit n m s c Hn Hs). lia.
  - rewrite ticks_S, advance_calls. lia.
Qed.

Lemma ticks_origin_bounded n m s c j :
  0 < n -> sound n s ->
  js_get (houses (ticks random m s c).1) j = Some true ->
  js_get (houses s) j = Some true
  \/ exists k, c <= k < (ticks random m s c).2 /\ randomHouseNumber (random k) n = j.
Proof.
  intros Hn Hs. induction m as [|m IH]; intros Hj; [auto |].
  destruct (ticks_calls_mono n m s c Hn Hs) as [Hc0 Hc1].
  rewrite ticks_S in Hj |- *.
  pose proof (sound_ticks random n m s c random_unit Hn Hs) as (Hs' & Hlen' & Hz').
  rewrite ticks_S in Hc1.
  set (t := ticks random m s c) in *.
  destruct (advance_origin random random_unit t.1 t.2 j Hs') as [H | (k & Hk & Hidx)];
    [lia | exact Hj | |].
  - destruct (IH H) as [? | (k & Hk & Hidx)]; [auto |].
    right. exists k. split; [lia | exact Hidx].
  - right. exists k. rewrite Hlen' in Hidx. split; [lia | exact Hidx].
Qed.

(** X6. In a new town of [N >= 1] houses, after any number of days the
    infected houses are exactly the houses drawn so far: a house is
    infected if and only if one of the draws made since the town was
    built gave its index. *)
Theorem infected_are_the_drawn (n : Z) (s0 : Simulation) (c m : nat) :
  (1 <= n)%Z ->
  Simulation_new n = Ok s0 ->
  forall j,
    js_get (houses (ticks random m s0 c).1) j = Some true
    <-> exists k, c <= k < (ticks random m s0 c).2
                  /\ randomHouseNumber (random k) (Z.to_nat n) = j.
Proof.
  intros Hn Hnew j. apply Simulation_new_fresh in Hnew as [_ ->].
  set (N := Z.to_nat n). assert (HN : 0 < N) by (unfold N; lia).
  pose proof (sound_fresh N LogNotDefined) as Hsound. split.
  - intros Hj.
    destruct (ticks_origin_bounded N m _ c j HN Hsound Hj) as [Hfresh | Hk]; [| exact Hk].
    pose proof (js_get_lt _ _ _ Hfresh) as Hlt. unfold fresh, js_get in Hfresh, Hlt.
    cbn [houses] in Hfresh, Hlt. rewrite length_replicate in Hlt.
    rewrite lookup_replicate_2 in Hfresh by exact Hlt. discriminate Hfresh.
  - intros (k & Hk & <-). apply ticks_hits; assumption.
Qed.

(** X7. A town cannot fall faster than the zombies can double: on the
    evening of day [m] there are at most [2 ^ m] zombies, so a run over
    [N >= 1] houses that ends with [onDone] ends on a day [d >= 1] with
    [N + 1 <= 2 ^ d], and not after the days it was given. *)
Theorem town_lifespan_lower_bound (n : Z) (s0 : Simulation) (c : nat) :
  (1 <= n)%Z ->
  Simulation_new n = Ok s0 ->
  (forall m, zombies (ticks random m s0 c).1 <= 2 ^ m)
  /\ (forall fuel s,
        run random fuel s0 c = Some s ->
        1 <= day s <= fuel
        /\ zombies s = Z.to_nat n + 1
        /\ Z.to_nat n + 1 <= 2 ^ day s).
Proof.
  intros Hn Hnew. apply Simulation_new_fresh in Hnew as [_ ->].
  set (N := Z.to_nat n). assert (HN : 0 < N) by (unfold N; lia).
  clearbody N.
  pose proof (sound_fresh N LogNotDefined) as Hsound.
  assert (Hpace : forall m, zombies (ticks random m (fresh N LogNotDefined) c).1 <= 2 ^ m).
  { intros m. pose proof (zombies_pace m (fresh N LogNotDefined) c) as H.
    cbn [fresh zombies] in H. lia. }
  split; [exact Hpace |].
  intros fuel s Hrun.
  assert (Hfuel : forall f s1 c1 s2, run random f s1 c1 = Some s2 ->
            exists m, m < f /\ s2 = (ticks random (S m) s1 c1).1).
  { induction f as [|f IH]; intros s1 c1 s2 H; [discriminate H |].
    cbn [run] in H. destruct (advance random s1 c1) as [s3 c3] eqn:Ha.
    destruct (complete s3).
    - injection H as <-. exists 0. rewrite ticks_unfold, Ha. split; [lia | reflexivity].
    - destruct (IH _ _ _ H) as (m & Hm & ->). exists (S m).
      rewrite (ticks_unfold random (S m)), Ha. split; [lia | reflexivity]. }
  destruct (Hfuel _ _ _ _ Hrun) as (m & Hm & Heq).
  destruct (run_Some random fuel _ c s Hrun) as (_ & _ & Hc & _).
  subst s.
  pose proof (sound_ticks random N (S m) _ c random_unit HN Hsound) as (Hs & Hlen & Hz).
  pose proof (proj1 (complete_infected _ Hs) Hc) as Hall.
  pose proof (Hpace (S m)) as Hp.
  rewrite day_ticks. cbn [fresh day].
  set (t := ticks random (S m) (fresh N LogNotDefined) c) in *. clearbody t.
  change (0 + S m) with (S m).
  split; [lia |]. split; lia.
Qed.

End AnyDraws.

(** ** The batch, further *)

Section BatchFurther.

Variable random : nat -> Q.
Hypothesis random_unit : unit_interval random.

(** Induction over the states the page can come to. *)
Lemma reachable_invariant o (P : list event -> world -> Prop) :
  (forall evs0 w0, main o = Ok (evs0, w0) -> P evs0 w0) ->
  (forall tr w t evs w',
     reachable random o tr w -> P tr w -> fire random t w = Some (evs, w') ->
     P (tr ++ evs) w') ->
  forall tr w, reachable random o tr w -> P tr w.
Proof.
  intros Hinit Hstep tr w (evs0 & w0 & tr' & Hmain & Hexec & ->).
  induction Hexec as [| tr w1 t evs w2 Hexec IH Hfire].
  - rewrite app_nil_r. apply Hinit. exact Hmain.
  - rewrite app_assoc. eapply Hstep; [| exact IH | exact Hfire].
    exists evs0, w0, tr. auto.
Qed.

Lemma reachable_fire o tr w t evs w' :
  reachable random o tr w -> fire random t w = Some (evs, w') ->
  reachable random o (tr ++ evs) w'.
Proof.
  intros (evs0 & w0 & tr' & Hmain & Hexec & ->) Hfire.
  exists evs0, w0, (tr' ++ evs). split; [exact Hmain |].
  split; [eapply exec_fire; eassumption | symmetry; apply app_assoc].
Qed.

Lemma reachable_exec o tr w tr' w' :
  reachable random o tr w -> exec random w tr' w' ->
  reachable random o (tr ++ tr') w'.
Proof.
  intros Hr. induction 1 as [| tr1 w1 t evs w2 _ IH Hfire].
  - rewrite app_nil_r. exact Hr.
  - rewrite app_assoc. eapply reachable_fire; eassumption.
Qed.

(** Every simulation of the batch has at most doubled its zombies every
    day. *)
Lemma batch_pace o tr w :
  (1 <= numberOfHouses o)%Z ->
  reachable random o tr w ->
  forall j s, simulations w !! j = Some s -> zombies s <= 2 ^ day s.
Proof.
  intros Hn.
  apply (reachable_invariant o
           (fun _ w => forall j s, simulations w !! j = Some s -> zombies s <= 2 ^ day s)).
  - intros evs0 w0 Hmain j s Hj.
    destruct (main_towns o evs0 w0 Hmain) as [Hsims _].
    destruct (Hsims j s Hj) as (Hz & Hd & _).
    rewrite <- Hz, <- Hd. cbn. lia.
  - intros tr1 w1 t evs w2 Hr IH Hfire j s Hj.
    pose proof (batch_reachable random random_unit o tr1 w1 Hn Hr) as B.
    destruct (fire_batch random _ _ _ _ _ _ _ B Hfire)
      as (s1 & _ & Hs1 & _ & _ & _ & _ & Hcases).
    assert (Hadv : zombies (advance random s1 (calls w1)).1
                   <= 2 ^ day (advance random s1 (calls w1)).1).
    { pose proof (advance_zombies random s1 (calls w1)).
      pose proof (IH _ _ Hs1).
      change (day (advance random s1 (calls w1)).1) with (S (day s1)).
      rewrite Nat.pow_succ_r'. lia. }
    destruct Hcases as [(_ & _ & ->) | [(_ & _ & _ & ->) | (_ & _ & _ & ->)]];
      cbn [simulations] in Hj.
    + apply lookup_insert_cases in Hj as [[-> ->] | [_ Hj]]; [exact Hadv | eauto].
    + apply lookup_insert_cases in Hj as [[-> ->] | [_ Hj]]; [cbn; lia |].
      apply lookup_insert_cases in Hj as [[-> ->] | [_ Hj]]; [exact Hadv | eauto].
    + apply lookup_insert_cases in Hj as [[-> ->] | [_ Hj]]; [exact Hadv | eauto].
Qed.

(** X8. Every day count that a batch over [N >= 1] houses records is
    the day counter its run still shows, is at least 1, and is large
    enough for the zombies to have doubled up to [N + 1]:
    [N + 1 <= 2 ^ d]. *)
Theorem recorded_days_bound (o : options) (tr : list event) (w : world) (j d : nat) :
  (1 <= numberOfHouses o)%Z ->
  reachable random o tr w ->
  results w !! j = Some d ->
  1 <= d
  /\ Z.to_nat (numberOfHouses o) + 1 <= 2 ^ d
  /\ exists s, simulations w !! j = Some s /\ day s = d /\ complete s = true.
Proof.
  intros Hn Hr Hd.
  pose proof (batch_reachable random random_unit o tr w Hn Hr) as B.
  set (n := Z.to_nat (numberOfHouses o)) in *.
  assert (Hlt : j < length (results w)) by (eapply lookup_lt_Some; exact Hd).
  assert (Hi : j < length (simulations w)).
  { rewrite (batch_length _ _ _ _ B). pose proof (batch_bound _ _ _ _ B). lia. }
  destruct (lookup_lt_is_Some_2 _ _ Hi) as [s Hs].
  destruct (batch_past _ _ _ _ B j s Hs Hlt) as [Hc Hday].
  destruct (batch_sound _ _ _ _ B j s Hs) as (Hsolid & Hlen & Hz).
  pose proof (proj1 (complete_infected s Hsolid) Hc) as Hall.
  pose proof (batch_pace o tr w Hn Hr j s Hs) as Hp.
  assert (Hds : day s = d) by congruence. rewrite Hds in Hp.
  assert (Hb : n + 1 <= 2 ^ d) by lia.
  split; [| split; [exact Hb | eauto]].
  destruct d; [| lia]. cbn in Hb. unfold n in Hb. lia.
Qed.

Lemma recorded_days o tr w :
  (1 <= numberOfHouses o)%Z ->
  reachable random o tr w ->
  results w = day <$> take (length (results w)) (simulations w).
Proof.
  intros Hn Hr.
  pose proof (batch_reachable random random_unit o tr w Hn Hr) as B.
  apply list_eq. intros j. rewrite list_lookup_fmap.
  destruct (decide (j < length (results w))) as [Hlt | Hge].
  - rewrite lookup_take_lt by exact Hlt.
    assert (Hi : j < length (simulations w)).
    { rewrite (batch_length _ _ _ _ B). pose proof (batch_bound _ _ _ _ B). lia. }
    destruct (lookup_lt_is_Some_2 _ _ Hi) as [s Hs]. rewrite Hs. cbn.
    apply (batch_past _ _ _ _ B j s Hs Hlt).
  - rewrite lookup_take_ge by lia. rewrite lookup_ge_None_2 by lia. reflexivity.
Qed.

(** X10. The results of a batch are the final day counters of its
    completed runs, in the order of the runs, and later callbacks only
    ever append to them: what has been recorded stays, and there are
    never more results than runs. *)
Theorem results_are_final_days (o : options) (tr : list event) (w : world) :
  (1 <= numberOfHouses o)%Z ->
  reachable random o tr w ->
  results w = day <$> take (length (results w)) (simulations w)
  /\ forall tr' w', exec random w tr' w' ->
       results w `prefix_of` results w'
       /\ length (results w') <= Z.to_nat (numberOfSimulations o).
Proof.
  intros Hn Hr.
  pose proof (batch_reachable random random_unit o tr w Hn Hr) as B.
  split.
  - apply (recorded_days o tr w Hn Hr).
  - intros tr' w' Hexec. split.
    + induction Hexec as [| tr1 w1 t evs w2 Hexec IH Hfire]; [reflexivity |].
      pose proof (batch_reachable random random_unit o _ w1 Hn
                    (reachable_exec o tr w tr1 w1 Hr Hexec)) as B1.
      destruct (fire_batch random _ _ _ _ _ _ _ B1 Hfire)
        as (s1 & _ & _ & _ & _ & _ & _ & Hcases).
      destruct Hcases as [(_ & _ & ->) | [(_ & _ & _ & ->) | (_ & _ & _ & ->)]];
        cbn [results]; [exact IH | |]; apply prefix_app_r; exact IH.
    + apply (batch_bound _ _ _ _
               (batch_reachable random random_unit o _ w' Hn
                  (reachable_exec o tr w tr' w' Hr Hexec))).
Qed.

Lemma finished_container o tr w :
  (1 <= numberOfHouses o)%Z ->
  reachable random o tr w ->
  length (results w) = Z.to_nat (numberOfSimulations o) ->
  container w = Summary (Z.to_nat (numberOfSimulations o)) (summarize (results w)).2.
Proof.
  intros Hn. revert tr w.
  apply (reachable_invariant o
           (fun _ w => length (results w) = Z.to_nat (numberOfSimulations o) ->
              container w = Summary (Z.to_nat (numberOfSimulations o))
                                    (summarize (results w)).2)).
  - intros evs0 w0 Hmain Hlen.
    destruct (main_Ok o evs0 w0 Hmain) as (l & Hk & _ & _ & _ & _ & ->).
    cbn [results length] in Hlen. lia.
  - intros tr1 w1 t evs w2 Hr1 _ Hfire Hlen.
    pose proof (batch_reachable random random_unit o tr1 w1 Hn Hr1) as B.
    destruct (fire_batch random _ _ _ _ _ _ _ B Hfire)
      as (s1 & Hi & _ & _ & _ & _ & _ & Hcases).
    destruct Hcases as [(_ & _ & ->) | [(_ & Hnext & _ & ->) | (_ & _ & _ & ->)]];
      cbn [results container] in *; [lia | | reflexivity].
    rewrite length_app in Hlen. cbn [length] in Hlen. lia.
Qed.

(** The call of [render] ends the batch. *)
Lemma rendered_is_last o tr w n a :
  (1 <= numberOfHouses o)%Z ->
  reachable random o tr w ->
  Rendered n a ∈ tr ->
  n = Z.to_nat (numberOfSimulations o)
  /\ 0 < n
  /\ length (results w) = n
  /\ tr = history 0 (results w) ++ [Rendered n a]
  /\ intervals w = ∅
  /\ container w = Summary n a
  /\ results w = day <$> simulations w
  /\ a = (summarize (results w)).2.
Proof.
  intros Hn Hr Hin.
  pose proof (batch_reachable random random_unit o tr w Hn Hr) as B.
  set (k := Z.to_nat (numberOfSimulations o)) in *.
  pose proof (batch_bound _ _ _ _ B) as Hle.
  assert (Hnoh : forall ds from, Rendered n a ∉ history from ds).
  { intros ds from H. apply elem_of_history in H as (j & d & _ & [H | [H | H]]);
      discriminate H. }
  destruct (decide (length (results w) = k)) as [Hfin | Hrun].
  2:{ destruct (batch_current _ _ _ _ B) as [Htr _]; [lia |]. rewrite Htr in Hin.
      apply elem_of_app in Hin as [Hin | Hin]; [destruct (Hnoh _ _ Hin) |].
      apply list_elem_of_singleton in Hin. discriminate Hin. }
  destruct (batch_finished _ _ _ _ B Hfin) as [Htr Hint].
  assert (Heq : Rendered n a = Rendered k (summarize (results w)).2).
  { rewrite Htr in Hin. apply elem_of_app in Hin as [Hin | Hin];
      [destruct (Hnoh _ _ Hin) |]. apply list_elem_of_singleton in Hin. exact Hin. }
  injection Heq as -> ->.
  assert (Hk : 0 < k).
  { destruct Hr as (evs0 & w0 & _ & Hmain & _).
    destruct (main_Ok o evs0 w0 Hmain) as (_ & Hk & _). unfold k. lia. }
  split; [reflexivity |]. split; [exact Hk |]. split; [exact Hfin |]. split; [exact Htr |].
  split; [exact Hint |]. split; [apply (finished_container o tr w Hn Hr Hfin) |].
  split; [| reflexivity].
  pose proof (recorded_days o tr w Hn Hr) as Hres.
  rewrite Hfin in Hres. rewrite take_ge in Hres by (rewrite (batch_length _ _ _ _ B); lia).
  exact Hres.
Qed.

(** X11. Once a summary has been rendered the batch is over: the
    summary is the last call observed and the only one of its kind, all
    [k] runs are recorded, no timer is armed, the container shows the
    summary, and the summary counts [k] runs and gives what the division
    of the sum of the day counters of all the simulations by [k]
    returns, a finite double. *)
Theorem final_summary (o : options) (tr : list event) (w : world) (n : nat) (a : number) :
  (1 <= numberOfHouses o)%Z ->
  reachable random o tr w ->
  Rendered n a ∈ tr ->
  n = Z.to_nat (numberOfSimulations o)
  /\ length (results w) = n
  /\ tr = history 0 (results w) ++ [Rendered n a]
  /\ intervals w = ∅
  /\ container w = Summary n a
  /\ a = js_div (sum_list (day <$> simulations w)) n
  /\ exists q, a = Num q.
Proof.
  intros Hn Hr Hin.
  destruct (rendered_is_last o tr w n a Hn Hr Hin)
    as (Hk & Hpos & Hlen & Htr & Hint & Hc & Hres & Ha).
  split; [exact Hk |]. split; [exact Hlen |]. split; [exact Htr |].
  split; [exact Hint |]. split; [exact Hc |].
  assert (Hdiv : a = js_div (sum_list (day <$> simulations w)) n).
  { rewrite Ha. unfold summarize. cbn [snd]. rewrite totalDays_sum, Hlen, Hres.
    reflexivity. }
  split; [exact Hdiv |]. rewrite Hdiv.
  destruct n as [|n']; [lia |]. cbn [js_div]. eexists. reflexivity.
Qed.

(** X12. A batch never stalls and never goes on after its end: as long
    as some run is not recorded, exactly one timer callback can happen
    next and its effect is determined; once the summary has been
    rendered no callback can happen any more, so the page stays as it
    is. *)
Theorem batch_progress (o : options) (tr : list event) (w : world) :
  (1 <= numberOfHouses o)%Z ->
  reachable random o tr w ->
  ((exists t p, fire random t w = Some p)
   <-> length (results w) < Z.to_nat (numberOfSimulations o))
  /\ ((exists n a, Rendered n a ∈ tr)
      <-> length (results w) = Z.to_nat (numberOfSimulations o))
  /\ (forall t1 t2 p1 p2,
        fire random t1 w = Some p1 -> fire random t2 w = Some p2 ->
        t1 = t2 /\ p1 = p2)
  /\ ((exists n a, Rendered n a ∈ tr) ->
      forall tr' w', exec random w tr' w' -> tr' = [] /\ w' = w).
Proof.
  intros Hn Hr.
  pose proof (batch_reachable random random_unit o tr w Hn Hr) as B.
  set (k := Z.to_nat (numberOfSimulations o)) in *.
  pose proof (batch_bound _ _ _ _ B) as Hle.
  assert (Hfire : forall t, is_Some (fire random t w) <-> is_Some (intervals w !! t)).
  { intros t. unfold fire. destruct (intervals w !! t); split; intros [x Hx];
      try discriminate Hx; eauto. }
  assert (Hcan : (exists t p, fire random t w = Some p) <-> length (results w) < k).
  { split.
    - intros (t & p & Hp).
      destruct (proj1 (Hfire t) (ex_intro _ p Hp)) as [j Hj].
      apply (batch_armed _ _ _ _ t j B) in Hj as (-> & Hk & _). exact Hk.
    - intros Hk. destruct (batch_current _ _ _ _ B Hk) as (_ & s & t & _ & _ & _ & Hint).
      destruct (proj2 (Hfire t)) as [p Hp]; [| eauto].
      rewrite Hint, lookup_singleton_eq. eauto. }
  assert (Hrend : (exists n a, Rendered n a ∈ tr) <-> length (results w) = k).
  { split.
    - intros (n & a & Hin).
      destruct (rendered_is_last o tr w n a Hn Hr Hin) as (-> & _ & H & _). exact H.
    - intros Hfin. destruct (batch_finished _ _ _ _ B Hfin) as [-> _].
      eexists _, _. apply elem_of_app. right. apply list_elem_of_singleton. reflexivity. }
  split; [exact Hcan |]. split; [exact Hrend |]. split.
  - intros t1 t2 p1 p2 H1 H2.
    destruct (proj1 (Hfire t1) (ex_intro _ p1 H1)) as [j1 Hj1].
    destruct (proj1 (Hfire t2) (ex_intro _ p2 H2)) as [j2 Hj2].
    apply (batch_armed _ _ _ _ t1 j1 B) in Hj1 as (-> & _ & s1 & Hs1 & Ht1).
    apply (batch_armed _ _ _ _ t2 j2 B) in Hj2 as (-> & _ & s2 & Hs2 & Ht2).
    assert (t1 = t2) as -> by congruence. split; [reflexivity | congruence].
  - intros Hdone tr' w' Hexec. apply Hrend in Hdone.
    induction Hexec as [| tr1 w1 t evs w2 _ IH Hfire1]; [auto |].
    destruct IH as [-> ->].
    assert (Hno : exists t p, fire random t w = Some p) by eauto.
    apply Hcan in Hno. lia.
Qed.

Lemma omap_id_solid hs : solid hs -> omap id hs = truthy <$> hs.
Proof.
  induction 1 as [|c hs [b ->] _ IH]; [reflexivity |].
  cbn. rewrite IH. destruct b; reflexivity.
Qed.

(** X13. What the container shows after a timer callback: the town of
    the run that was ticked, one cell per house, infected where the
    house is, unless the callback ended the batch, in which case the
    summary has replaced it. *)
Theorem display_after_callback (o : options) (tr : list event) (w : world)
    (t : nat) (evs : list event) (w' : world) :
  (1 <= numberOfHouses o)%Z ->
  reachable random o tr w ->
  fire random t w = Some (evs, w') ->
  exists s',
    simulations w' !! length (results w) = Some s'
    /\ ((forall n a, Rendered n a ∉ evs) ->
        container w' = Town (truthy <$> houses s')
        /\ length (truthy <$> houses s') = Z.to_nat (numberOfHouses o))
    /\ (forall n a, Rendered n a ∈ evs ->
          n = Z.to_nat (numberOfSimulations o) /\ container w' = Summary n a).
Proof.
  intros Hn Hr Hfire.
  pose proof (batch_reachable random random_unit o tr w Hn Hr) as B.
  destruct (fire_batch random _ _ _ _ _ _ _ B Hfire)
    as (s & Hi & Hs & _ & _ & _ & _ & Hcases).
  set (i := length (results w)) in *.
  set (s' := (advance random s (calls w)).1) in *.
  assert (Hlt : i < length (simulations w)) by (eapply lookup_lt_Some; exact Hs).
  assert (Hsound : sound (Z.to_nat (numberOfHouses o)) s').
  { apply sound_advance; [exact random_unit | lia |]. eapply batch_sound; eassumption. }
  destruct Hsound as (Hsolid & Hlen & _).
  exists s'.
  destruct Hcases as [(_ & -> & ->) | [(_ & _ & -> & ->) | (_ & _ & -> & ->)]];
    cbn [simulations container].
  - split; [apply list_lookup_insert_eq; exact Hlt |]. split.
    + intros _. rewrite (omap_id_solid _ Hsolid), length_fmap. auto.
    + intros n a H. inversion H.
  - split; [rewrite list_lookup_insert_ne by lia; apply list_lookup_insert_eq; exact Hlt |].
    split.
    + intros _. rewrite (omap_id_solid _ Hsolid), length_fmap. auto.
    + intros n a H. rewrite !elem_of_cons in H.
      destruct H as [H | [H | [H | H]]]; try discriminate H. inversion H.
  - split; [apply list_lookup_insert_eq; exact Hlt |]. split.
    + intros Hno. exfalso. eapply Hno. rewrite !elem_of_cons. right. right. left.
      reflexivity.
    + intros n a H. rewrite !elem_of_cons in H.
      destruct H as [H | [H | [H | H]]]; try discriminate H; [| inversion H].
      injection H as -> ->. auto.
Qed.

(** In a town of one house the first zombie cannot miss. *)
Lemma one_house_complete s c :
  sound 1 s -> complete (advance random s c).1 = true.
Proof.
  intros Hs.
  pose proof (sound_advance random random_unit 1 s c Nat.lt_0_1 Hs) as (Hs' & Hlen' & _).
  destruct Hs as (Hsolid & Hlen & Hz).
  apply (complete_get _ Hs'). rewrite Hlen'. intros j Hj.
  assert (Hhit : js_get (houses (advance random s c).1)
                   (randomHouseNumber (random c) (length (houses s))) = Some true).
  { apply advance_hits; [exact random_unit | exact Hsolid | lia |].
    rewrite advance_calls. lia. }
  pose proof (index_in_range random random_unit c (length (houses s))) as Hidx.
  rewrite Hlen in Hhit, Hidx.
  replace j with (randomHouseNumber (random c) 1) by (specialize (Hidx Nat.lt_0_1); lia).
  exact Hhit.
Qed.

(** X14. With one house per town every run of the batch ends on its
    first day, whatever the draws: each timer callback completes a run
    and records 1, so [k] callbacks end the batch, and the summary gives
    an average of 1. *)
Theorem one_house_batch (o : options) (tr : list event) (w : world) :
  numberOfHouses o = 1%Z ->
  reachable random o tr w ->
  results w = replicate (length (results w)) 1
  /\ (forall t evs w', fire random t w = Some (evs, w') ->
        results w' = results w ++ [1])
  /\ (forall n a, Rendered n a ∈ tr -> exists q, a = Num q /\ (q == 1)%Q).
Proof.
  intros Ho Hr. assert (Hn : (1 <= numberOfHouses o)%Z) by lia.
  assert (Hinv : results w = replicate (length (results w)) 1
                 /\ forall s, simulations w !! length (results w) = Some s -> day s = 0).
  { revert tr w Hr.
    apply (reachable_invariant o
             (fun _ w => results w = replicate (length (results w)) 1
                /\ forall s, simulations w !! length (results w) = Some s -> day s = 0)).
    - intros evs0 w0 Hmain.
      destruct (main_towns o evs0 w0 Hmain) as [Hsims Hres].
      rewrite Hres. split; [reflexivity |]. intros s Hs.
      destruct (Hsims _ _ Hs) as (_ & <- & _). reflexivity.
    - intros tr1 w1 t evs w2 Hr1 [IHr IHd] Hfire.
      pose proof (batch_reachable random random_unit o tr1 w1 Hn Hr1) as B.
      destruct (fire_batch random _ _ _ _ _ _ _ B Hfire)
        as (s1 & Hi & Hs1 & _ & _ & _ & _ & Hcases).
      assert (Hc : complete (advance random s1 (calls w1)).1 = true).
      { apply one_house_complete.
        replace 1 with (Z.to_nat (numberOfHouses o)) by (rewrite Ho; reflexivity).
        eapply batch_sound; eassumption. }
      rewrite (IHd _ Hs1) in Hcases.
      assert (Hlen : length (results w1 ++ [1]) = S (length (results w1)))
        by (rewrite length_app; cbn [length]; lia).
      destruct Hcases as [(Hc' & _) | [(_ & Hnext & _ & ->) | (_ & Hlast & _ & ->)]];
        [congruence | |]; cbn [results simulations]; rewrite Hlen.
      + split; [rewrite replicate_S_end, <- IHr; reflexivity |].
        intros s Hs. rewrite list_lookup_insert_eq in Hs.
        * injection Hs as <-. reflexivity.
        * rewrite length_insert, (batch_length _ _ _ _ B). exact Hnext.
      + split; [rewrite replicate_S_end, <- IHr; reflexivity |].
        intros s Hs. apply lookup_lt_Some in Hs.
        rewrite length_insert, (batch_length _ _ _ _ B) in Hs. lia. }
  destruct Hinv as [Hres Hday].
  pose proof (batch_reachable random random_unit o tr w Hn Hr) as B.
  split; [exact Hres |]. split.
  - intros t evs w' Hfire.
    destruct (fire_batch random _ _ _ _ _ _ _ B Hfire)
      as (s1 & Hi & Hs1 & _ & _ & _ & _ & Hcases).
    assert (Hc : complete (advance random s1 (calls w)).1 = true).
    { apply one_house_complete.
      replace 1 with (Z.to_nat (numberOfHouses o)) by (rewrite Ho; reflexivity).
      eapply batch_sound; eassumption. }
    rewrite (Hday _ Hs1) in Hcases.
    destruct Hcases as [(Hc' & _) | [(_ & _ & _ & ->) | (_ & _ & _ & ->)]];
      [congruence | reflexivity | reflexivity].
  - intros n a Hin.
    destruct (rendered_is_last o tr w n a Hn Hr Hin)
      as (_ & Hpos & Hlen & _ & _ & _ & _ & ->).
    unfold summarize. cbn [snd]. rewrite totalDays_sum, Hres, Hlen.
    rewrite sum_list_replicate, length_replicate, Nat.mul_1_r.
    apply (js_div_exact n n 1 Hpos). lia.
Qed.

End BatchFurther.

(** ** The summary, further *)



(** ** Towns without a house *)

Lemma randomHouseNumber_empty r : randomHouseNumber r 0 = 0.
Proof.
  unfold randomHouseNumber. rewrite (Qfloor_comp (r * inject_Z (Z.of_nat 0)) 0).
  - reflexivity.
  - apply Qmult_0_r.
Qed.

(** X16. A town built with no house passes the completion test from
    the start, but nobody looks before the first [tick]; that [tick]
    finds [undefined] at index 0, stores an infected house there, so
    that the array grows to one house, and ends the run on day 1 with
    two zombies, whatever the random source returns. *)
Theorem empty_town_grows_a_house (random : nat -> Q) (h : handler) (c fuel : nat) :
  Simulation_new 0 = Ok (fresh 0 LogNotDefined)
  /\ complete (fresh 0 h) = true
  /\ advance random (fresh 0 h) c = (mkSimulation 2 1 [Some true] None h, S c)
  /\ run random (S fuel) (fresh 0 h) c = Some (mkSimulation 2 1 [Some true] None h).
Proof.
  assert (Ha : advance random (fresh 0 h) c = (mkSimulation 2 1 [Some true] None h, S c)).
  { unfold advance, fresh. cbn [zombies houses day timer onDone each_zombie].
    unfold enter. cbn [v_houses v_newly v_calls replicate length].
    rewrite randomHouseNumber_empty. reflexivity. }
  split; [reflexivity |]. split; [reflexivity |]. split; [exact Ha |].
  cbn [run]. rewrite Ha. reflexivity.
Qed.

(** ** A simulation on its own *)

(** X17. A simulation that is built and started on its own, with the
    [onDone] of the class, stops itself: as long as its town is not
    complete its timer stays armed and nothing is observed; the callback
    that completes the town disarms the timer and calls [onDone] once
    with the day reached, after which nothing can happen any more; and
    it never records a result. *)
Theorem standalone_run_stops_itself (random : nat -> Q) (n : nat) (tr : list event) (w : world) :
  unit_interval random ->
  0 < n ->
  exec random (standalone n) tr w ->
  results w = []
  /\ exists s,
       simulations w = [s]
       /\ ((tr = [] /\ intervals w = {[ 0 := 0 ]} /\ complete s = false)
           \/ (tr = [Done 0 (day s)] /\ intervals w = ∅ /\ complete s = true
               /\ forall t, fire random t w = None)).
Proof.
  intros Hunit Hn Hexec.
  assert (Hinv : results w = []
    /\ exists s, simulations w = [s] /\ sound n s /\ timer s = Some 0
         /\ onDone s = LogNotDefined
         /\ ((tr = [] /\ intervals w = {[ 0 := 0 ]} /\ complete s = false)
             \/ (tr = [Done 0 (day s)] /\ intervals w = ∅ /\ complete s = true))).
  { induction Hexec as [| tr w1 t evs w2 _ IH Hfire].
    - split; [reflexivity |]. eexists. split; [reflexivity |].
      split; [apply (sound_fresh n LogNotDefined) |].
      split; [reflexivity |]. split; [reflexivity |].
      left. split; [reflexivity |]. split; [apply insert_empty |].
      apply (complete_fresh n LogNotDefined). exact Hn.
    - destruct IH as (Hres & s & Hsims & Hsound & Ht & Hh & [(-> & Hint & Hc) | (_ & Hint & _)]).
      2:{ unfold fire in Hfire. rewrite Hint, lookup_empty in Hfire. discriminate Hfire. }
      unfold fire in Hfire. rewrite Hint in Hfire.
      destruct (({[0 := 0]} : gmap nat nat) !! t) as [i|] eqn:Hti; [| discriminate Hfire].
      apply lookup_singleton_Some in Hti as [<- <-]. injection Hfire as Hfire.
      unfold Simulation_tick in Hfire. rewrite Hsims in Hfire.
      cbn [lookup list_lookup] in Hfire.
      pose proof (sound_advance random Hunit n s (calls w1) Hn Hsound) as Hsound'.
      destruct (advance random s (calls w1)) as [s' c'] eqn:Hadv.
      assert (Hs' : s' = (advance random s (calls w1)).1) by (rewrite Hadv; reflexivity).
      cbn [fst] in Hsound'.
      assert (Ht' : timer s' = Some 0) by (rewrite Hs'; exact Ht).
      assert (Hh' : onDone s' = LogNotDefined) by (rewrite Hs'; exact Hh).
      destruct (complete s') eqn:Hcs'.
      + unfold Simulation_stop, call_onDone, Simulation_render, set_container,
          set_calls, set_simulations in Hfire.
        cbn [simulations results intervals next_interval calls container] in Hfire.
        rewrite Hsims in Hfire. cbn [insert list_insert lookup list_lookup] in Hfire.
        rewrite Ht' in Hfire.
        cbn [simulations results intervals next_interval calls container
             lookup list_lookup] in Hfire.
        rewrite Hh', Hint, delete_singleton_eq in Hfire.
        injection Hfire as <- <-. cbn [results simulations intervals].
        split; [exact Hres |]. exists s'. split; [reflexivity |].
        split; [exact Hsound' |]. split; [exact Ht' |]. split; [exact Hh' |].
        right. auto.
      + unfold Simulation_render, set_container, set_calls, set_simulations in Hfire.
        cbn [simulations results intervals next_interval calls container] in Hfire.
        rewrite Hsims in Hfire. cbn [insert list_insert] in Hfire.
        injection Hfire as <- <-. cbn [results simulations intervals].
        split; [exact Hres |]. exists s'. split; [reflexivity |].
        split; [exact Hsound' |]. split; [exact Ht' |]. split; [exact Hh' |].
        left. auto. }
  destruct Hinv as (Hres & s & Hsims & _ & _ & _ & Hcases).
  split; [exact Hres |]. exists s. split; [exact Hsims |].
  destruct Hcases as [H | (H1 & H2 & H3)]; [left; exact H | right].
  split; [exact H1 |]. split; [exact H2 |]. split; [exact H3 |].
  intros t. unfold fire. rewrite H2, lookup_empty. reflexivity.
Qed.

(** ** The cost of a run in random numbers *)

(** X18. Every call of [tick] asks [Math.random] once per zombie
    present at its start, so in a new town of [N >= 1] houses the number
    of draws made in the first [m] days is at least [m], at most
    [2 ^ m - 1], and at most [m * (N + 1)]. *)
Theorem draws_consumed (random : nat -> Q) (n : Z) (s0 : Simulation) (c m : nat) :
  unit_interval random ->
  (1 <= n)%Z ->
  Simulation_new n = Ok s0 ->
  (ticks random (S m) s0 c).2 = (ticks random m s0 c).2 + zombies (ticks random m s0 c).1
  /\ c + m <= (ticks random m s0 c).2
  /\ (ticks random m s0 c).2 + 1 <= c + 2 ^ m
  /\ (ticks random m s0 c).2 <= c + m * (Z.to_nat n + 1).
Proof.
  intros Hunit Hn Hnew. apply Simulation_new_fresh in Hnew as [_ ->].
  set (N := Z.to_nat n). assert (HN : 0 < N) by (unfold N; lia). clearbody N.
  pose proof (sound_fresh N LogNotDefined) as Hsound.
  split; [rewrite ticks_S, advance_calls; reflexivity |].
  split; [apply (ticks_calls random Hunit N); assumption |].
  induction m as [|m [IH1 IH2]]; [cbn; lia |].
  rewrite ticks_S, advance_calls.
  pose proof (zombies_pace random m (fresh N LogNotDefined) c) as Hp.
  cbn [fresh zombies] in Hp.
  pose proof (sound_ticks random N m (fresh N LogNotDefined) c Hunit HN Hsound)
    as (_ & Hlen & Hz).
  pose proof (infected_le_length (houses (ticks random m (fresh N LogNotDefined) c).1)).
  set (t := ticks random m (fresh N LogNotDefined) c) in *. clearbody t.
  rewrite Nat.pow_succ_r'. split; lia.
Qed.

(** * The further properties at sample inputs *)

Lemma reachable_at_start :
  reachable always_zero two_runs_one_house [Started 0] page_at_start.
Proof.
  exists [Started 0], page_at_start, []. split; [reflexivity |].
  split; [apply exec_refl | reflexivity].
Qed.

Lemma fire_first_run :
  fire always_zero 0 page_at_start
  = Some ([Done 0 1; Recorded 1; Started 1], page_after_first_run).
Proof. reflexivity. Qed.

Lemma fire_second_run :
  fire always_zero 1 page_after_first_run
  = Some ([Done 1 1; Recorded 1; Rendered 2 (Num 1)], page_at_end).
Proof. reflexivity. Qed.

Lemma reachable_at_end :
  reachable always_zero two_runs_one_house trace_at_end page_at_end.
Proof.
  apply (reachable_fire always_zero two_runs_one_house trace_after_first_run
           page_after_first_run 1 [Done 1 1; Recorded 1; Rendered 2 (Num 1)]
           page_at_end reachable_after_first_run fire_second_run).
Qed.

Lemma one_house_each : (1 <= numberOfHouses two_runs_one_house)%Z.
Proof. cbn. lia. Qed.

Lemma main_leaves_first_run_started_witness :
  main two_runs_one_house = Ok ([Started 0], page_at_start)
  /\ length (simulations page_at_start) = 2
  /\ results page_at_start = []
  /\ container page_at_start = Blank.
Proof.
  assert (Hmain : main two_runs_one_house = Ok ([Started 0], page_at_start))
    by reflexivity.
  split; [exact Hmain |].
  destruct (main_leaves_first_run_started two_runs_one_house [Started 0] page_at_start
              Hmain) as (_ & H1 & _ & H2 & H3 & _).
  split; [exact H1 |]. split; [exact H2 | exact H3].
Defined.

Lemma start_stop_round_trip_witness :
  intervals (Simulation_start 0 sample_world).2 !! 0 = Some 0
  /\ intervals (Simulation_stop 0 (Simulation_start 0 sample_world).2)
     = intervals sample_world.
Proof.
  destruct (start_stop_round_trip 0 sample_world sample_town eq_refl eq_refl)
    as (H1 & H2 & _).
  split; [exact H1 | exact H2].
Defined.

Lemma second_start_leaks_a_timer_witness :
  intervals (Simulation_stop 0
               (Simulation_start 0 (Simulation_start 0 sample_world).2).2) !! 0
  = Some 0.
Proof.
  exact (proj1 (second_start_leaks_a_timer always_half 0 sample_world sample_town
                  eq_refl)).
Defined.

Lemma days_only_add_witness :
  js_get (houses (ticks always_half 3 town_done 0).1) 0 = Some true
  /\ length (houses (ticks always_half 3 town_done 0).1)
     <= Nat.max 1 (length (houses town_done))
  /\ day (ticks always_half 3 town_done 0).1 = day town_done + 3.
Proof.
  destruct (days_only_add always_half 3 town_done 0 always_half_unit)
    as (H1 & _ & H2 & _ & _ & H5).
  split; [apply H1; reflexivity |]. split; [exact H2 | exact H5].
Defined.

Lemma infected_are_the_drawn_witness :
  js_get (houses (ticks alternating 1 (fresh 2 LogNotDefined) 0).1) 0 = Some true.
Proof.
  assert (H12 : (1 <= 2)%Z) by lia.
  apply (proj2 (infected_are_the_drawn alternating alternating_unit 2%Z
                  (fresh 2 LogNotDefined) 0 1 H12 eq_refl 0)).
  assert (Hc : (ticks alternating 1 (fresh 2 LogNotDefined) 0).2 = 1) by reflexivity.
  exists 0. rewrite Hc. split; [lia | reflexivity].
Defined.

Lemma town_lifespan_lower_bound_witness :
  run alternating 2 (fresh 2 LogNotDefined) 0
  = Some (ticks alternating 2 (fresh 2 LogNotDefined) 0).1
  /\ 1 <= day (ticks alternating 2 (fresh 2 LogNotDefined) 0).1 <= 2
  /\ 2 + 1 <= 2 ^ day (ticks alternating 2 (fresh 2 LogNotDefined) 0).1.
Proof.
  assert (H12 : (1 <= 2)%Z) by lia.
  assert (Hrun : run alternating 2 (fresh 2 LogNotDefined) 0
                 = Some (ticks alternating 2 (fresh 2 LogNotDefined) 0).1)
    by reflexivity.
  split; [exact Hrun |].
  destruct (proj2 (town_lifespan_lower_bound alternating alternating_unit 2%Z
                     (fresh 2 LogNotDefined) 0 H12 eq_refl) 2 _ Hrun)
    as (H1 & _ & H3).
  split; [exact H1 | exact H3].
Defined.

Lemma recorded_days_bound_witness :
  results page_after_first_run !! 0 = Some 1
  /\ 1 <= 1
  /\ 1 + 1 <= 2 ^ 1.
Proof.
  assert (Hd : results page_after_first_run !! 0 = Some 1) by reflexivity.
  split; [exact Hd |].
  destruct (recorded_days_bound always_zero always_zero_unit two_runs_one_house
              trace_after_first_run page_after_first_run 0 1 one_house_each
              reachable_after_first_run Hd) as (H1 & H2 & _).
  split; [exact H1 | exact H2].
Defined.

Lemma results_are_final_days_witness :
  results page_after_first_run
  = day <$> take (length (results page_after_first_run))
                 (simulations page_after_first_run).
Proof.
  exact (proj1 (results_are_final_days always_zero always_zero_unit two_runs_one_house
                  trace_after_first_run page_after_first_run one_house_each
                  reachable_after_first_run)).
Defined.

Lemma final_summary_witness :
  Rendered 2 (Num 1) ∈ trace_at_end
  /\ length (results page_at_end) = 2
  /\ intervals page_at_end = ∅
  /\ container page_at_end = Summary 2 (Num 1)
  /\ Num 1 = js_div (sum_list (day <$> simulations page_at_end)) 2.
Proof.
  assert (Hin : Rendered 2 (Num 1) ∈ trace_at_end).
  { unfold trace_at_end. rewrite !elem_of_cons. do 6 right. left. reflexivity. }
  split; [exact Hin |].
  destruct (final_summary always_zero always_zero_unit two_runs_one_house trace_at_end
              page_at_end 2 (Num 1) one_house_each reachable_at_end Hin)
    as (_ & H1 & _ & H2 & H3 & H4 & _).
  split; [exact H1 |]. split; [exact H2 |]. split; [exact H3 | exact H4].
Defined.

Lemma batch_progress_witness :
  (exists t p, fire always_zero t page_after_first_run = Some p)
  <-> length (results page_after_first_run) < 2.
Proof.
  exact (proj1 (batch_progress always_zero always_zero_unit two_runs_one_house
                  trace_after_first_run page_after_first_run one_house_each
                  reachable_after_first_run)).
Defined.

Lemma display_after_callback_witness :
  exists s',
    simulations page_after_first_run !! 0 = Some s'
    /\ container page_after_first_run = Town (truthy <$> houses s').
Proof.
  destruct (display_after_callback always_zero always_zero_unit two_runs_one_house
              [Started 0] page_at_start 0 [Done 0 1; Recorded 1; Started 1]
              page_after_first_run one_house_each reachable_at_start fire_first_run)
    as (s' & H1 & H2 & _).
  exists s'. split; [exact H1 |]. apply H2.
  intros n a H. rewrite !elem_of_cons in H.
  destruct H as [H | [H | [H | H]]]; try discriminate H. inversion H.
Defined.

Lemma one_house_batch_witness :
  results page_at_end = replicate (length (results page_at_end)) 1.
Proof.
  exact (proj1 (one_house_batch always_zero always_zero_unit two_runs_one_house
                  trace_at_end page_at_end eq_refl reachable_at_end)).
Defined.


Lemma standalone_run_stops_itself_witness :
  results (standalone 3) = []
  /\ exists s, simulations (standalone 3) = [s].
Proof.
  destruct (standalone_run_stops_itself always_half 3 [] (standalone 3)
              always_half_unit (Nat.lt_0_succ 2) (exec_refl always_half (standalone 3)))
    as (H1 & s & H2 & _).
  split; [exact H1 |]. exists s. exact H2.
Defined.

Lemma draws_consumed_witness :
  0 + 2 <= (ticks always_half 2 sample_town 0).2
  /\ (ticks always_half 2 sample_town 0).2 + 1 <= 0 + 2 ^ 2.
Proof.
  assert (H13 : (1 <= 3)%Z) by lia.
  destruct (draws_consumed always_half 3%Z sample_town 0 2 always_half_unit H13 eq_refl)
    as (_ & H1 & H2 & _).
  split; [exact H1 | exact H2].
Defined.
